(** * cryojax: image formation and likelihood kernels

    A shallow embedding of the array kernels of cryojax:

    - [image/_edges.py]: centre cropping, padding and resizing of images;
    - [image/operators/_masks.py]: cosine soft-edge masks;
    - [simulator/_integrators/_nufft_project.py]: projection with a
      non-uniform FFT, reduced to the half spectrum;
    - [simulator/image.py]: the view step of the image pipeline;
    - [inference/distributions/_gaussian_distributions.py]: the Gaussian
      noise model with independent Fourier modes;
    - [parameters/_transforms.py]: the parameter transforms and their
      application to pytrees.

    Python integers are [Z] ([//] is [Z.div] and [%] is [Z.modulo], both
    rounding towards minus infinity as Python does).  Floating-point numbers
    are idealised as the real numbers [R]; complex numbers are pairs of
    reals.  A two-dimensional array is the list of its rows; an array whose
    leading axis is empty is identified with the empty list. *)

From Stdlib Require Import List ZArith Reals Lra Lia Bool.
Import ListNotations.

(** ** Python and NumPy primitives *)

Module Py.

(** The exceptions the modelled code raises. *)
Inductive exn : Type :=
| ValueError.

Inductive result (A : Type) : Type :=
| Ok (a : A)
| Raise (e : exn).
Arguments Ok {A} a.
Arguments Raise {A} e.

Definition bind {A B : Type} (m : result A) (k : A -> result B) : result B :=
  match m with
  | Ok a => k a
  | Raise e => Raise e
  end.

Notation "x <- m ;; k" := (bind m (fun x => k))
  (at level 61, m at next level, right associativity).

(** What [warnings.warn] records. *)
Inductive warning : Type :=
| UserWarning.

Section Slicing.

(** A slice bound, brought into [0, n] as CPython does for step 1:
    a negative bound counts from the end. *)
Definition adjust_index (n i : Z) : Z :=
  if (i <? 0)%Z then Z.max (i + n) 0 else Z.min i n.

(** The number of items of [a[start:stop]] on an axis of length [n]. *)
Definition slice_len (n start stop : Z) : Z :=
  Z.max 0 (adjust_index n stop - adjust_index n start).

(** [l[start:stop]]. *)
Definition slice {B : Type} (l : list B) (start stop : Z) : list B :=
  let n := Z.of_nat (length l) in
  let a := adjust_index n start in
  let b := adjust_index n stop in
  firstn (Z.to_nat (b - a)) (skipn (Z.to_nat a) l).

(** [l[start:]] and [l[:stop]]. *)
Definition slice_from {B : Type} (l : list B) (start : Z) : list B :=
  slice l start (Z.of_nat (length l)).

Definition slice_to {B : Type} (l : list B) (stop : Z) : list B :=
  slice l 0 stop.

Context {A : Type}.

(** [a.shape] of a two-dimensional array. *)
Definition shape2 (a : list (list A)) : Z * Z :=
  (Z.of_nat (length a), Z.of_nat (length (hd [] a))).

(** Every row has [m] items. *)
Definition rect (m : nat) (a : list (list A)) : Prop :=
  Forall (fun r => length r = m) a.

(** [a] has [n] rows of [m] items each. *)
Definition has_shape (n m : Z) (a : list (list A)) : Prop :=
  Z.of_nat (length a) = n /\ Forall (fun r => Z.of_nat (length r) = m) a.

(** Every row is as long as the first one. *)
Definition rectangular (a : list (list A)) : Prop :=
  rect (length (hd [] a)) a.

(** [a[y0:yn, x0:xn]]. *)
Definition index2 (a : list (list A)) (y0 yn x0 xn : Z) : list (list A) :=
  map (fun r => slice r x0 xn) (slice a y0 yn).

(** [v[z0:zn, y0:yn, x0:xn]]. *)
Definition index3 (v : list (list (list A))) (z0 zn y0 yn x0 xn : Z)
  : list (list (list A)) :=
  map (fun p => index2 p y0 yn x0 xn) (slice v z0 zn).

(** [l[i]] for an index counted from the start of the axis. *)
Definition get {B : Type} (l : list B) (i : Z) : option B :=
  if (i <? 0)%Z then None else nth_error l (Z.to_nat i).

(** The item in row [i] and column [j], counted from 0. *)
Definition entry (a : list (list A)) (i j : nat) : option A :=
  match nth_error a i with
  | Some r => nth_error r j
  | None => None
  end.

Definition get2 (a : list (list A)) (i j : Z) : option A :=
  match get a i with
  | Some r => get r j
  | None => None
  end.
End Slicing.

End Py.

(** ** image/_edges.py *)

Module Edges.
Import Py.

Section Edges.
Variable A : Type.

(** [Image | Volume]: arrays of rank 2 and rank 3.  Arrays of any other
    rank, on which the functions below raise, lie outside the type. *)
Inductive ndarray : Type :=
| Image (a : list (list A))
| Volume (v : list (list (list A))).

Definition shape (a : ndarray) : list Z :=
  match a with
  | Image a => [fst (shape2 a); snd (shape2 a)]
  | Volume v =>
      [Z.of_nat (length v); fst (shape2 (hd [] v)); snd (shape2 (hd [] v))]
  end.

Definition crop_to_shape (image_or_volume : ndarray) (shp : list Z)
  : result ndarray :=
  if negb (Z.of_nat (length shp) =? Z.of_nat (length (shape image_or_volume)))%Z
  then Raise ValueError
  else
    match shp, image_or_volume with
    | [h; w], Image image =>
        let '(Ny, Nx) := shape2 image in
        let xc := (Nx / 2)%Z in
        let yc := (Ny / 2)%Z in
        Ok (Image (index2 image
                     (yc - h / 2) (yc + h / 2 + h mod 2)
                     (xc - w / 2) (xc + w / 2 + w mod 2)))
    | [d; h; w], Volume volume =>
        let Nz := Z.of_nat (length volume) in
        let '(Ny, Nx) := shape2 (hd [] volume) in
        let xc := (Nx / 2)%Z in
        let yc := (Ny / 2)%Z in
        let zc := (Nz / 2)%Z in
        Ok (Volume (index3 volume
                      (zc - d / 2) (zc + d / 2 + d mod 2)
                      (yc - h / 2) (yc + h / 2 + h mod 2)
                      (xc - w / 2) (xc + w / 2 + w mod 2)))
    | _, _ => Raise ValueError
    end.

(** The indices that a centre crop of an axis of length [N] to the length
    [M] keeps: [N // 2 - M // 2 : N // 2 + M // 2 + M % 2]. *)
Definition in_crop_window (N M k : Z) : Prop :=
  (N / 2 - M / 2 <= k < N / 2 + M / 2 + M mod 2)%Z.

(** The four slice bounds [(y0, yn, x0, xn)] of
    [crop_to_shape_with_center]; [xn] is computed from [yc] and [h], and
    [yn] from [xc] and [w], as the source has them. *)
Definition center_bounds (image : list (list A)) (h w xc yc : Z)
  : Z * Z * Z * Z :=
  let x0 := Z.max (xc - w / 2) 0 in
  let y0 := Z.max (yc - h / 2) 0 in
  let xn := Z.min (yc + h / 2 + h mod 2) (snd (shape2 image) - 1) in
  let yn := Z.min (xc + w / 2 + w mod 2) (fst (shape2 image) - 1) in
  (y0, yn, x0, xn).

(** [cropped.shape] of [image[y0:yn, x0:xn]]. *)
Definition cropped_shape (image : list (list A)) (b : Z * Z * Z * Z)
  : Z * Z :=
  let '(y0, yn, x0, xn) := b in
  (slice_len (fst (shape2 image)) y0 yn, slice_len (snd (shape2 image)) x0 xn).

Definition shape_eqb (s t : Z * Z) : bool :=
  ((fst s =? fst t) && (snd s =? snd t))%Z.

(** The result comes with the warnings emitted on the way. *)
Definition crop_to_shape_with_center
  (image : ndarray) (shp : list Z) (center : Z * Z)
  : result (list (list A) * list warning) :=
  match image with
  | Volume _ => Raise ValueError
  | Image image =>
      match shp with
      | [h; w] =>
          let '(xc, yc) := center in
          let '(y0, yn, x0, xn) := center_bounds image h w xc yc in
          let cropped := index2 image y0 yn x0 xn in
          if negb (shape_eqb (cropped_shape image (y0, yn, x0, xn)) (h, w))
          then Ok (cropped, [UserWarning])
          else Ok (cropped, [])
      | _ => Raise ValueError
      end
  end.

(** [jnp.pad] in its default mode, [mode="constant"], with
    [constant_values=fill]: axis by axis, [before] items in front and
    [after] items behind.  A negative width raises. *)
Definition pad1 {B : Type} (c : B) (before after : Z) (l : list B) : list B :=
  repeat c (Z.to_nat before) ++ l ++ repeat c (Z.to_nat after).

Definition negative_width (p : Z * Z) : bool :=
  ((fst p <? 0) || (snd p <? 0))%Z.

Definition jnp_pad2 (fill : A) (a : list (list A)) (py px : Z * Z)
  : result (list (list A)) :=
  if negative_width py || negative_width px then Raise ValueError
  else
    let blank := repeat fill (length (hd [] a)) in
    Ok (map (pad1 fill (fst px) (snd px)) (pad1 blank (fst py) (snd py) a)).

Definition jnp_pad3 (fill : A) (v : list (list (list A))) (pz py px : Z * Z)
  : result (list (list (list A))) :=
  if negative_width pz || negative_width py || negative_width px
  then Raise ValueError
  else
    let plane := hd [] v in
    let blank := repeat (repeat fill (length (hd [] plane))) (length plane) in
    Ok (map (fun p =>
               map (pad1 fill (fst px) (snd px))
                   (pad1 (repeat fill (length (hd [] p))) (fst py) (snd py) p))
            (pad1 blank (fst pz) (snd pz) v)).

Definition jnp_pad (fill : A) (a : ndarray) (padding : list (Z * Z))
  : result ndarray :=
  match a, padding with
  | Image a, [py; px] => r <- jnp_pad2 fill a py px ;; Ok (Image r)
  | Volume v, [pz; py; px] => r <- jnp_pad3 fill v pz py px ;; Ok (Volume r)
  | _, _ => Raise ValueError
  end.

Definition pad_to_shape (image_or_volume : ndarray) (shp : list Z) (fill : A)
  : result ndarray :=
  if negb (Z.of_nat (length shp) =? Z.of_nat (length (shape image_or_volume)))%Z
  then Raise ValueError
  else
    match shp, image_or_volume with
    | [s0; s1], Image image =>
        let y_pad := (s0 - fst (shape2 image))%Z in
        let x_pad := (s1 - snd (shape2 image))%Z in
        jnp_pad fill image_or_volume
          [ ((y_pad / 2)%Z, (y_pad / 2 + y_pad mod 2)%Z);
            ((x_pad / 2)%Z, (x_pad / 2 + x_pad mod 2)%Z) ]
    | [s0; s1; s2], Volume volume =>
        let z_pad := (s0 - Z.of_nat (length volume))%Z in
        let y_pad := (s1 - fst (shape2 (hd [] volume)))%Z in
        let x_pad := (s2 - snd (shape2 (hd [] volume)))%Z in
        jnp_pad fill image_or_volume
          [ ((z_pad / 2)%Z, (z_pad / 2 + z_pad mod 2)%Z);
            ((y_pad / 2)%Z, (y_pad / 2 + y_pad mod 2)%Z);
            ((x_pad / 2)%Z, (x_pad / 2 + x_pad mod 2)%Z) ]
    | _, _ => Raise ValueError
    end.

Definition resize_with_crop_or_pad
  (image : ndarray) (shp : list Z) (fill : A) : result ndarray :=
  match image, shp with
  | Image im, [M1; M2] =>
      let '(N1, N2) := shape2 im in
      if ((M1 <=? N1) && (M2 <=? N2))%Z then
        crop_to_shape image shp
      else if ((N1 <=? M1) && (N2 <=? M2))%Z then
        pad_to_shape image shp fill
      else if ((N1 <=? M1) && (M2 <=? N2))%Z then
        image <- crop_to_shape image [N1; M2] ;;
        pad_to_shape image [M1; M2] fill
      else
        image <- crop_to_shape image [M1; N2] ;;
        pad_to_shape image [M1; M2] fill
  | _, _ => Raise ValueError
  end.
End Edges.

Arguments Image {A} a.
Arguments Volume {A} v.
Arguments shape {A} a.
Arguments crop_to_shape {A} image_or_volume shp.
Arguments center_bounds {A} image h w xc yc.
Arguments cropped_shape {A} image b.
Arguments crop_to_shape_with_center {A} image shp center.
Arguments jnp_pad2 {A} fill a py px.
Arguments jnp_pad3 {A} fill v pz py px.
Arguments jnp_pad {A} fill a padding.
Arguments pad_to_shape {A} image_or_volume shp fill.
Arguments resize_with_crop_or_pad {A} image shp fill.

End Edges.

(** ** Real and complex scalars *)

Module Scalar.
Local Open Scope R_scope.

(** Comparisons of floating-point scalars, as booleans. *)
Definition Rleb (x y : R) : bool := if Rle_dec x y then true else false.
Definition Rltb (x y : R) : bool := if Rlt_dec x y then true else false.
Definition Rgtb (x y : R) : bool := Rltb y x.
Definition Reqb (x y : R) : bool := if Req_dec_T x y then true else false.

(** Complex numbers: real and imaginary part. *)
Definition C : Type := (R * R)%type.
Definition C0 : C := (0, 0).
Definition Cadd (z w : C) : C := (fst z + fst w, snd z + snd w).
Definition Csub (z w : C) : C := (fst z - fst w, snd z - snd w).
Definition Cmul (z w : C) : C :=
  (fst z * fst w - snd z * snd w, fst z * snd w + snd z * fst w).
Definition Cscale (s : R) (z : C) : C := (s * fst z, s * snd z).
Definition Cabs (z : C) : R := sqrt (fst z * fst z + snd z * snd z).
Definition Cexp_i (theta : R) : C := (cos theta, sin theta).
Definition RtoC (x : R) : C := (x, 0).

(** [jnp.sum] of a one- and of a two-dimensional array. *)
Definition sum (l : list R) : R := fold_right Rplus 0 l.
Definition sum2 (a : list (list R)) : R := sum (map sum a).
Definition Csum (l : list C) : C := fold_right Cadd C0 l.

(** Elementwise binary operations on arrays of one shape. *)
Fixpoint map2 {X Y W : Type} (f : X -> Y -> W) (l1 : list X) (l2 : list Y)
  : list W :=
  match l1, l2 with
  | x :: l1, y :: l2 => f x y :: map2 f l1 l2
  | _, _ => []
  end.

Definition zip2 {X Y W : Type} (f : X -> Y -> W)
  (a : list (list X)) (b : list (list Y)) : list (list W) :=
  map2 (map2 f) a b.
End Scalar.

(** ** image/operators/_masks.py *)

Module Masks.
Import Scalar.
Local Open Scope R_scope.

(** [jnp.linalg.norm(v)] of one coordinate vector (the last axis). *)
Definition norm (v : list R) : R :=
  sqrt (sum (map (fun x => x * x) v)).

(** The cosine masks are built with nested [jax.vmap]: two for an image
    grid, three for a volume grid.  [G] is the grid's container and [gmap]
    the nest of [vmap]s. *)
Section CircularOrSpherical.
Variable G : Type -> Type.
Variable gmap : forall X Y : Type, (X -> Y) -> G X -> G Y.

(** [jnp.where(c, x, y)] with a scalar condition [c], a scalar [x] and an
    array [y]: NumPy broadcasts all three to the shape of [y]. *)
Definition where_scalar (c : bool) (x : R) (y : G R) : G R :=
  if c then gmap R R (fun _ => x) y else y.

(** The body mentions [radial_coordinate_grid], the whole grid, inside
    the cosine, where the comparisons mention the argument
    [radial_coordinate]: each call returns a grid. *)
Definition compute_circular_or_spherical
  (coordinate_grid : G (list R)) (radius rolloff_width : R) : G (G R) :=
  let radial_coordinate_grid := gmap _ _ norm coordinate_grid in
  let compute_mask_at_coordinate := fun radial_coordinate : R =>
    where_scalar (Rleb radial_coordinate radius) 1
      (where_scalar (Rgtb radial_coordinate (radius + rolloff_width)) 0
         (gmap _ _
            (fun r => 0.5 * (1 + cos (PI * (r - radius) / rolloff_width)))
            radial_coordinate_grid)) in
  gmap _ _ compute_mask_at_coordinate radial_coordinate_grid.
End CircularOrSpherical.

Definition grid2 (X : Type) : Type := list (list X).
Definition grid3 (X : Type) : Type := list (list (list X)).
Definition vmap2 (X Y : Type) (f : X -> Y) : grid2 X -> grid2 Y :=
  map (map f).
Definition vmap3 (X Y : Type) (f : X -> Y) : grid3 X -> grid3 Y :=
  map (map (map f)).

(** A coordinate grid of an image or of a volume. *)
Inductive coordinate_grid : Type :=
| ImageGrid (g : grid2 (list R))
| VolumeGrid (g : grid3 (list R)).

Inductive mask_buffer : Type :=
| ImageBuffer (b : grid2 (grid2 R))
| VolumeBuffer (b : grid3 (grid3 R)).

Definition _compute_circular_or_spherical_mask
  (grid : coordinate_grid) (radius rolloff_width : R) : mask_buffer :=
  match grid with
  | ImageGrid g =>
      ImageBuffer (compute_circular_or_spherical grid2 vmap2 g radius rolloff_width)
  | VolumeGrid g =>
      VolumeBuffer (compute_circular_or_spherical grid3 vmap3 g radius rolloff_width)
  end.

(** The half-cosine taper over the rolloff band, at radial distance [r]. *)
Definition cosine_taper (radius rolloff_width r : R) : R :=
  0.5 * (1 + cos (PI * (r - radius) / rolloff_width)).

Definition is_in_square_fn (x y s : R) : bool :=
  Rleb (Rabs x) (s / 2) && Rleb (Rabs y) (s / 2).

Definition is_in_edge_fn (x_or_y s w : R) : bool :=
  Rgtb (Rabs x_or_y) (s / 2) && Rltb (Rabs x_or_y) (s / 2 + w).

Definition compute_edge_fn (x_or_y s w : R) : R :=
  0.5 * (1 + cos (PI * (x_or_y - s / 2) / w)).

Definition square_mask_at_coordinate
  (side_length rolloff_width : R) (coordinate : R * R) : R :=
  let '(x, y) := coordinate in
  let is_in_unmasked_square := is_in_square_fn x y side_length in
  let is_in_unmasked_plus_soft_edge_square :=
    is_in_square_fn x y (side_length + 2 * rolloff_width) in
  let is_in_edge_x := is_in_edge_fn x side_length rolloff_width in
  let is_in_edge_y := is_in_edge_fn y side_length rolloff_width in
  let edge_x := compute_edge_fn x side_length rolloff_width in
  let edge_y := compute_edge_fn y side_length rolloff_width in
  if is_in_unmasked_square then 1
  else if is_in_unmasked_plus_soft_edge_square then
    if is_in_edge_x && is_in_edge_y then edge_x * edge_y
    else if is_in_edge_x then edge_x else edge_y
  else 0.

Definition _compute_square_mask
  (coordinate_grid : grid2 (R * R)) (side_length rolloff_width : R) : grid2 R :=
  vmap2 _ _ (square_mask_at_coordinate side_length rolloff_width) coordinate_grid.
End Masks.

(** ** simulator/_integrators/_nufft_project.py *)

Module Nufft.
Import Py Scalar.
Local Open Scope R_scope.

(** [CloudCoords2D | CloudCoords3D]: one row per point. *)
Inductive CloudCoords : Type :=
| CloudCoords2D (c : list (R * R))
| CloudCoords3D (c : list (R * R * R)).

(** [coordinate_list[:, :2]]. *)
Definition xy (coordinate_list : CloudCoords) : list (R * R) :=
  match coordinate_list with
  | CloudCoords2D c => c
  | CloudCoords3D c => map (fun p => (fst (fst p), snd (fst p))) c
  end.

(** [jnp.fft.ifftshift]: every axis rolled by minus half its length. *)
Definition roll_left {X : Type} (k : nat) (l : list X) : list X :=
  skipn k l ++ firstn k l.

Definition ifftshift1 {X : Type} (l : list X) : list X :=
  roll_left (length l / 2) l.

Definition ifftshift {X : Type} (a : list (list X)) : list (list X) :=
  ifftshift1 (map ifftshift1 a).

(** [l.at[i].set(...)] on one axis: a negative index counts from the end,
    and an index outside the axis updates nothing. *)
Fixpoint update_nth {X : Type} (n : nat) (f : X -> X) (l : list X) : list X :=
  match l, n with
  | [], _ => []
  | x :: l, O => f x :: l
  | x :: l, S n => x :: update_nth n f l
  end.

Definition at_update {X : Type} (l : list X) (i : Z) (f : X -> X) : list X :=
  let n := Z.of_nat (length l) in
  let i := if (i <? 0)%Z then (i + n)%Z else i in
  if ((0 <=? i) && (i <? n))%Z then update_nth (Z.to_nat i) f l else l.

(** [a.at[:, j].set(v)] and [a.at[i, :].set(v)]. *)
Definition at_col_set {X : Type} (a : list (list X)) (j : Z) (v : X)
  : list (list X) :=
  map (fun r => at_update r j (fun _ => v)) a.

Definition at_row_set {X : Type} (a : list (list X)) (i : Z) (v : X)
  : list (list X) :=
  at_update a i (map (fun _ => v)).

Section Project.
(** [jax_finufft.nufft1(shape, weights, y, x, eps=eps, iflag=iflag)],
    the external type-1 transform. *)
Variable nufft1 :
  Z * Z -> list C -> list R -> list R -> R -> Z -> list (list C).

(** The coordinates brought into the period of the transform:
    [2 * jnp.pi * coordinates_xy / image_size]. *)
Definition coordinates_periodic
  (coordinate_list : CloudCoords) (shape : Z * Z) : list (R * R) :=
  let coordinates_xy := xy coordinate_list in
  let '(M1, M2) := shape in
  let image_size := (IZR M1, IZR M2) in
  map (fun c => (2 * PI * fst c / fst image_size,
                 2 * PI * snd c / snd image_size)) coordinates_xy.

Definition project_with_nufft
  (weights : list R) (coordinate_list : CloudCoords) (shape : Z * Z) (eps : R)
  : list (list C) :=
  let weights := map RtoC weights in
  let '(M1, M2) := shape in
  let coordinates_periodic := coordinates_periodic coordinate_list shape in
  let x := map fst coordinates_periodic in
  let y := map snd coordinates_periodic in
  let projection := nufft1 shape weights y x eps (-1)%Z in
  let projection :=
    map (fun r => slice_to r (M2 / 2 + 1)%Z) (ifftshift projection) in
  let projection :=
    if (M2 mod 2 =? 0)%Z then at_col_set projection (-1)%Z C0 else projection in
  let projection :=
    if (M1 mod 2 =? 0)%Z then at_row_set projection (M1 / 2)%Z C0 else projection in
  projection.

(** The part of [ImageConfig] that [NufftProject] reads.
    [rescale_to_pixel_size] is a method whose body lies outside this
    module; it is carried as a field. *)
Record ImageConfig : Type := {
  padded_shape : Z * Z;
  pixel_size : R;
  rescale_to_pixel_size : list (list C) -> R -> bool -> list (list C)
}.

(** The potentials, with the fields [NufftProject] reads; [OtherPotential]
    stands for any other representation. *)
Inductive Potential : Type :=
| RealVoxelGridPotential
    (real_voxel_grid : list (list (list R)))
    (wrapped_coordinate_grid : list (list (list (R * R * R))))
    (voxel_size : R)
| RealVoxelCloudPotential
    (voxel_weights : list R)
    (wrapped_coordinate_list : CloudCoords)
    (voxel_size : R)
| OtherPotential.

Record NufftProject : Type := {
  config : ImageConfig;
  eps : R
}.

Definition ravel3 {X : Type} (v : list (list (list X))) : list X :=
  concat (concat v).

Definition call (self : NufftProject) (potential : Potential)
  : result (list (list C)) :=
  match potential with
  | RealVoxelGridPotential real_voxel_grid wrapped_coordinate_grid voxel_size =>
      let fourier_projection :=
        project_with_nufft
          (ravel3 real_voxel_grid)
          (CloudCoords3D (ravel3 wrapped_coordinate_grid))
          (padded_shape (config self)) (eps self) in
      Ok (rescale_to_pixel_size (config self) fourier_projection voxel_size false)
  | RealVoxelCloudPotential voxel_weights wrapped_coordinate_list voxel_size =>
      let fourier_projection :=
        project_with_nufft voxel_weights wrapped_coordinate_list
          (padded_shape (config self)) (eps self) in
      Ok (rescale_to_pixel_size (config self) fourier_projection voxel_size false)
  | OtherPotential => Raise ValueError
  end.
End Project.

(** What is assumed of the external transform: on a shape with positive
    sides it returns an array of that shape. *)
Definition returns_shape
  (nufft1 : Z * Z -> list C -> list R -> list R -> R -> Z -> list (list C))
  : Prop :=
  forall (M1 M2 : Z) (c : list C) (x y : list R) (eps : R) (iflag : Z),
    (0 < M1)%Z -> (0 < M2)%Z ->
    has_shape M1 M2 (nufft1 (M1, M2) c x y eps iflag).

(** What is assumed of [ImageConfig.rescale_to_pixel_size]: the rescaled
    image has the shape of the image it is given. *)
Definition keeps_shape (cfg : ImageConfig) : Prop :=
  forall (n m : Z) (a : list (list C)) (voxel_size : R) (is_real : bool),
    has_shape n m a ->
    has_shape n m (rescale_to_pixel_size cfg a voxel_size is_real).

(** A row whose last item is zero. *)
Definition ends_with_zero (r : list C) : Prop :=
  exists front : list C, r = front ++ [C0].

(** The sum that [nufft1] approximates to the tolerance [eps]: mode
    [(k1, k2)], for [k1] from [-(M1/2)] and [k2] from [-(M2/2)] upwards, is
    the sum over the points of [c * exp (iflag * i * (k1 * x + k2 * y))]. *)
Definition direct_mode (iflag : Z) (c : list C) (x y : list R) (k1 k2 : Z) : C :=
  Csum (map2 (fun cj xy =>
                Cmul cj (Cexp_i (IZR iflag * (IZR k1 * fst xy + IZR k2 * snd xy))))
             c (combine x y)).

Definition direct_nufft1
  (shape : Z * Z) (c : list C) (x y : list R) (eps : R) (iflag : Z)
  : list (list C) :=
  let '(M1, M2) := shape in
  map (fun i =>
         map (fun j => direct_mode iflag c x y
                         (Z.of_nat i - M1 / 2)%Z (Z.of_nat j - M2 / 2)%Z)
             (seq 0 (Z.to_nat M2)))
      (seq 0 (Z.to_nat M1)).
End Nufft.

(** ** simulator/image.py *)

Module Pipeline.

Section ImagePipeline.
(** Arrays, in real or in Fourier space. *)
Variable Image : Type.
(** [fftn] and [irfftn] of [cryojax.utils]. *)
Variable fftn irfftn : Image -> Image.

(** The fields the view step reads; [crop] is [scattering.crop]. *)
Record ImagePipeline : Type := {
  crop : Image -> Image;
  filters : list (Image -> Image);
  masks : list (Image -> Image)
}.

(** The [for] loops of [filter] and [mask]: each operator in turn. *)
Definition filter (self : ImagePipeline) (image : Image) : Image :=
  fold_left (fun image filter => filter image) (filters self) image.

Definition mask (self : ImagePipeline) (image : Image) : Image :=
  fold_left (fun image mask => mask image) (masks self) image.

Definition view (self : ImagePipeline) (image : Image) (real : bool) : Image :=
  let image :=
    if real then
      if (0 <? length (filters self))%nat
      then irfftn (filter self (fftn image))
      else image
    else irfftn (filter self image) in
  mask self (crop self image).
End ImagePipeline.

Arguments crop {Image} i.
Arguments filters {Image} i.
Arguments masks {Image} i.
Arguments filter {Image} self image.
Arguments mask {Image} self image.
Arguments view {Image} fftn irfftn self image real.
End Pipeline.

(** ** inference/distributions/_gaussian_distributions.py *)

Module Gaussian.
Import Py Scalar.
Local Open Scope R_scope.

(** A [FourierOperatorLike], called on a frequency grid, yields one real
    per frequency vector. *)
Definition FourierOperatorLike : Type := R * R -> R.

(** Modelled from the spec: [Constant] of [cryojax.image.operators], the
    flat spectrum that is the default variance. *)
Definition Constant (value : R) : FourierOperatorLike := fun _ => value.

(** The part of [AbstractPipeline] the distribution reads:
    [integrator.config.padded_shape], the frequency grid
    [integrator.config.frequency_grid_in_angstroms.get()], and
    [render(normalize, get_real)]. *)
Record AbstractPipeline : Type := {
  padded_shape : Z * Z;
  frequency_grid_in_angstroms : list (list (R * R));
  pipeline_render : bool -> bool -> list (list C)
}.

Record IndependentFourierGaussian : Type := {
  pipeline : AbstractPipeline;
  variance : FourierOperatorLike;
  contrast_scale : R
}.

(** [x or y] on an optional operator: an operator object is always true. *)
Definition or_operator (x : option FourierOperatorLike) (y : FourierOperatorLike)
  : FourierOperatorLike :=
  match x with
  | Some v => v
  | None => y
  end.

(** [x or y] on an optional float: [None] and [0.0] are false. *)
Definition or_float (x : option R) (y : R) : R :=
  match x with
  | Some v => if Reqb v 0 then y else v
  | None => y
  end.

Definition init (pipeline : AbstractPipeline)
  (variance : option FourierOperatorLike) (contrast_scale : option R)
  : IndependentFourierGaussian :=
  {| pipeline := pipeline;
     variance := or_operator variance (Constant 1);
     contrast_scale := or_float contrast_scale 1 |}.

Definition render (self : IndependentFourierGaussian) (get_real : bool)
  : list (list C) :=
  map (map (Cscale (contrast_scale self)))
      (pipeline_render (pipeline self) true get_real).

(** [np.prod(shape)]. *)
Definition prod_shape (shape : Z * Z) : Z := (fst shape * snd shape)%Z.

(** [a[:, 0]] and [a[:, 1:]]. *)
Definition column0 (a : list (list R)) : list R := map (fun r => hd 0 r) a.
Definition columns_from1 (a : list (list R)) : list (list R) :=
  map (fun r => slice_from r 1) a.

(** Division and [ln] are total on [R] ([x / 0] is 0, and so is [ln] of
    a number that is not positive) where the floating-point operations
    give [nan] or an infinity: what is said about the value of the
    likelihood assumes a positive variance and a positive number of
    pixels. *)
Definition log_likelihood_per_mode
  (self : IndependentFourierGaussian) (observed : list (list C))
  : list (list R) :=
  let N_pix := IZR (prod_shape (padded_shape (pipeline self))) in
  let freqs := frequency_grid_in_angstroms (pipeline self) in
  let variance := map (map (fun f => N_pix * variance self f)) freqs in
  let simulated := render self false in
  let residuals := zip2 Csub simulated observed in
  let squared_standard_normal_per_mode :=
    zip2 (fun r v => Cabs r ^ 2 / (2 * v)) residuals variance in
  zip2 (fun s v => (s - ln (2 * PI * v) / 2) / N_pix)
       squared_standard_normal_per_mode variance.

Definition log_likelihood
  (self : IndependentFourierGaussian) (observed : list (list C)) : R :=
  let log_likelihood_per_mode := log_likelihood_per_mode self observed in
  -1 * (sum (column0 (slice_from log_likelihood_per_mode 1))
        + 2 * sum2 (columns_from1 log_likelihood_per_mode)).

(** *** The likelihood mode by mode

    The same quantity written as one weighted sum over the modes [(i, j)]
    of the half spectrum, to compare [log_likelihood] with. *)

(** The item in row [i] and column [j] of an array. *)
Definition at2 {X : Type} (d : X) (a : list (list X)) (i j : nat) : X :=
  nth j (nth i a []) d.

(** How often a mode counts: the zero mode never, the other modes of the
    first column once, every mode of a later column twice. *)
Definition hermitian_weight (i j : nat) : R :=
  match j, i with
  | O, O => 0
  | O, S _ => 1
  | S _, _ => 2
  end.

(** One mode's term: the squared magnitude of the residual over twice the
    variance, less half the logarithm of [2 * pi * variance], over the
    number of pixels. *)
Definition mode_term (N_pix : R) (simulated observed : C) (variance : R) : R :=
  (Cabs (Csub simulated observed) ^ 2 / (2 * variance)
   - ln (2 * PI * variance) / 2) / N_pix.

Definition weighted_mode_sum (n m : nat) (term : nat -> nat -> R) : R :=
  sum (map (fun i =>
              sum (map (fun j => hermitian_weight i j * term i j) (seq 0 m)))
           (seq 0 n)).

Definition log_likelihood_by_mode
  (self : IndependentFourierGaussian) (observed : list (list C)) (n m : nat) : R :=
  let N_pix := IZR (prod_shape (padded_shape (pipeline self))) in
  - weighted_mode_sum n m
      (fun i j =>
         mode_term N_pix
           (at2 C0 (render self false) i j)
           (at2 C0 observed i j)
           (N_pix * variance self
                      (at2 (0, 0) (frequency_grid_in_angstroms (pipeline self)) i j))).

(** The weighted sum as the specification words it, to compare with: the
    term of a mode is taken at the value of the variance function itself,
    not at [N_pix] times that value. *)
Definition log_likelihood_as_specified
  (self : IndependentFourierGaussian) (observed : list (list C)) (n m : nat) : R :=
  let N_pix := IZR (prod_shape (padded_shape (pipeline self))) in
  - weighted_mode_sum n m
      (fun i j =>
         mode_term N_pix
           (at2 C0 (render self false) i j)
           (at2 C0 observed i j)
           (variance self
              (at2 (0, 0) (frequency_grid_in_angstroms (pipeline self)) i j))).
End Gaussian.

(** ** image/operators/_masks.py: the mask operators *)

Module MaskOperators.
Import Scalar Masks.
Local Open Scope R_scope.

(** [jax.lax.stop_gradient]: the value is passed on unchanged; only
    differentiation sees a constant. *)
Definition stop_gradient {X : Type} (x : X) : X := x.

(** [AbstractMask.__call__] on an image: [image * stop_gradient(buffer)].
    The product is item by item for an image of the shape of the buffer,
    which is what [zip2] computes; for other shapes NumPy broadcasts or
    raises, which is not modelled: the statements about [call] assume one
    shape. *)
Definition call (buffer image : grid2 R) : grid2 R :=
  zip2 Rmult image (stop_gradient buffer).

(** The buffer of a [SquareCosineMask], as [__init__] builds it. *)
Definition SquareCosineMask
  (coordinate_grid_in_angstroms_or_pixels : grid2 (R * R))
  (side_length_in_angstroms_or_pixels rolloff_width_in_angstroms_or_pixels : R)
  : grid2 R :=
  _compute_square_mask coordinate_grid_in_angstroms_or_pixels
    side_length_in_angstroms_or_pixels rolloff_width_in_angstroms_or_pixels.
End MaskOperators.

(** ** inference/distributions/_gaussian_distributions.py: sampling *)

Module GaussianSampling.
Import Py Scalar Nufft Gaussian.
Local Open Scope R_scope.

Section Sample.
(** [jax.random] keys and [jr.normal(key, shape)], one standard normal draw
    per item of the shape. *)
Variable PRNGKeyArray : Type.
Variable jr_normal : PRNGKeyArray -> Z * Z -> list (list R).

(** Two members of the pipeline that [sample] reads and [AbstractPipeline]
    above does not carry:
    [integrator.config.padded_frequency_grid_in_angstroms.get()] and
    [crop_and_apply_operators(image, get_real)]. *)
Variable padded_frequency_grid_in_angstroms :
  AbstractPipeline -> list (list (R * R)).
Variable crop_and_apply_operators :
  AbstractPipeline -> list (list R) -> bool -> list (list C).

(** [a.at[i, j].set(v)]. *)
Definition at_set2 (a : list (list R)) (i j : Z) (v : R) : list (list R) :=
  at_update a i (fun r => at_update r j (fun _ => v)).

(** The argument that [sample] hands to [crop_and_apply_operators]:
    [std * jr.normal(key, shape=freqs.shape[0:-1]).at[0, 0].set(0.0)]. *)
Definition scaled_normal (self : IndependentFourierGaussian) (key : PRNGKeyArray)
  : list (list R) :=
  let N_pix := IZR (prod_shape (padded_shape (pipeline self))) in
  let freqs := padded_frequency_grid_in_angstroms (pipeline self) in
  let std := map (map (fun f => sqrt (N_pix * variance self f))) freqs in
  zip2 Rmult std (at_set2 (jr_normal key (shape2 freqs)) 0 0 0).

Definition sample (self : IndependentFourierGaussian) (key : PRNGKeyArray)
  (get_real : bool) : list (list C) :=
  let noise :=
    crop_and_apply_operators (pipeline self) (scaled_normal self key) get_real in
  let image := render self get_real in
  zip2 Cadd image noise.
End Sample.
End GaussianSampling.

(** ** parameters/_transforms.py *)

Module Transforms.
Local Open Scope R_scope.
Local Set Warnings "-register-all".

(** What the modelled code raises: [TypeError] when something that is not
    callable is called or an array operation meets something that is not an
    array, [ValueError] when [jax.tree_util.tree_map] finds that its trees
    do not match. *)
Inductive exn : Type :=
| TypeError
| ValueError.

Inductive result (A : Type) : Type :=
| Ok (a : A)
| Raise (e : exn).
Arguments Ok {A} a.
Arguments Raise {A} e.

Definition bind {A B : Type} (m : result A) (k : A -> result B) : result B :=
  match m with
  | Ok a => k a
  | Raise e => Raise e
  end.

(** The two concrete subclasses of [AbstractParameterTransform], each with
    the fields it stores. *)
Inductive AbstractParameterTransform : Type :=
| ExpTransform_fields (log_parameter : R)
| RescalingTransform_fields (rescaled_parameter : R) (rescaling : R).

(** [ExpTransform.__init__]. *)
Definition ExpTransform (parameter : R) : AbstractParameterTransform :=
  ExpTransform_fields (ln parameter).

(** [RescalingTransform.__init__]. *)
Definition RescalingTransform (parameter rescaling : R)
  : AbstractParameterTransform :=
  RescalingTransform_fields (rescaling * parameter) rescaling.

(** [ExpTransform.get] and [RescalingTransform.get]. *)
Definition get (self : AbstractParameterTransform) : R :=
  match self with
  | ExpTransform_fields log_parameter => exp log_parameter
  | RescalingTransform_fields rescaled_parameter rescaling =>
      rescaled_parameter / rescaling
  end.

(** A pytree of parameters: a scalar array, a transformed parameter, [None],
    or a container of pytrees (the model has one kind of container, the
    list). *)
Inductive PyTree : Type :=
| Array (x : R)
| Transformed (t : AbstractParameterTransform)
| PyNone
| Node (children : list PyTree).

Definition _is_transformed (x : PyTree) : bool :=
  match x with
  | Transformed _ => true
  | _ => false
  end.


Definition _apply_inverse_transform (x : PyTree) : PyTree :=
  match x with
  | Transformed t => Array (get t)
  | _ => x
  end.

(** [jtu.tree_map(_apply_inverse_transform, pytree, is_leaf=_is_transformed)]:
    the function is applied to what [is_leaf] accepts and to the arrays;
    [None] is a node without children for [tree_map], and stays. *)
Fixpoint apply_inverse_transforms (pytree : PyTree) : PyTree :=
  if _is_transformed pytree then _apply_inverse_transform pytree
  else
    match pytree with
    | Node children => Node (map apply_inverse_transforms children)
    | PyNone => PyNone
    | _ => _apply_inverse_transform pytree
    end.









End Transforms.

(** ** Small inputs *)

Module Samples.
Import Scalar Gaussian.

(** An image of 3x3 pixels. *)
Definition image_3x3 : list (list Z) :=
  [[1; 2; 3]; [4; 5; 6]; [7; 8; 9]]%Z.

(** An image of 6x6 pixels; the pixel in row [i] and column [j] is
    [10 * i + j]. *)
Definition image_6x6 : list (list Z) :=
  [[0; 1; 2; 3; 4; 5]; [10; 11; 12; 13; 14; 15];
   [20; 21; 22; 23; 24; 25]; [30; 31; 32; 33; 34; 35];
   [40; 41; 42; 43; 44; 45]; [50; 51; 52; 53; 54; 55]]%Z.

(** A distribution on a plane of 2x2 pixels, with the default variance and
    contrast scale. *)
Definition plane_2x2 : IndependentFourierGaussian :=
  init {| padded_shape := (2, 2)%Z;
          frequency_grid_in_angstroms :=
            [[(0, 0); (0, 1)]; [(1, 0); (1, 1)]]%R;
          pipeline_render :=
            fun _ _ => [[(1, 0); (2, 0)]; [(3, 0); (4, 0)]]%R |}
       None None.

(** The padded frequency grid of that plane, and two draws that differ in
    the zero mode only. *)
Definition padded_grid_2x2 (_ : AbstractPipeline) : list (list (R * R)) :=
  [[(0, 0); (0, 1)]; [(1, 0); (1, 1)]]%R.

Definition draw_2x2 (_ : unit) (_ : Z * Z) : list (list R) :=
  [[5; 6]; [7; 8]]%R.

Definition other_draw_2x2 (_ : unit) (_ : Z * Z) : list (list R) :=
  [[9; 6]; [7; 8]]%R.
End Samples.

(** * Properties *)

(** ** Slicing *)

Module PyFacts.
Import Py.
Local Open Scope Z_scope.

Lemma adjust_index_inside (n i : Z) :
  0 <= i <= n -> adjust_index n i = i.
Proof.
  intros H. unfold adjust_index.
  destruct (Z.ltb_spec i 0); lia.
Qed.

Lemma adjust_index_range (n i : Z) :
  0 <= n -> 0 <= adjust_index n i <= n.
Proof.
  intros H. unfold adjust_index.
  destruct (Z.ltb_spec i 0); lia.
Qed.

Lemma length_slice {B : Type} (l : list B) (a b : Z) :
  Z.of_nat (length (slice l a b)) = slice_len (Z.of_nat (length l)) a b.
Proof.
  unfold slice, slice_len.
  pose proof (adjust_index_range (Z.of_nat (length l)) a ltac:(lia)).
  pose proof (adjust_index_range (Z.of_nat (length l)) b ltac:(lia)).
  rewrite length_firstn, length_skipn. lia.
Qed.

Lemma slice_inside {B : Type} (l : list B) (a b : Z) :
  0 <= a <= b -> b <= Z.of_nat (length l) ->
  slice l a b = firstn (Z.to_nat (b - a)) (skipn (Z.to_nat a) l).
Proof.
  intros Ha Hb. unfold slice.
  rewrite !adjust_index_inside by lia. reflexivity.
Qed.

Lemma slice_middle {B : Type} (pre l post : list B) (a b : Z) :
  a = Z.of_nat (length pre) -> b = a + Z.of_nat (length l) ->
  slice (pre ++ l ++ post) a b = l.
Proof.
  intros -> ->. rewrite slice_inside; [ | lia | rewrite !length_app; lia ].
  rewrite Nat2Z.id.
  replace (Z.to_nat (Z.of_nat (length pre) + Z.of_nat (length l)
                     - Z.of_nat (length pre))) with (length l) by lia.
  rewrite skipn_app, skipn_all, Nat.sub_diag. simpl.
  rewrite firstn_app, firstn_all, Nat.sub_diag. simpl.
  apply app_nil_r.
Qed.

Lemma slice_whole {B : Type} (l : list B) (b : Z) :
  b = Z.of_nat (length l) -> slice l 0 b = l.
Proof.
  intros ->. pose proof (slice_middle [] l [] 0 (Z.of_nat (length l))) as H.
  simpl in H. rewrite app_nil_r in H. apply H; reflexivity.
Qed.

Lemma nth_error_slice {B : Type} (l : list B) (a b : Z) (k : nat) :
  0 <= a <= b -> b <= Z.of_nat (length l) ->
  nth_error (slice l a b) k =
    if Z.of_nat k <? b - a then nth_error l (Z.to_nat a + k) else None.
Proof.
  intros Ha Hb. rewrite slice_inside by assumption.
  rewrite nth_error_firstn, nth_error_skipn.
  destruct (Nat.ltb_spec k (Z.to_nat (b - a)));
    destruct (Z.ltb_spec (Z.of_nat k) (b - a)); try lia; reflexivity.
Qed.

Lemma In_slice {B : Type} (l : list B) (a b : Z) (x : B) :
  In x (slice l a b) -> In x l.
Proof.
  unfold slice. intros H.
  set (n := Z.to_nat (adjust_index (Z.of_nat (length l)) a)) in *.
  set (m := Z.to_nat _) in H.
  rewrite <- (firstn_skipn n l). apply in_or_app. right.
  rewrite <- (firstn_skipn m (skipn n l)). apply in_or_app. now left.
Qed.
Lemma slice_map {B D : Type} (f : B -> D) (l : list B) (a b : Z) :
  slice (map f l) a b = map f (slice l a b).
Proof.
  unfold slice. rewrite length_map, skipn_map, firstn_map. reflexivity.
Qed.

Lemma slice_repeat {B : Type} (c : B) (n : nat) (a b : Z) :
  0 <= a <= b -> b <= Z.of_nat n ->
  slice (repeat c n) a b = repeat c (Z.to_nat (b - a)).
Proof.
  intros Ha Hb. apply nth_error_ext. intros k.
  rewrite nth_error_slice by (rewrite ?repeat_length; lia).
  destruct (Z.ltb_spec (Z.of_nat k) (b - a)).
  - rewrite !nth_error_repeat by lia. reflexivity.
  - symmetry. apply nth_error_None. rewrite repeat_length. lia.
Qed.

Lemma slice_all {B : Type} (l : list B) (a b : Z) :
  a = 0 -> b = Z.of_nat (length l) -> slice l a b = l.
Proof. intros -> ->. now apply slice_whole. Qed.

Lemma length_slice_inside {B : Type} (l : list B) (a b : Z) :
  0 <= a <= b -> b <= Z.of_nat (length l) ->
  Z.of_nat (length (slice l a b)) = b - a.
Proof.
  intros Ha Hb. rewrite length_slice. unfold slice_len.
  rewrite !adjust_index_inside by lia. lia.
Qed.
End PyFacts.

(** ** Cropping and padding *)

Module EdgesFacts.
Import Py Edges PyFacts.
Local Open Scope Z_scope.

Section Padding.
Context {A : Type}.
Implicit Types (a : list (list A)) (fill : A).

Lemma length_pad1 {B : Type} (c : B) (before after : Z) (l : list B) :
  0 <= before -> 0 <= after ->
  Z.of_nat (length (pad1 c before after l)) =
    before + Z.of_nat (length l) + after.
Proof.
  intros Hb Ha. unfold pad1. rewrite !length_app, !repeat_length. lia.
Qed.

Lemma slice_pad1 {B : Type} (c : B) (before after : Z) (l : list B) (s e : Z) :
  0 <= before -> s = before -> e = before + Z.of_nat (length l) ->
  slice (pad1 c before after l) s e = l.
Proof.
  intros Hb -> ->. unfold pad1. apply slice_middle.
  - rewrite repeat_length. lia.
  - reflexivity.
Qed.

(** Padding a rectangular array widens every row alike. *)
Lemma hd_padded fill a (y0 y1 x0 x1 : Z) :
  0 <= y0 -> 0 <= y1 -> 0 <= x0 -> 0 <= x1 ->
  0 < y0 + Z.of_nat (length a) + y1 ->
  Z.of_nat (length (hd [] (map (pad1 fill x0 x1)
                              (pad1 (repeat fill (length (hd [] a))) y0 y1 a)))) =
    x0 + Z.of_nat (length (hd [] a)) + x1.
Proof.
  intros H1 H2 H3 H4 Hpos. unfold pad1 at 2.
  destruct (Z.to_nat y0) eqn:Eb.
  - simpl. destruct a as [|r a'].
    + simpl in *. destruct (Z.to_nat y1) eqn:Ea; [ lia | ].
      simpl. rewrite length_pad1 by lia. simpl. lia.
    + simpl. rewrite length_pad1 by lia. reflexivity.
  - simpl. rewrite length_pad1, repeat_length by lia. reflexivity.
Qed.
End Padding.

(** C5, as the code has it: padding an image and cropping the result back
    to the image's shape returns the image exactly, on every axis whose
    parity the padding keeps or whose size is even; in particular for a
    square image of odd size padded to a strictly larger odd size. *)
Theorem crop_pad_roundtrip (A : Type) (fill : A) (img : list (list A)) (M1 M2 : Z) :
  rectangular img ->
  fst (shape2 img) <= M1 ->
  snd (shape2 img) <= M2 ->
  (fst (shape2 img) mod 2 = 1 -> M1 mod 2 = 1) ->
  (snd (shape2 img) mod 2 = 1 -> M2 mod 2 = 1) ->
  (padded <- pad_to_shape (Image img) [M1; M2] fill ;;
   crop_to_shape padded (shape (Image img))) = Ok (Image img).
Proof.
  intros Hrect H1 H2 P1 P2.
  unfold pad_to_shape, jnp_pad, jnp_pad2, negative_width. simpl fst in *. simpl snd in *.
  set (N1 := Z.of_nat (length img)) in *.
  set (N2 := Z.of_nat (length (hd [] img))) in *.
  simpl negb. cbv iota.
  assert (Hy : 0 <= (M1 - N1) / 2 /\ 0 <= (M1 - N1) / 2 + (M1 - N1) mod 2)
    by (Z.div_mod_to_equations; lia).
  assert (Hx : 0 <= (M2 - N2) / 2 /\ 0 <= (M2 - N2) / 2 + (M2 - N2) mod 2)
    by (Z.div_mod_to_equations; lia).
  destruct Hy as [Hy1 Hy2], Hx as [Hx1 Hx2].
  replace ((M1 - N1) / 2 <? 0) with false by (symmetry; apply Z.ltb_ge; lia).
  replace ((M1 - N1) / 2 + (M1 - N1) mod 2 <? 0) with false
    by (symmetry; apply Z.ltb_ge; lia).
  replace ((M2 - N2) / 2 <? 0) with false by (symmetry; apply Z.ltb_ge; lia).
  replace ((M2 - N2) / 2 + (M2 - N2) mod 2 <? 0) with false
    by (symmetry; apply Z.ltb_ge; lia).
  simpl. unfold crop_to_shape. simpl negb. cbv iota.
  unfold shape2 at 1.
  set (px := pad1 fill ((M2 - N2) / 2) ((M2 - N2) / 2 + (M2 - N2) mod 2)).
  set (rows := pad1 (repeat fill (length (hd [] img))) ((M1 - N1) / 2)
                    ((M1 - N1) / 2 + (M1 - N1) mod 2) img).
  assert (Hrows : Z.of_nat (length (map px rows)) = M1).
  { rewrite length_map. unfold rows. rewrite length_pad1 by lia. fold N1.
    Z.div_mod_to_equations; lia. }
  rewrite Hrows. f_equal. f_equal. unfold index2.
  assert (Hsl : slice (map px rows) (M1 / 2 - N1 / 2) (M1 / 2 + N1 / 2 + N1 mod 2)
                = map px img).
  { unfold rows, pad1. rewrite !map_app. apply slice_middle.
    - rewrite length_map, repeat_length. Z.div_mod_to_equations; lia.
    - rewrite length_map. fold N1. Z.div_mod_to_equations; lia. }
  fold N1 N2. rewrite Hsl. rewrite map_map.
  destruct img as [|r0 img'] eqn:Eimg; [ reflexivity | ]. rewrite <- Eimg in *.
  assert (Hhd : Z.of_nat (length (hd [] (map px rows))) = M2).
  { unfold px, rows.
    rewrite hd_padded; try lia.
    - fold N2. Z.div_mod_to_equations; lia.
    - subst img. simpl length. lia. }
  rewrite Hhd.
  rewrite <- (map_id img) at 2. apply map_ext_in. intros r Hr.
  unfold px. apply slice_pad1; try lia.
  - Z.div_mod_to_equations; lia.
  - unfold rectangular, rect in Hrect. rewrite Forall_forall in Hrect.
    rewrite (Hrect r Hr), Eimg. fold N2. Z.div_mod_to_equations; lia.
Qed.

(** C5, as stated, fails: a 3x3 image padded to 4x4 and cropped back to
    3x3 comes back shifted by one pixel on both axes. *)
Lemma crop_pad_odd_into_even_shifts :
  (padded <- pad_to_shape (Image [[1; 2; 3]; [4; 5; 6]; [7; 8; 9]]) [4; 4] 0 ;;
   crop_to_shape padded (shape (Image [[1; 2; 3]; [4; 5; 6]; [7; 8; 9]])))
  = Ok (Image [[5; 6; 0]; [8; 9; 0]; [0; 0; 0]])
  /\ (padded <- pad_to_shape (Image [[1; 2; 3]; [4; 5; 6]; [7; 8; 9]]) [4; 4] 0 ;;
      crop_to_shape padded (shape (Image [[1; 2; 3]; [4; 5; 6]; [7; 8; 9]])))
     <> Ok (Image [[1; 2; 3]; [4; 5; 6]; [7; 8; 9]]).
Proof.
  split; [ reflexivity | vm_compute; discriminate ].
Qed.

(** A 3x3 image padded to 5x7 and cropped back. *)
Lemma crop_pad_roundtrip_witness :
  (padded <- pad_to_shape (Image [[1; 2; 3]; [4; 5; 6]; [7; 8; 9]]) [5; 7] 0 ;;
   crop_to_shape padded (shape (Image [[1; 2; 3]; [4; 5; 6]; [7; 8; 9]])))
  = Ok (Image [[1; 2; 3]; [4; 5; 6]; [7; 8; 9]]).
Proof.
  apply (crop_pad_roundtrip Z 0 [[1; 2; 3]; [4; 5; 6]; [7; 8; 9]] 5 7).
  - repeat constructor.
  - simpl; lia.
  - simpl; lia.
  - reflexivity.
  - reflexivity.
Defined.

(** *** Resizing *)

Section Resize.
Context {A : Type}.
Implicit Types (img : list (list A)) (fill : A).

Lemma nth_error_get {B : Type} (l : list B) (k : nat) :
  nth_error l k = get l (Z.of_nat k).
Proof.
  unfold get. destruct (Z.ltb_spec (Z.of_nat k) 0); [ lia | ].
  now rewrite Nat2Z.id.
Qed.

(** Two slices agree when the lists agree between the bounds. *)
Lemma slice_ext {B : Type} (l l' : list B) (a b : Z) :
  length l' = length l ->
  0 <= a <= b -> b <= Z.of_nat (length l) ->
  (forall k, a <= k < b -> get l' k = get l k) ->
  slice l' a b = slice l a b.
Proof.
  intros Hlen Ha Hb Hagree. apply nth_error_ext. intros k.
  rewrite !nth_error_slice by lia.
  destruct (Z.ltb_spec (Z.of_nat k) (b - a)); [ | reflexivity ].
  rewrite !nth_error_get. apply Hagree. lia.
Qed.

Lemma index2_ext img img' (y0 yn x0 xn : Z) :
  rectangular img -> rectangular img' -> shape2 img' = shape2 img ->
  0 <= y0 <= yn -> yn <= fst (shape2 img) ->
  0 <= x0 <= xn -> xn <= snd (shape2 img) ->
  (forall i j, y0 <= i < yn -> x0 <= j < xn -> get2 img' i j = get2 img i j) ->
  index2 img' y0 yn x0 xn = index2 img y0 yn x0 xn.
Proof.
  intros Hr Hr' Hshape Hy Hyn Hx Hxn Hagree.
  unfold shape2 in *. simpl in *.
  assert (Hlen : length img' = length img) by (injection Hshape; lia).
  assert (Hw : length (hd [] img') = length (hd [] img))
    by (injection Hshape; lia).
  unfold index2. apply nth_error_ext. intros k.
  rewrite !nth_error_map, !nth_error_slice by lia.
  destruct (Z.ltb_spec (Z.of_nat k) (yn - y0)); [ | reflexivity ].
  destruct (nth_error img (Z.to_nat y0 + k)) as [r|] eqn:Er;
    destruct (nth_error img' (Z.to_nat y0 + k)) as [r'|] eqn:Er';
    try (apply nth_error_None in Er; lia);
    try (apply nth_error_None in Er'; lia).
  simpl. f_equal.
  pose proof (nth_error_In _ _ Er) as Hin.
  pose proof (nth_error_In _ _ Er') as Hin'.
  unfold rectangular, rect in Hr, Hr'. rewrite Forall_forall in Hr, Hr'.
  apply slice_ext.
  - rewrite (Hr _ Hin), (Hr' _ Hin'). exact Hw.
  - lia.
  - rewrite (Hr _ Hin). lia.
  - intros j Hj.
    specialize (Hagree (y0 + Z.of_nat k) j ltac:(lia) Hj).
    unfold get2 in Hagree.
    rewrite <- !nth_error_get in Hagree || idtac.
    replace (y0 + Z.of_nat k) with (Z.of_nat (Z.to_nat y0 + k)) in Hagree by lia.
    rewrite <- !nth_error_get, Er, Er' in Hagree. exact Hagree.
Qed.
Lemma pad1_nothing {B : Type} (c : B) (l : list B) : pad1 c 0 0 l = l.
Proof. unfold pad1. simpl. apply app_nil_r. Qed.

Lemma crop_image img (h w : Z) :
  crop_to_shape (Image img) [h; w] =
    Ok (Image (index2 img
                 (fst (shape2 img) / 2 - h / 2) (fst (shape2 img) / 2 + h / 2 + h mod 2)
                 (snd (shape2 img) / 2 - w / 2) (snd (shape2 img) / 2 + w / 2 + w mod 2))).
Proof. reflexivity. Qed.

Lemma pad_image img (s0 s1 : Z) fill :
  fst (shape2 img) <= s0 -> snd (shape2 img) <= s1 ->
  pad_to_shape (Image img) [s0; s1] fill =
    Ok (Image (map (pad1 fill ((s1 - snd (shape2 img)) / 2)
                         ((s1 - snd (shape2 img)) / 2 + (s1 - snd (shape2 img)) mod 2))
                   (pad1 (repeat fill (length (hd [] img)))
                         ((s0 - fst (shape2 img)) / 2)
                         ((s0 - fst (shape2 img)) / 2 + (s0 - fst (shape2 img)) mod 2)
                         img))).
Proof.
  intros H0 H1. unfold pad_to_shape, jnp_pad, jnp_pad2, negative_width.
  simpl negb. cbv iota. simpl fst. simpl snd.
  set (N1 := Z.of_nat (length img)) in *.
  set (N2 := Z.of_nat (length (hd [] img))) in *.
  simpl in H0, H1. fold N1 in H0. fold N2 in H1.
  replace ((s0 - N1) / 2 <? 0) with false
    by (symmetry; apply Z.ltb_ge; Z.div_mod_to_equations; lia).
  replace ((s0 - N1) / 2 + (s0 - N1) mod 2 <? 0) with false
    by (symmetry; apply Z.ltb_ge; Z.div_mod_to_equations; lia).
  replace ((s1 - N2) / 2 <? 0) with false
    by (symmetry; apply Z.ltb_ge; Z.div_mod_to_equations; lia).
  replace ((s1 - N2) / 2 + (s1 - N2) mod 2 <? 0) with false
    by (symmetry; apply Z.ltb_ge; Z.div_mod_to_equations; lia).
  reflexivity.
Qed.

Lemma map_pad1_nothing fill (a : list (list A)) :
  map (pad1 fill 0 0) a = a.
Proof.
  rewrite <- (map_id a) at 2. apply map_ext. intros r. apply pad1_nothing.
Qed.

(** Cropping one axis and padding the other can be done in either order. *)
Lemma crop_then_pad_is_pad_then_crop img (M1 M2 : Z) fill :
  rectangular img -> 0 <= M1 -> 0 <= M2 ->
  (fst (shape2 img) < M1 /\ M2 < snd (shape2 img))
  \/ (M1 < fst (shape2 img) /\ snd (shape2 img) < M2) ->
  (cropped <- crop_to_shape (Image img)
                [Z.min (fst (shape2 img)) M1; Z.min (snd (shape2 img)) M2] ;;
   pad_to_shape cropped [M1; M2] fill)
  = (padded <- pad_to_shape (Image img)
                 [Z.max (fst (shape2 img)) M1; Z.max (snd (shape2 img)) M2] fill ;;
     crop_to_shape padded [M1; M2]).
Proof.
  intros Hrect HM1 HM2 Hmixed.
  assert (Hrows : forall r, In r img -> Z.of_nat (length r) = snd (shape2 img)).
  { unfold rectangular, rect in Hrect. rewrite Forall_forall in Hrect.
    intros r Hr. simpl. now rewrite (Hrect r Hr). }
  destruct img as [|r0 img'] eqn:Eimg; [ simpl in Hmixed; lia | ].
  rewrite <- Eimg in *.
  assert (Hhd : hd [] img = r0) by (now rewrite Eimg).
  set (N1 := fst (shape2 img)) in *. set (N2 := snd (shape2 img)) in *.
  assert (HN1 : N1 = Z.of_nat (length img)) by reflexivity.
  assert (HN2 : N2 = Z.of_nat (length r0)) by (unfold N2; simpl; now rewrite Hhd).
  assert (HN1pos : 0 < N1) by (rewrite HN1, Eimg; simpl length; lia).
  rewrite crop_image. fold N1 N2. simpl bind.
  destruct Hmixed as [[H1 H2] | [H1 H2]].
  - (* rows grow, columns shrink *)
    rewrite Z.min_l, Z.min_r, Z.max_r, Z.max_l by lia.
    set (x0 := N2 / 2 - M2 / 2). set (xn := N2 / 2 + M2 / 2 + M2 mod 2).
    assert (Hx : 0 <= x0 <= xn /\ xn <= N2 /\ xn - x0 = M2)
      by (unfold x0, xn; Z.div_mod_to_equations; lia).
    unfold index2 at 1.
    rewrite (slice_all img) by (rewrite <- ?HN1; Z.div_mod_to_equations; lia).
    set (c := map (fun r => slice r x0 xn) img).
    assert (Hc1 : fst (shape2 c) = N1) by (unfold c; simpl; now rewrite length_map).
    assert (Hc2 : snd (shape2 c) = M2).
    { unfold c. rewrite Eimg. simpl. rewrite length_slice_inside; lia. }
    rewrite pad_image by lia. rewrite pad_image by (fold N1 N2; lia).
    fold N1 N2. simpl bind. rewrite crop_image.
    rewrite Hc1, Hc2. f_equal. f_equal.
    replace (M2 - M2) with 0 by lia. replace (N2 - N2) with 0 by lia.
    change (0 / 2) with 0. change (0 / 2 + 0 mod 2) with 0.
    rewrite !map_pad1_nothing.
    set (y1 := (M1 - N1) / 2 + (M1 - N1) mod 2). set (y0 := (M1 - N1) / 2).
    assert (Hy : 0 <= y0 /\ 0 <= y1 /\ y0 + N1 + y1 = M1)
      by (unfold y0, y1; Z.div_mod_to_equations; lia).
    set (p := pad1 (repeat fill (length (hd [] img))) y0 y1 img).
    assert (Hp1 : fst (shape2 p) = M1).
    { unfold p. simpl. rewrite length_pad1 by lia. lia. }
    assert (Hp2 : snd (shape2 p) = N2).
    { unfold p, pad1. simpl. rewrite Hhd.
      destruct (Z.to_nat y0); simpl.
      - rewrite Eimg. simpl. lia.
      - rewrite repeat_length. lia. }
    rewrite Hp1, Hp2. unfold index2.
    rewrite (slice_all p) by (rewrite <- ?Hp1; simpl; Z.div_mod_to_equations; lia).
    fold x0 xn. unfold p, pad1. rewrite !map_app, !map_repeat. fold c.
    replace (length (hd [] c)) with (Z.to_nat M2) by (simpl in Hc2; lia).
    rewrite slice_repeat by (rewrite ?Hhd; lia).
    replace (Z.to_nat (xn - x0)) with (Z.to_nat M2) by lia.
    reflexivity.
  - (* rows shrink, columns grow *)
    rewrite Z.min_r, Z.min_l, Z.max_l, Z.max_r by lia.
    set (y0 := N1 / 2 - M1 / 2). set (yn := N1 / 2 + M1 / 2 + M1 mod 2).
    assert (Hy : 0 <= y0 <= yn /\ yn <= N1 /\ yn - y0 = M1)
      by (unfold y0, yn; Z.div_mod_to_equations; lia).
    assert (Hc : index2 img y0 yn (N2 / 2 - N2 / 2) (N2 / 2 + N2 / 2 + N2 mod 2)
                 = slice img y0 yn).
    { unfold index2. rewrite <- (map_id (slice img y0 yn)) at 2.
      apply map_ext_in. intros r Hr. apply slice_all.
      - lia.
      - rewrite (Hrows r (In_slice _ _ _ _ Hr)). Z.div_mod_to_equations; lia. }
    rewrite Hc. set (c := slice img y0 yn).
    rewrite (pad_image img) by (fold N1 N2; lia). fold N1 N2. simpl bind.
    replace (N1 - N1) with 0 by lia.
    change (0 / 2) with 0. change (0 / 2 + 0 mod 2) with 0.
    rewrite pad1_nothing.
    set (px := pad1 fill ((M2 - N2) / 2) ((M2 - N2) / 2 + (M2 - N2) mod 2)).
    assert (Hpx : forall r, In r img -> Z.of_nat (length (px r)) = M2).
    { intros r Hr. unfold px. rewrite length_pad1, (Hrows r Hr);
        Z.div_mod_to_equations; lia. }
    rewrite crop_image.
    assert (Hp1 : fst (shape2 (map px img)) = N1)
      by (simpl; now rewrite length_map).
    assert (Hp2 : snd (shape2 (map px img)) = M2).
    { rewrite Eimg. simpl. apply Hpx. rewrite Eimg. now left. }
    rewrite Hp1, Hp2. fold y0 yn.
    assert (Hrhs : index2 (map px img) y0 yn (M2 / 2 - M2 / 2)
                          (M2 / 2 + M2 / 2 + M2 mod 2) = map px c).
    { unfold index2. rewrite slice_map. fold c. rewrite map_map.
      apply map_ext_in. intros r Hr. apply slice_all.
      - lia.
      - rewrite (Hpx r (In_slice _ _ _ _ Hr)). Z.div_mod_to_equations; lia. }
    rewrite Hrhs.
    assert (Hc1 : fst (shape2 c) = M1).
    { unfold c. simpl. rewrite length_slice_inside; lia. }
    destruct c as [|c0 c'] eqn:Ec.
    + (* nothing is left of the rows *)
      unfold pad_to_shape, jnp_pad, jnp_pad2, negative_width. simpl in Hc1.
      simpl negb. cbv iota. simpl fst. simpl snd. simpl length. simpl Z.of_nat.
      rewrite <- Hc1. simpl.
      replace (((M2 - 0) / 2 <? 0) || ((M2 - 0) / 2 + (M2 - 0) mod 2 <? 0)) with false.
      * reflexivity.
      * symmetry. apply orb_false_iff. split; apply Z.ltb_ge;
          Z.div_mod_to_equations; lia.
    + rewrite <- Ec in *.
      assert (Hc2 : snd (shape2 c) = N2).
      { rewrite Ec. simpl. apply Hrows. apply (In_slice img y0 yn).
        fold c. rewrite Ec. now left. }
      rewrite pad_image by lia. rewrite Hc1, Hc2.
      replace (M1 - M1) with 0 by lia.
      change (0 / 2) with 0. change (0 / 2 + 0 mod 2) with 0.
      rewrite pad1_nothing. reflexivity.
Qed.
End Resize.

(** C4: on a mixed request the shrinking axis is cropped first and the
    growing axis padded afterwards; the result depends on the image only
    through the pixels inside the crop window (two images that agree there
    resize to the same array); and it is the array that padding first and
    cropping afterwards gives, so it holds no pixel that a crop after the
    pad would have removed. *)
Theorem resize_mixed_crops_before_padding
  (A : Type) (fill : A) (img : list (list A)) (M1 M2 : Z) :
  rectangular img ->
  0 <= M1 -> 0 <= M2 ->
  (fst (shape2 img) < M1 /\ M2 < snd (shape2 img))
  \/ (M1 < fst (shape2 img) /\ snd (shape2 img) < M2) ->
  resize_with_crop_or_pad (Image img) [M1; M2] fill =
    (cropped <- crop_to_shape (Image img)
                  [Z.min (fst (shape2 img)) M1; Z.min (snd (shape2 img)) M2] ;;
     pad_to_shape cropped [M1; M2] fill)
  /\ (forall img' : list (list A),
      rectangular img' -> shape2 img' = shape2 img ->
      (forall i j,
          in_crop_window (fst (shape2 img)) (Z.min (fst (shape2 img)) M1) i ->
          in_crop_window (snd (shape2 img)) (Z.min (snd (shape2 img)) M2) j ->
          get2 img' i j = get2 img i j) ->
      resize_with_crop_or_pad (Image img') [M1; M2] fill =
        resize_with_crop_or_pad (Image img) [M1; M2] fill)
  /\ resize_with_crop_or_pad (Image img) [M1; M2] fill =
       (padded <- pad_to_shape (Image img)
                    [Z.max (fst (shape2 img)) M1; Z.max (snd (shape2 img)) M2] fill ;;
        crop_to_shape padded [M1; M2]).
Proof.
  intros Hrect HM1 HM2 Hmixed.
  assert (Horder : forall im : list (list A),
             shape2 im = shape2 img ->
             resize_with_crop_or_pad (Image im) [M1; M2] fill =
               (cropped <- crop_to_shape (Image im)
                             [Z.min (fst (shape2 img)) M1;
                              Z.min (snd (shape2 img)) M2] ;;
                pad_to_shape cropped [M1; M2] fill)).
  { intros im Him. unfold resize_with_crop_or_pad. rewrite Him.
    destruct (shape2 img) as [N1 N2]. simpl fst in *. simpl snd in *.
    destruct Hmixed as [[H1 H2] | [H1 H2]].
    - replace (M1 <=? N1) with false by (symmetry; apply Z.leb_gt; lia).
      replace (N1 <=? M1) with true by (symmetry; apply Z.leb_le; lia).
      replace (N2 <=? M2) with false by (symmetry; apply Z.leb_gt; lia).
      replace (M2 <=? N2) with true by (symmetry; apply Z.leb_le; lia).
      simpl. now rewrite Z.min_l, Z.min_r by lia.
    - replace (M1 <=? N1) with true by (symmetry; apply Z.leb_le; lia).
      replace (N1 <=? M1) with false by (symmetry; apply Z.leb_gt; lia).
      replace (M2 <=? N2) with false by (symmetry; apply Z.leb_gt; lia).
      simpl. now rewrite Z.min_r, Z.min_l by lia. }
  split; [ apply Horder; reflexivity | ].
  split;
    [ | rewrite (Horder img eq_refl);
        now apply crop_then_pad_is_pad_then_crop ].
  intros img' Hrect' Hshape Hagree.
  rewrite (Horder img' Hshape), (Horder img eq_refl).
  f_equal. unfold crop_to_shape. simpl negb. cbv iota.
  rewrite Hshape. destruct (shape2 img) as [N1 N2] eqn:Es.
  assert (Hpos : 0 <= N1 /\ 0 <= N2)
    by (unfold shape2 in Es; injection Es; lia).
  simpl fst in *. simpl snd in *. f_equal. f_equal.
  unfold in_crop_window in Hagree.
  apply index2_ext; try assumption; rewrite ?Es; simpl fst; simpl snd;
    try assumption; Z.div_mod_to_equations; lia.
Qed.

(** A 2x4 image resized to 4x2: the window is the two middle columns. *)
Lemma resize_mixed_witness :
  resize_with_crop_or_pad (Image [[1; 2; 3; 4]; [5; 6; 7; 8]]) [4; 2] 0 =
    (cropped <- crop_to_shape (Image [[1; 2; 3; 4]; [5; 6; 7; 8]])
                  [Z.min 2 4; Z.min 4 2] ;;
     pad_to_shape cropped [4; 2] 0)
  /\ resize_with_crop_or_pad (Image [[0; 2; 3; 0]; [9; 6; 7; 9]]) [4; 2] 0 =
       resize_with_crop_or_pad (Image [[1; 2; 3; 4]; [5; 6; 7; 8]]) [4; 2] 0.
Proof.
  destruct (resize_mixed_crops_before_padding
              Z 0 [[1; 2; 3; 4]; [5; 6; 7; 8]] 4 2) as [Horder [Hsame _]].
  - repeat constructor.
  - lia.
  - lia.
  - left. simpl. lia.
  - split; [ exact Horder | ].
    apply Hsame.
    + repeat constructor.
    + reflexivity.
    + unfold in_crop_window. simpl. intros i j Hi Hj.
      assert (Hcases : (i = 0 \/ i = 1) /\ (j = 1 \/ j = 2)) by lia.
      destruct Hcases as [[-> | ->] [-> | ->]]; reflexivity.
Defined.

(** *** Cropping around a given centre *)

Lemma shape_eqb_eq (s t : Z * Z) : shape_eqb s t = true <-> s = t.
Proof.
  destruct s as [s1 s2], t as [t1 t2]. unfold shape_eqb. simpl.
  rewrite andb_true_iff, !Z.eqb_eq. split.
  - intros [-> ->]. reflexivity.
  - intros H. injection H. auto.
Qed.

(** The array [image[y0:yn, x0:xn]] has the shape [cropped_shape] computes. *)
Lemma index2_shape {A : Type} (image : list (list A)) (y0 yn x0 xn : Z) :
  rectangular image ->
  Z.of_nat (length (index2 image y0 yn x0 xn)) =
    fst (cropped_shape image (y0, yn, x0, xn))
  /\ Forall (fun r => Z.of_nat (length r) =
                      snd (cropped_shape image (y0, yn, x0, xn)))
            (index2 image y0 yn x0 xn).
Proof.
  intros Hrect. unfold index2, cropped_shape, shape2. simpl. split.
  - rewrite length_map. apply length_slice.
  - rewrite Forall_forall. intros r Hr. apply in_map_iff in Hr.
    destruct Hr as [r0 [<- Hin]]. rewrite length_slice. f_equal.
    unfold rectangular, rect in Hrect. rewrite Forall_forall in Hrect.
    f_equal. apply Hrect. apply (In_slice _ _ _ _ Hin).
Qed.

(** C8, the code at two inputs.  A crop of 2x4 around the centre [(3, 3)]
    of a 6x6 image lies inside the image, and [crop_to_shape], whose centre
    is the same, returns it.  [crop_to_shape_with_center] takes the upper
    bound of the columns from [yc] and [h] and that of the rows from [xc]
    and [w]: it returns a block of 3x3 and warns.  And an upper bound is
    clamped from above only: around the centre [(-3, -3)], outside a 3x3
    image, both upper bounds are -2, which the slice counts from the end,
    so the crop of 1x1 is the first pixel of the image, without a
    warning. *)
Theorem crop_to_shape_with_center_swaps_upper_bounds :
  crop_to_shape_with_center (Image Samples.image_6x6) [2; 4] (3, 3)
    = Ok ([[21; 22; 23]; [31; 32; 33]; [41; 42; 43]], [UserWarning])
  /\ crop_to_shape (Image Samples.image_6x6) [2; 4]
     = Ok (Image [[21; 22; 23; 24]; [31; 32; 33; 34]])
  /\ center_bounds Samples.image_6x6 2 4 3 3 = (2, 5, 1, 4)
  /\ center_bounds Samples.image_3x3 1 1 (-3) (-3) = (0, -2, 0, -2)
  /\ crop_to_shape_with_center (Image Samples.image_3x3) [1; 1] (-3, -3)
     = Ok ([[1]], []).
Proof.
  split; [ reflexivity | ].
  split; [ reflexivity | ].
  split; [ reflexivity | ].
  split; reflexivity.
Qed.

End EdgesFacts.

(** ** Masks *)

Module MasksFacts.
Import Scalar Masks.
Local Open Scope R_scope.

Lemma Rleb_true (x y : R) : x <= y -> Rleb x y = true.
Proof. intros H. unfold Rleb. destruct (Rle_dec x y); [ reflexivity | lra ]. Qed.

Lemma Rleb_false (x y : R) : y < x -> Rleb x y = false.
Proof. intros H. unfold Rleb. destruct (Rle_dec x y); [ lra | reflexivity ]. Qed.

Lemma Rltb_true (x y : R) : x < y -> Rltb x y = true.
Proof. intros H. unfold Rltb. destruct (Rlt_dec x y); [ reflexivity | lra ]. Qed.

Lemma Rltb_false (x y : R) : y <= x -> Rltb x y = false.
Proof. intros H. unfold Rltb. destruct (Rlt_dec x y); [ lra | reflexivity ]. Qed.

Lemma norm_on_axis (x : R) : 0 <= x -> norm [x; 0] = x.
Proof.
  intros H. unfold norm, sum. simpl.
  replace (x * x + (0 * 0 + 0)) with (x * x) by ring.
  now apply sqrt_square.
Qed.

Lemma vmap2_vmap2 {X Y W : Type} (f : Y -> W) (g : X -> Y) (a : grid2 X) :
  vmap2 _ _ f (vmap2 _ _ g a) = vmap2 _ _ (fun x => f (g x)) a.
Proof.
  unfold vmap2. rewrite map_map. apply map_ext. intros row. apply map_map.
Qed.

Lemma vmap2_ext {X Y : Type} (f g : X -> Y) (a : grid2 X) :
  (forall x, f x = g x) -> vmap2 _ _ f a = vmap2 _ _ g a.
Proof.
  intros H. unfold vmap2. apply map_ext. intros row. now apply map_ext.
Qed.

(** What the code computes on an image grid: at the point with coordinate
    vector [v] it stores a whole array of the grid's shape, constant where
    the point is inside the radius or beyond the rolloff band, and
    otherwise the taper of {e every} grid point's radial distance. *)
Lemma circular_mask_at_each_point (g : grid2 (list R)) (radius rolloff_width : R) :
  compute_circular_or_spherical grid2 vmap2 g radius rolloff_width =
    vmap2 _ _
      (fun v =>
         if Rleb (norm v) radius then vmap2 _ _ (fun _ => 1) g
         else if Rgtb (norm v) (radius + rolloff_width)
              then vmap2 _ _ (fun _ => 0) g
              else vmap2 _ _ (fun u => cosine_taper radius rolloff_width (norm u)) g)
      g.
Proof.
  unfold compute_circular_or_spherical, where_scalar, cosine_taper.
  rewrite vmap2_vmap2. apply vmap2_ext. intros v.
  destruct (Rleb (norm v) radius);
    destruct (Rgtb (norm v) (radius + rolloff_width));
    rewrite !vmap2_vmap2; reflexivity.
Qed.

(** C6, the code at a 1x2 grid with the points [(0, 0)] and [(3/2, 0)],
    radius 1 and rolloff width 1: the second point lies in the rolloff
    band, where the taper is 1/2, and the code stores the array
    [[0, 1/2]] there, the tapers of both grid points. *)
Theorem circular_mask_stores_a_grid_per_point :
  _compute_circular_or_spherical_mask (ImageGrid [[[0; 0]; [3 / 2; 0]]]) 1 1 =
    ImageBuffer [[ [[1; 1]]; [[0; 1 / 2]] ]]
  /\ cosine_taper 1 1 (3 / 2) = 1 / 2.
Proof.
  assert (Hc1 : cos (PI * (0 - 1) / 1) = -1).
  { replace (PI * (0 - 1) / 1) with (- PI) by field.
    rewrite cos_neg. apply cos_PI. }
  assert (Hc2 : cos (PI * (3 / 2 - 1) / 1) = 0).
  { replace (PI * (3 / 2 - 1) / 1) with (PI / 2) by field. apply cos_PI2. }
  split.
  - unfold _compute_circular_or_spherical_mask.
    rewrite circular_mask_at_each_point. unfold vmap2, cosine_taper. simpl.
    rewrite !norm_on_axis by lra.
    rewrite (Rleb_true 0 1), (Rleb_false (3 / 2) 1) by lra.
    unfold Rgtb. rewrite (Rltb_false (1 + 1) (3 / 2)) by lra.
    rewrite Hc1, Hc2.
    replace (0.5 * (1 + -1)) with 0 by lra.
    replace (0.5 * (1 + 0)) with (1 / 2) by lra.
    reflexivity.
  - unfold cosine_taper. rewrite Hc2. lra.
Qed.

Section Square.
Variables s w : R.

Lemma square_core (x y : R) :
  Rabs x <= s / 2 -> Rabs y <= s / 2 ->
  square_mask_at_coordinate s w (x, y) = 1.
Proof.
  intros Hx Hy. unfold square_mask_at_coordinate, is_in_square_fn.
  now rewrite !Rleb_true by assumption.
Qed.

Lemma square_outside (x y : R) :
  0 <= w -> ~ (Rabs x <= s / 2 + w /\ Rabs y <= s / 2 + w) ->
  square_mask_at_coordinate s w (x, y) = 0.
Proof.
  intros Hw Hout. unfold square_mask_at_coordinate, is_in_square_fn.
  replace ((s + 2 * w) / 2) with (s / 2 + w) by field.
  destruct (Rle_dec (Rabs x) (s / 2 + w)) as [Hx | Hx].
  - assert (Hy : s / 2 + w < Rabs y) by lra.
    rewrite (Rleb_false (Rabs y) (s / 2)), (Rleb_false (Rabs y) (s / 2 + w)) by lra.
    now rewrite !andb_false_r.
  - rewrite (Rleb_false (Rabs x) (s / 2)), (Rleb_false (Rabs x) (s / 2 + w)) by lra.
    reflexivity.
Qed.

Lemma square_both_bands (x y : R) :
  s / 2 < Rabs x < s / 2 + w -> s / 2 < Rabs y < s / 2 + w ->
  square_mask_at_coordinate s w (x, y) =
    compute_edge_fn x s w * compute_edge_fn y s w.
Proof.
  intros Hx Hy.
  unfold square_mask_at_coordinate, is_in_square_fn, is_in_edge_fn, Rgtb.
  replace ((s + 2 * w) / 2) with (s / 2 + w) by field.
  rewrite (Rleb_false (Rabs x) (s / 2)) by lra.
  rewrite (Rleb_true (Rabs x) (s / 2 + w)), (Rleb_true (Rabs y) (s / 2 + w)) by lra.
  rewrite (Rltb_true (s / 2) (Rabs x)), (Rltb_true (Rabs x) (s / 2 + w)) by lra.
  rewrite (Rltb_true (s / 2) (Rabs y)), (Rltb_true (Rabs y) (s / 2 + w)) by lra.
  reflexivity.
Qed.
End Square.

(** C7, the code at the grid point [(-2, -2)] with side length 2 and
    rolloff width 3.  The point lies in the soft band of both axes, at the
    distance 2 from each axis, where the cosine taper of an axis is 3/4 and
    the product of the two 9/16.  The code tests the band on the absolute
    value of a coordinate and evaluates the taper at the coordinate itself:
    it stores 0 there, and 9/16 at the mirror image [(2, 2)]. *)
Theorem square_mask_taper_misses_abs :
  _compute_square_mask [[(-2, -2); (2, 2)]] 2 3 = [[0; 9 / 16]]
  /\ 2 / 2 < Rabs (-2) < 2 / 2 + 3
  /\ cosine_taper (2 / 2) 3 (Rabs (-2)) * cosine_taper (2 / 2) 3 (Rabs (-2))
     = 9 / 16.
Proof.
  assert (Hp : cos (PI * (2 - 2 / 2) / 3) = 1 / 2).
  { replace (PI * (2 - 2 / 2) / 3) with (PI / 3) by field. apply cos_PI3. }
  assert (Hn : cos (PI * (-2 - 2 / 2) / 3) = -1).
  { replace (PI * (-2 - 2 / 2) / 3) with (- PI) by field.
    rewrite cos_neg. apply cos_PI. }
  assert (Habs : Rabs (-2) = 2) by (rewrite Rabs_left; lra).
  split; [ | split ].
  - unfold _compute_square_mask, vmap2. cbn [map].
    rewrite (square_both_bands 2 3 (-2) (-2)) by (rewrite Habs; lra).
    rewrite (square_both_bands 2 3 2 2) by (rewrite Rabs_pos_eq; lra).
    unfold compute_edge_fn. rewrite Hp, Hn.
    replace (0.5 * (1 + -1) * (0.5 * (1 + -1))) with 0 by lra.
    replace (0.5 * (1 + 1 / 2) * (0.5 * (1 + 1 / 2))) with (9 / 16) by lra.
    reflexivity.
  - rewrite Habs. lra.
  - rewrite Habs. unfold cosine_taper. rewrite Hp. lra.
Qed.
End MasksFacts.

(** ** Projection with a non-uniform FFT *)

Module NufftFacts.
Import Py Scalar Nufft PyFacts.
Local Open Scope Z_scope.

Section Updates.
Context {X : Type}.
Implicit Types (l : list X) (f : X -> X).

Lemma length_update_nth (n : nat) f l :
  length (update_nth n f l) = length l.
Proof.
  revert n. induction l as [|x l IH]; intros [|n]; simpl; auto.
Qed.

Lemma nth_error_update_nth (n : nat) f l :
  nth_error (update_nth n f l) n = option_map f (nth_error l n).
Proof.
  revert n. induction l as [|x l IH]; intros [|n]; simpl; auto.
Qed.

Lemma Forall_update_nth (P : X -> Prop) (n : nat) f l :
  (forall x, P x -> P (f x)) -> Forall P l -> Forall P (update_nth n f l).
Proof.
  intros Hf. revert n. induction l as [|x l IH]; intros [|n] H; simpl;
    inversion H; subst; auto.
Qed.

Lemma update_nth_last (front : list X) (x : X) f :
  update_nth (length front) f (front ++ [x]) = front ++ [f x].
Proof.
  induction front as [|y front IH]; simpl; [ reflexivity | now rewrite IH ].
Qed.

Lemma length_at_update l (i : Z) f : length (at_update l i f) = length l.
Proof.
  unfold at_update. destruct (_ && _); [ apply length_update_nth | reflexivity ].
Qed.

Lemma Forall_at_update (P : X -> Prop) l (i : Z) f :
  (forall x, P x -> P (f x)) -> Forall P l -> Forall P (at_update l i f).
Proof.
  intros Hf H. unfold at_update.
  destruct (_ && _); [ now apply Forall_update_nth | assumption ].
Qed.

(** [l.at[-1].set(v)] on a non-empty axis overwrites the last item. *)
Lemma at_update_last l (v : X) :
  l <> [] -> exists front, at_update l (-1) (fun _ => v) = front ++ [v].
Proof.
  intros Hne. destruct (exists_last Hne) as (front & x & ->).
  exists front. unfold at_update. rewrite length_app. simpl length.
  replace (-1 <? 0) with true by reflexivity.
  replace ((0 <=? -1 + Z.of_nat (length front + 1))
           && (-1 + Z.of_nat (length front + 1) <? Z.of_nat (length front + 1)))
    with true by (symmetry; apply andb_true_iff; split;
                  [ apply Z.leb_le | apply Z.ltb_lt ]; lia).
  replace (Z.to_nat (-1 + Z.of_nat (length front + 1))) with (length front) by lia.
  apply update_nth_last.
Qed.

(** [l.at[i].set(...)] inside the axis. *)
Lemma nth_error_at_update l (i : Z) f :
  0 <= i < Z.of_nat (length l) ->
  nth_error (at_update l i f) (Z.to_nat i) =
    option_map f (nth_error l (Z.to_nat i)).
Proof.
  intros Hi. unfold at_update.
  replace (i <? 0) with false by (symmetry; apply Z.ltb_ge; lia).
  replace ((0 <=? i) && (i <? Z.of_nat (length l))) with true
    by (symmetry; apply andb_true_iff; split;
        [ apply Z.leb_le | apply Z.ltb_lt ]; lia).
  apply nth_error_update_nth.
Qed.

Lemma nth_error_update_nth_cases (n k : nat) f l :
  nth_error (update_nth n f l) k = nth_error l k
  \/ nth_error (update_nth n f l) k = option_map f (nth_error l k).
Proof.
  revert n k. induction l as [|x l IH]; intros [|n] [|k]; simpl; auto.
Qed.

Lemma nth_error_at_update_cases l (i : Z) f (k : nat) :
  nth_error (at_update l i f) k = nth_error l k
  \/ nth_error (at_update l i f) k = option_map f (nth_error l k).
Proof.
  unfold at_update.
  destruct (_ && _); [ apply nth_error_update_nth_cases | now left ].
Qed.

Lemma length_roll_left (k : nat) l : length (roll_left k l) = length l.
Proof.
  unfold roll_left. rewrite length_app, Nat.add_comm, <- length_app.
  now rewrite firstn_skipn.
Qed.

Lemma In_roll_left (k : nat) l (x : X) : In x (roll_left k l) -> In x l.
Proof.
  unfold roll_left. intros H. rewrite <- (firstn_skipn k l).
  apply in_app_or in H. apply in_or_app. tauto.
Qed.
End Updates.

Lemma has_shape_ifftshift {X : Type} (n m : Z) (a : list (list X)) :
  has_shape n m a -> has_shape n m (ifftshift a).
Proof.
  intros [Hn Hm]. unfold ifftshift, ifftshift1 at 1. split.
  - now rewrite length_roll_left, length_map.
  - rewrite Forall_forall in *. intros r Hr.
    apply In_roll_left, in_map_iff in Hr. destruct Hr as (r0 & <- & Hr0).
    unfold ifftshift1. rewrite length_roll_left. now apply Hm.
Qed.

Lemma length_slice_to {X : Type} (l : list X) (k : Z) :
  0 <= k <= Z.of_nat (length l) -> Z.of_nat (length (slice_to l k)) = k.
Proof.
  intros Hk. unfold slice_to. rewrite length_slice. unfold slice_len.
  rewrite !adjust_index_inside by lia. lia.
Qed.

Lemma has_shape_direct_nufft1 : returns_shape direct_nufft1.
Proof.
  intros M1 M2 c x y eps iflag H1 H2. unfold direct_nufft1. split.
  - rewrite length_map, length_seq. lia.
  - rewrite Forall_forall. intros r Hr. apply in_map_iff in Hr.
    destruct Hr as (i & <- & _). rewrite length_map, length_seq. lia.
Qed.

Section Project.
Variable nufft1 :
  Z * Z -> list C -> list R -> list R -> R -> Z -> list (list C).
Hypothesis nufft1_shape : returns_shape nufft1.

Variables (weights : list R) (coordinate_list : CloudCoords) (eps : R).
Variables M1 M2 : Z.
Hypothesis M1_pos : 0 < M1.
Hypothesis M2_pos : 0 < M2.

Let out := project_with_nufft nufft1 weights coordinate_list (M1, M2) eps.

(** The half spectrum before the Nyquist bins are zeroed. *)
Lemma has_shape_half (full : list (list C)) :
  has_shape M1 M2 full ->
  has_shape M1 (M2 / 2 + 1)
    (map (fun r => slice_to r (M2 / 2 + 1)) (ifftshift full)).
Proof.
  intros H. apply has_shape_ifftshift in H. destruct H as [Hn Hm]. split.
  - now rewrite length_map.
  - rewrite Forall_forall in *. intros r Hr. apply in_map_iff in Hr.
    destruct Hr as (r0 & <- & Hr0). apply length_slice_to.
    rewrite (Hm r0 Hr0). Z.div_mod_to_equations; lia.
Qed.

Lemma has_shape_at_col_set (n m : Z) (a : list (list C)) (j : Z) (v : C) :
  has_shape n m a -> has_shape n m (at_col_set a j v).
Proof.
  intros [Hn Hm]. unfold at_col_set. split.
  - now rewrite length_map.
  - rewrite Forall_forall in *. intros r Hr. apply in_map_iff in Hr.
    destruct Hr as (r0 & <- & Hr0). rewrite length_at_update. now apply Hm.
Qed.

Lemma has_shape_at_row_set (n m : Z) (a : list (list C)) (i : Z) (v : C) :
  has_shape n m a -> has_shape n m (at_row_set a i v).
Proof.
  intros [Hn Hm]. unfold at_row_set. split.
  - now rewrite length_at_update.
  - apply Forall_at_update; [ | assumption ].
    intros r Hr. now rewrite length_map.
Qed.

Lemma ends_with_zero_at_col_set (m : Z) (a : list (list C)) :
  0 < m -> Forall (fun r => Z.of_nat (length r) = m) a ->
  Forall ends_with_zero (at_col_set a (-1) C0).
Proof.
  intros Hm Ha. unfold at_col_set. rewrite Forall_forall in *.
  intros r Hr. apply in_map_iff in Hr. destruct Hr as (r0 & <- & Hr0).
  apply at_update_last. intros ->. specialize (Ha _ Hr0). simpl in Ha. lia.
Qed.

Lemma ends_with_zero_at_row_set (a : list (list C)) (i : Z) :
  Forall ends_with_zero a -> Forall ends_with_zero (at_row_set a i C0).
Proof.
  unfold at_row_set. apply Forall_at_update.
  intros r (front & ->). exists (map (fun _ => C0) front).
  now rewrite map_app.
Qed.

Lemma map_const_repeat {X Y : Type} (y : Y) (l : list X) :
  map (fun _ => y) l = repeat y (length l).
Proof. induction l; simpl; congruence. Qed.

(** Zeroing a column or a row leaves every other item as it was. *)
Lemma entry_at_col_set (a : list (list C)) (j : Z) (i k : nat) (z : C) :
  entry (at_col_set a j C0) i k = Some z -> z = C0 \/ entry a i k = Some z.
Proof.
  unfold entry, at_col_set. rewrite nth_error_map.
  destruct (nth_error a i) as [r|]; simpl; [ | discriminate ].
  destruct (nth_error_at_update_cases r j (fun _ => C0) k) as [-> | ->].
  - now right.
  - destruct (nth_error r k); simpl; [ | discriminate ].
    intros [= <-]. now left.
Qed.

Lemma entry_at_row_set (a : list (list C)) (i0 : Z) (i k : nat) (z : C) :
  entry (at_row_set a i0 C0) i k = Some z -> z = C0 \/ entry a i k = Some z.
Proof.
  unfold entry, at_row_set.
  destruct (nth_error_at_update_cases a i0 (map (fun _ => C0)) i) as [-> | ->].
  - now right.
  - destruct (nth_error a i) as [r|]; simpl; [ | discriminate ].
    rewrite nth_error_map. destruct (nth_error r k); simpl; [ | discriminate ].
    intros [= <-]. now left.
Qed.

Lemma entry_half (full : list (list C)) (i k : nat) (z : C) :
  has_shape M1 M2 full ->
  entry (map (fun r => slice_to r (M2 / 2 + 1)) full) i k = Some z ->
  Z.of_nat k <= M2 / 2 /\ entry full i k = Some z.
Proof.
  intros [Hn Hm]. unfold entry. rewrite nth_error_map.
  destruct (nth_error full i) as [r|] eqn:Er; simpl; [ | discriminate ].
  rewrite Forall_forall in Hm. specialize (Hm r (nth_error_In _ _ Er)).
  unfold slice_to.
  rewrite nth_error_slice by (Z.div_mod_to_equations; lia).
  destruct (Z.ltb_spec (Z.of_nat k) (M2 / 2 + 1 - 0)) as [Hk | Hk];
    [ | discriminate ].
  simpl. intros Hz. split; [ lia | exact Hz ].
Qed.

(** Every item of the result is zero or the item of the shifted full
    spectrum at the same place, in a column from 0 to [M2 // 2]. *)
Lemma project_with_nufft_entries (i k : nat) (z : C) :
  entry out i k = Some z ->
  z = C0
  \/ (Z.of_nat k <= M2 / 2
      /\ entry (ifftshift
                  (nufft1 (M1, M2) (map RtoC weights)
                     (map snd (coordinates_periodic coordinate_list (M1, M2)))
                     (map fst (coordinates_periodic coordinate_list (M1, M2)))
                     eps (-1))) i k = Some z).
Proof.
  unfold out, project_with_nufft. cbv zeta.
  set (full := nufft1 _ _ _ _ _ _).
  assert (Hfull : has_shape M1 M2 (ifftshift full))
    by (apply has_shape_ifftshift, nufft1_shape; assumption).
  intros H.
  assert (H2 : z = C0 \/
               entry (if M2 mod 2 =? 0
                      then at_col_set
                             (map (fun r => slice_to r (M2 / 2 + 1))
                                  (ifftshift full)) (-1) C0
                      else map (fun r => slice_to r (M2 / 2 + 1))
                               (ifftshift full)) i k = Some z).
  { destruct (M1 mod 2 =? 0); [ now apply entry_at_row_set in H | now right ]. }
  destruct H2 as [-> | H2]; [ now left | ].
  assert (H1 : z = C0 \/
               entry (map (fun r => slice_to r (M2 / 2 + 1))
                          (ifftshift full)) i k = Some z).
  { destruct (M2 mod 2 =? 0); [ now apply entry_at_col_set in H2 | now right ]. }
  destruct H1 as [-> | H1]; [ now left | ]. right.
  apply (entry_half _ _ _ _ Hfull) in H1. destruct H1 as [Hk H1].
  split; [ exact Hk | exact H1 ].
Qed.

(** The shape of the result and its zeroed Nyquist bins. *)
Lemma project_with_nufft_spec :
  has_shape M1 (M2 / 2 + 1) out
  /\ (M2 mod 2 = 0 -> Forall ends_with_zero out)
  /\ (M1 mod 2 = 0 ->
      nth_error out (Z.to_nat (M1 / 2)) =
        Some (repeat C0 (Z.to_nat (M2 / 2 + 1)))).
Proof.
  unfold out, project_with_nufft. cbv zeta.
  set (full := nufft1 _ _ _ _ _ _).
  assert (Hfull : has_shape M1 M2 full) by (apply nufft1_shape; assumption).
  apply has_shape_half in Hfull.
  set (half := map _ (ifftshift full)) in *.
  set (cols := if M2 mod 2 =? 0 then at_col_set half (-1) C0 else half).
  assert (Hcols : has_shape M1 (M2 / 2 + 1) cols).
  { unfold cols. destruct (M2 mod 2 =? 0);
      [ now apply has_shape_at_col_set | assumption ]. }
  assert (Hzero : M2 mod 2 = 0 -> Forall ends_with_zero cols).
  { intros He. unfold cols. rewrite He. simpl.
    apply (ends_with_zero_at_col_set (M2 / 2 + 1));
      [ Z.div_mod_to_equations; lia | apply Hfull ]. }
  split; [ | split ].
  - destruct (M1 mod 2 =? 0);
      [ now apply has_shape_at_row_set | assumption ].
  - intros He. destruct (M1 mod 2 =? 0);
      [ apply ends_with_zero_at_row_set | ]; auto.
  - intros He. rewrite He. simpl. unfold at_row_set.
    destruct Hcols as [Hn Hm].
    rewrite nth_error_at_update by (Z.div_mod_to_equations; lia).
    destruct (nth_error cols (Z.to_nat (M1 / 2))) as [r|] eqn:Er.
    + simpl. rewrite map_const_repeat. do 2 f_equal.
      rewrite Forall_forall in Hm.
      specialize (Hm r (nth_error_In _ _ Er)). lia.
    + apply nth_error_None in Er. Z.div_mod_to_equations; lia.
Qed.
End Project.

(** C2: when [M2] is even the last column of the returned half spectrum,
    column [M2 // 2], is zero in every row, and when [M1] is even row
    [M1 // 2] is zero throughout. *)
Theorem project_with_nufft_zeroes_nyquist
  (nufft1 : Z * Z -> list C -> list R -> list R -> R -> Z -> list (list C))
  (weights : list R) (coordinate_list : CloudCoords) (eps : R) (M1 M2 : Z) :
  returns_shape nufft1 -> 0 < M1 -> 0 < M2 ->
  (M2 mod 2 = 0 ->
   Forall (fun r => Z.of_nat (length r) = M2 / 2 + 1 /\ ends_with_zero r)
          (project_with_nufft nufft1 weights coordinate_list (M1, M2) eps))
  /\ (M1 mod 2 = 0 ->
      nth_error (project_with_nufft nufft1 weights coordinate_list (M1, M2) eps)
                (Z.to_nat (M1 / 2)) =
        Some (repeat C0 (Z.to_nat (M2 / 2 + 1)))).
Proof.
  intros Hn H1 H2.
  destruct (project_with_nufft_spec nufft1 Hn weights coordinate_list eps M1 M2 H1 H2)
    as ([_ Hm] & Hcol & Hrow).
  split; [ | exact Hrow ].
  intros He. specialize (Hcol He). rewrite Forall_forall in *.
  intros r Hr. split; auto.
Qed.

(** Two unit weights projected onto a 2x2 plane: the half spectrum is 2x2,
    its last column and its row 1 are zero. *)
Lemma project_with_nufft_zeroes_nyquist_witness :
  Forall (fun r => Z.of_nat (length r) = 2 /\ ends_with_zero r)
         (project_with_nufft direct_nufft1 [1%R; 1%R]
            (CloudCoords2D [(0%R, 0%R); (1%R, 0%R)]) (2, 2) 0%R)
  /\ nth_error (project_with_nufft direct_nufft1 [1%R; 1%R]
                  (CloudCoords2D [(0%R, 0%R); (1%R, 0%R)]) (2, 2) 0%R) 1
     = Some [C0; C0].
Proof.
  destruct (project_with_nufft_zeroes_nyquist direct_nufft1 [1%R; 1%R]
              (CloudCoords2D [(0%R, 0%R); (1%R, 0%R)]) 0%R 2 2
              has_shape_direct_nufft1 ltac:(lia) ltac:(lia)) as [Hcol Hrow].
  split; [ apply Hcol | apply Hrow ]; reflexivity.
Defined.

End NufftFacts.

(** ** The view step *)

Module PipelineFacts.
Import Pipeline.

(** C9: the view step filters first, crops next and masks last; the
    filters act in Fourier space, so the filtered image is brought back to
    real space before the crop, and a real-space image with no filters to
    apply goes to the crop as it is. *)
Theorem view_filters_then_crops_then_masks
  (Image : Type) (fftn irfftn : Image -> Image)
  (self : ImagePipeline Image) (image : Image) :
  view fftn irfftn self image false =
    mask self (crop self (irfftn (filter self image)))
  /\ view fftn irfftn self image true =
       mask self (crop self
                    (match filters self with
                     | [] => image
                     | _ :: _ => irfftn (filter self (fftn image))
                     end))
  /\ filter self image = fold_left (fun im f => f im) (filters self) image
  /\ forall cropped : Image,
       mask self cropped = fold_left (fun im m => m im) (masks self) cropped.
Proof.
  unfold view, filter, mask. repeat split.
  destruct (filters self); reflexivity.
Qed.

(** Every stage leaves its mark on a trace: the Fourier transform, the two
    filters in their order, the inverse transform, the crop, the two masks
    in their order. *)
Example view_trace :
  view (fun t => t ++ [10]) (fun t => t ++ [11])
    {| crop := fun t => t ++ [20];
       filters := [fun t => t ++ [1]; fun t => t ++ [2]];
       masks := [fun t => t ++ [30]; fun t => t ++ [31]] |} [] true
  = [10; 1; 2; 11; 20; 30; 31].
Proof. reflexivity. Qed.
End PipelineFacts.

(** ** The Gaussian noise model *)

Module GaussianFacts.
Import Py Scalar Gaussian PyFacts.
Local Open Scope R_scope.

(** *** Sums over index ranges *)

Lemma sum_scaled_nth (k : R) (l : list R) :
  sum (map (fun j => k * nth j l 0) (seq 0 (length l))) = k * sum l.
Proof.
  induction l as [|x l IH]; simpl.
  - ring.
  - rewrite <- seq_shift, map_map. simpl. rewrite IH. ring.
Qed.

(** One row: its first item weighted by [c], the others by 2. *)
Lemma row_sum (c : nat -> R) (r : list R) :
  sum (map (fun j => match j with O => c j | S _ => 2 end * nth j r 0)
           (seq 0 (length r)))
  = c O * hd 0 r + 2 * sum (tl r).
Proof.
  destruct r as [|x r]; simpl.
  - ring.
  - rewrite <- seq_shift, map_map. simpl.
    rewrite (sum_scaled_nth 2 r). ring.
Qed.

Lemma slice_from_1 {X : Type} (l : list X) : slice_from l 1 = tl l.
Proof.
  destruct l as [|x l]; [ reflexivity | ].
  unfold slice_from, slice, adjust_index.
  replace (1 <? 0)%Z with false by reflexivity.
  replace (Z.of_nat (length (x :: l)) <? 0)%Z with false
    by (symmetry; apply Z.ltb_ge; lia).
  rewrite Z.min_id.
  replace (Z.min 1 (Z.of_nat (length (x :: l)))) with 1%Z by (simpl length; lia).
  replace (Z.to_nat (Z.of_nat (length (x :: l)) - 1)) with (length l)
    by (simpl length; lia).
  simpl. apply firstn_all.
Qed.

Lemma rows_sum (a : list (list R)) (m : nat) :
  rect m a ->
  sum (map (fun i => 1 * hd 0 (nth i a []) + 2 * sum (tl (nth i a [])))
           (seq 0 (length a)))
  = sum (column0 a) + 2 * sum2 (columns_from1 a).
Proof.
  intros _. unfold column0, columns_from1, sum2.
  induction a as [|r a IH]; simpl.
  - ring.
  - rewrite <- seq_shift, map_map. simpl. rewrite IH, slice_from_1. ring.
Qed.

(** The two sliced sums of [log_likelihood] are one weighted sum. *)
Lemma sliced_sums_are_weighted (a : list (list R)) (n m : nat) :
  length a = n -> rect m a ->
  sum (column0 (slice_from a 1)) + 2 * sum2 (columns_from1 a)
  = weighted_mode_sum n m (at2 0 a).
Proof.
  intros <- Hrect. unfold weighted_mode_sum, at2.
  assert (Hrow : forall i, (i < length a)%nat ->
             sum (map (fun j => hermitian_weight i j * nth j (nth i a []) 0) (seq 0 m))
             = match i with O => 0 | S _ => 1 end * hd 0 (nth i a [])
               + 2 * sum (tl (nth i a []))).
  { intros i Hi.
    assert (Hlen : length (nth i a []) = m).
    { unfold rect in Hrect. rewrite Forall_forall in Hrect.
      apply Hrect, nth_In, Hi. }
    rewrite <- Hlen.
    rewrite <- (row_sum (fun _ => match i with O => 0 | S _ => 1 end)).
    reflexivity. }
  rewrite (map_ext_in _ _ (seq 0 (length a))
             (fun i Hi => Hrow i (proj2 (proj1 (in_seq (length a) 0 i) Hi)))).
  rewrite slice_from_1.
  destruct a as [|r a].
  - unfold sum2. simpl. ring.
  - change (seq 0 (length (r :: a))) with (0%nat :: seq 1 (length a)).
    rewrite <- seq_shift, map_cons, map_map.
    inversion Hrect; subst.
    cbn [nth tl].
    change (sum (?t :: ?l)) with (t + sum l).
    rewrite (rows_sum a (length r)) by assumption.
    unfold columns_from1, sum2. cbn [map]. rewrite slice_from_1.
    change (sum (?t :: ?l)) with (t + sum l). ring.
Qed.

(** *** Elementwise operations *)

Lemma length_map2 {X Y W : Type} (f : X -> Y -> W) (l1 : list X) (l2 : list Y) :
  length l1 = length l2 -> length (map2 f l1 l2) = length l1.
Proof.
  revert l2. induction l1 as [|x l1 IH]; intros [|y l2] H; simpl in *;
    try discriminate; auto.
Qed.

Lemma nth_map2 {X Y W : Type} (f : X -> Y -> W)
  (l1 : list X) (l2 : list Y) (k : nat) (dx : X) (dy : Y) (dw : W) :
  length l1 = length l2 -> (k < length l1)%nat ->
  nth k (map2 f l1 l2) dw = f (nth k l1 dx) (nth k l2 dy).
Proof.
  revert l2 k. induction l1 as [|x l1 IH]; intros [|y l2] [|k] H Hk;
    simpl in *; try discriminate; try lia; auto.
  apply IH; lia.
Qed.

Section Elementwise.
Context {X Y W : Type}.
Variable f : X -> Y -> W.

Lemma zip2_shape (a : list (list X)) (b : list (list Y)) (n m : nat) :
  length a = n -> rect m a -> length b = n -> rect m b ->
  length (zip2 f a b) = n /\ rect m (zip2 f a b).
Proof.
  intros Ha Hra Hb Hrb. unfold zip2. split.
  - rewrite length_map2; congruence.
  - subst n. revert b Hb Hrb.
    induction Hra as [|r a Hr Hra IH]; intros [|s b] Hb Hrb; simpl in *;
      try discriminate; constructor.
    + inversion Hrb; subst. rewrite length_map2; congruence.
    + inversion Hrb; subst. apply IH; [ lia | assumption ].
Qed.

Lemma at2_zip2 (a : list (list X)) (b : list (list Y)) (n m i j : nat)
  (dx : X) (dy : Y) (dw : W) :
  length a = n -> rect m a -> length b = n -> rect m b ->
  (i < n)%nat -> (j < m)%nat ->
  at2 dw (zip2 f a b) i j = f (at2 dx a i j) (at2 dy b i j).
Proof.
  intros Ha Hra Hb Hrb Hi Hj. unfold at2, zip2.
  rewrite (nth_map2 (map2 f) a b i [] [] []) by congruence.
  unfold rect in *. rewrite Forall_forall in Hra, Hrb.
  assert (Hla : length (nth i a []) = m) by (apply Hra, nth_In; lia).
  assert (Hlb : length (nth i b []) = m) by (apply Hrb, nth_In; lia).
  apply nth_map2; congruence.
Qed.
End Elementwise.

Lemma map_map_shape {X Y : Type} (g : X -> Y) (a : list (list X)) (n m : nat) :
  length a = n -> rect m a ->
  length (map (map g) a) = n /\ rect m (map (map g) a).
Proof.
  intros Ha Hra. split; [ now rewrite length_map | ].
  unfold rect in *. rewrite Forall_forall in *. intros r Hr.
  apply in_map_iff in Hr. destruct Hr as (r0 & <- & Hr0).
  rewrite length_map. now apply Hra.
Qed.

Lemma at2_map_map {X Y : Type} (g : X -> Y) (a : list (list X)) (n m i j : nat)
  (dx : X) (dy : Y) :
  length a = n -> rect m a -> (i < n)%nat -> (j < m)%nat ->
  at2 dy (map (map g) a) i j = g (at2 dx a i j).
Proof.
  intros Ha Hra Hi Hj. unfold at2.
  rewrite (nth_indep _ [] (map g [])) by (rewrite length_map; lia).
  rewrite map_nth.
  unfold rect in Hra. rewrite Forall_forall in Hra.
  assert (Hla : length (nth i a []) = m) by (apply Hra, nth_In; lia).
  rewrite (nth_indep _ dy (g dx)) by (rewrite length_map; lia).
  apply map_nth.
Qed.

Section LogLikelihood.
Variable self : IndependentFourierGaussian.
Variable observed : list (list C).
Variables n m : nat.

Hypothesis observed_rows : length observed = n.
Hypothesis observed_cols : rect m observed.
Hypothesis simulated_rows : length (render self false) = n.
Hypothesis simulated_cols : rect m (render self false).
Hypothesis freqs_rows :
  length (frequency_grid_in_angstroms (pipeline self)) = n.
Hypothesis freqs_cols : rect m (frequency_grid_in_angstroms (pipeline self)).

Lemma per_mode_shape :
  length (log_likelihood_per_mode self observed) = n
  /\ rect m (log_likelihood_per_mode self observed).
Proof.
  unfold log_likelihood_per_mode.
  pose proof (zip2_shape Csub _ _ n m simulated_rows simulated_cols
                         observed_rows observed_cols) as [Hr1 Hr2].
  pose proof (map_map_shape
                (fun f => IZR (prod_shape (padded_shape (pipeline self)))
                          * variance self f) _ n m freqs_rows freqs_cols)
    as [Hv1 Hv2].
  pose proof (zip2_shape (fun (r : C) (v : R) => Cabs r ^ 2 / (2 * v))
                         _ _ n m Hr1 Hr2 Hv1 Hv2) as [Hq1 Hq2].
  apply zip2_shape; assumption.
Qed.

Lemma per_mode_entry (i j : nat) :
  (i < n)%nat -> (j < m)%nat ->
  at2 0 (log_likelihood_per_mode self observed) i j =
    mode_term (IZR (prod_shape (padded_shape (pipeline self))))
      (at2 C0 (render self false) i j)
      (at2 C0 observed i j)
      (IZR (prod_shape (padded_shape (pipeline self)))
       * variance self
           (at2 (0, 0) (frequency_grid_in_angstroms (pipeline self)) i j)).
Proof.
  intros Hi Hj. unfold log_likelihood_per_mode.
  pose proof (zip2_shape Csub _ _ n m simulated_rows simulated_cols
                         observed_rows observed_cols) as [Hr1 Hr2].
  pose proof (map_map_shape
                (fun f => IZR (prod_shape (padded_shape (pipeline self)))
                          * variance self f) _ n m freqs_rows freqs_cols)
    as [Hv1 Hv2].
  pose proof (zip2_shape (fun (r : C) (v : R) => Cabs r ^ 2 / (2 * v))
                         _ _ n m Hr1 Hr2 Hv1 Hv2) as [Hq1 Hq2].
  rewrite (at2_zip2 _ _ _ n m i j 0 0 0); try assumption.
  rewrite (at2_zip2 _ _ _ n m i j C0 0 0); try assumption.
  rewrite (at2_zip2 _ _ _ n m i j C0 C0 C0); try assumption.
  rewrite (at2_map_map _ _ n m i j (0, 0) 0); try assumption.
  reflexivity.
Qed.
End LogLikelihood.

(** C1: on arrays of one shape, [n] rows of [m] modes, the log-likelihood
    is minus the weighted sum over the modes of the squared magnitude of
    the residual over twice the variance, less half the logarithm of
    [2 * pi * variance], over the number of pixels of the padded shape;
    the variance of a mode is the variance operator at its frequency times
    that number of pixels.  The zero mode has weight 0, the other modes of
    the first column weight 1, and all modes of the later columns
    weight 2. *)
Theorem log_likelihood_is_weighted_mode_sum
  (self : IndependentFourierGaussian) (observed : list (list C)) (n m : nat) :
  length observed = n -> rect m observed ->
  length (render self false) = n -> rect m (render self false) ->
  length (frequency_grid_in_angstroms (pipeline self)) = n ->
  rect m (frequency_grid_in_angstroms (pipeline self)) ->
  log_likelihood self observed = log_likelihood_by_mode self observed n m.
Proof.
  intros Ho1 Ho2 Hs1 Hs2 Hf1 Hf2.
  destruct (per_mode_shape self observed n m Ho1 Ho2 Hs1 Hs2 Hf1 Hf2) as [Hl1 Hl2].
  unfold log_likelihood, log_likelihood_by_mode.
  rewrite (sliced_sums_are_weighted _ n m Hl1 Hl2).
  unfold weighted_mode_sum.
  rewrite (map_ext_in
             (fun i => sum (map (fun j => hermitian_weight i j
                                          * at2 0 (log_likelihood_per_mode self observed) i j)
                                (seq 0 m)))
             (fun i => sum (map (fun j => hermitian_weight i j
                                          * mode_term
                                              (IZR (prod_shape (padded_shape (pipeline self))))
                                              (at2 C0 (render self false) i j)
                                              (at2 C0 observed i j)
                                              (IZR (prod_shape (padded_shape (pipeline self)))
                                               * variance self
                                                   (at2 (0, 0)
                                                      (frequency_grid_in_angstroms
                                                         (pipeline self)) i j)))
                                (seq 0 m)))).
  - ring.
  - intros i Hi. apply in_seq in Hi. f_equal. apply map_ext_in.
    intros j Hj. apply in_seq in Hj. f_equal.
    apply (per_mode_entry self observed n m); try assumption; lia.
Qed.

(** A distribution on a 2x2 plane with the default variance and contrast,
    against an observed image that is zero. *)
Lemma log_likelihood_witness :
  log_likelihood
    (init {| padded_shape := (2, 2)%Z;
             frequency_grid_in_angstroms := [[(0, 0); (0, 1)]; [(1, 0); (1, 1)]];
             pipeline_render := fun _ _ => [[(1, 0); (2, 0)]; [(3, 0); (4, 0)]] |}
          None None)
    [[C0; C0]; [C0; C0]]
  = log_likelihood_by_mode
      (init {| padded_shape := (2, 2)%Z;
               frequency_grid_in_angstroms := [[(0, 0); (0, 1)]; [(1, 0); (1, 1)]];
               pipeline_render := fun _ _ => [[(1, 0); (2, 0)]; [(3, 0); (4, 0)]] |}
            None None)
      [[C0; C0]; [C0; C0]] 2 2.
Proof.
  apply log_likelihood_is_weighted_mode_sum;
    first [ reflexivity | repeat constructor ].
Defined.

(** On an exact fit only the logarithm is left.  With the default variance,
    the constant 1, on a padded plane of two pixels, the variance under the
    logarithm is [2 * 1]: the operator's value times the number of pixels. *)
Example log_likelihood_of_exact_fit :
  log_likelihood
    (init {| padded_shape := (1, 2)%Z;
             frequency_grid_in_angstroms := [[(0, 0); (0, 1 / 2)]];
             pipeline_render := fun _ _ => [[(5, 0); (3, 4)]] |}
          None None)
    [[(5, 0); (3, 4)]]
  = ln (2 * PI * (2 * 1)) / 2.
Proof.
  unfold log_likelihood, log_likelihood_per_mode, render, init, zip2.
  cbn [pipeline variance contrast_scale padded_shape frequency_grid_in_angstroms
       pipeline_render or_operator or_float Constant prod_shape fst snd
       map map2 Z.mul Pos.mul].
  rewrite slice_from_1. unfold columns_from1, column0, sum2.
  cbn [tl map sum fold_right]. rewrite slice_from_1. cbn [tl map sum fold_right].
  unfold Csub, Cscale, Cabs. cbn [fst snd].
  replace ((1 * 3 - 3) * (1 * 3 - 3) + (1 * 4 - 4) * (1 * 4 - 4)) with 0 by ring.
  rewrite sqrt_0. unfold sum, Constant. cbn [fold_right pow]. lra.
Qed.

(** C1 as the specification words it, with the variance function's value
    under the residual and under the logarithm, fails on that input: the
    wording gives [ln (2 * PI * 1) / 2] where the code, which scales the
    variance by the two pixels of the padded plane, returns
    [ln (2 * PI * (2 * 1)) / 2]. *)
Lemma log_likelihood_scales_the_variance :
  log_likelihood
    (init {| padded_shape := (1, 2)%Z;
             frequency_grid_in_angstroms := [[(0, 0); (0, 1 / 2)]];
             pipeline_render := fun _ _ => [[(5, 0); (3, 4)]] |}
          None None)
    [[(5, 0); (3, 4)]]
  <> log_likelihood_as_specified
       (init {| padded_shape := (1, 2)%Z;
                frequency_grid_in_angstroms := [[(0, 0); (0, 1 / 2)]];
                pipeline_render := fun _ _ => [[(5, 0); (3, 4)]] |}
             None None)
       [[(5, 0); (3, 4)]] 1 2.
Proof.
  rewrite log_likelihood_of_exact_fit.
  assert (Hspec :
    log_likelihood_as_specified
      (init {| padded_shape := (1, 2)%Z;
               frequency_grid_in_angstroms := [[(0, 0); (0, 1 / 2)]];
               pipeline_render := fun _ _ => [[(5, 0); (3, 4)]] |}
            None None)
      [[(5, 0); (3, 4)]] 1 2
    = ln (2 * PI * 1) / 2).
  { unfold log_likelihood_as_specified, weighted_mode_sum, mode_term, render,
      init, at2, hermitian_weight.
    cbn [pipeline variance contrast_scale padded_shape
         frequency_grid_in_angstroms pipeline_render or_operator or_float
         Constant prod_shape fst snd map seq nth Z.mul Pos.mul].
    unfold Csub, Cscale, Cabs. cbn [fst snd].
    replace ((1 * 3 - 3) * (1 * 3 - 3) + (1 * 4 - 4) * (1 * 4 - 4)) with 0 by ring.
    rewrite sqrt_0. unfold sum, Constant. cbn [fold_right pow]. lra. }
  rewrite Hspec.
  assert (Hlt : ln (2 * PI * 1) < ln (2 * PI * (2 * 1))).
  { pose proof PI_RGT_0. apply ln_increasing; lra. }
  lra.
Qed.

(** *** Defaults of the constructor *)

Lemma Cscale_1 (z : C) : Cscale 1 z = z.
Proof. destruct z as [a b]. unfold Cscale. simpl. f_equal; ring. Qed.

Lemma Reqb_refl (x : R) : Reqb x x = true.
Proof. unfold Reqb. destruct (Req_dec_T x x); [ reflexivity | contradiction ]. Qed.

(** C10: a contrast scale of [0.0] handed to the constructor is replaced by
    1, so the distribution renders the pipeline's normalised image
    unscaled, as it does when no contrast scale is given; and a variance of
    [None] is replaced by the constant operator 1. *)
Theorem zero_contrast_scale_becomes_one
  (p : AbstractPipeline) (v : option FourierOperatorLike)
  (c : option R) (get_real : bool) :
  contrast_scale (init p v (Some 0)) = 1
  /\ render (init p v (Some 0)) get_real = pipeline_render p true get_real
  /\ render (init p v (Some 0)) get_real = render (init p v None) get_real
  /\ variance (init p None c) = Constant 1.
Proof.
  assert (Hscale : contrast_scale (init p v (Some 0)) = 1).
  { simpl. now rewrite Reqb_refl. }
  assert (Hid : forall a : list (list C), map (map (Cscale 1)) a = a).
  { intros a. rewrite <- (map_id a) at 2. apply map_ext. intros r.
    rewrite <- (map_id r) at 2. apply map_ext. apply Cscale_1. }
  repeat split.
  - exact Hscale.
  - unfold render. rewrite Hscale. apply Hid.
  - unfold render. rewrite Hscale. reflexivity.
Qed.

(** A pipeline that renders one pixel of value 3: a zero contrast scale
    does not blank it. *)
Example zero_contrast_scale_renders_signal :
  render (init {| padded_shape := (1, 1)%Z;
                  frequency_grid_in_angstroms := [[(0, 0)]];
                  pipeline_render := fun _ _ => [[(3, 0)]] |}
               None (Some 0)) false
  = [[(3, 0)]].
Proof.
  unfold render. simpl. rewrite Reqb_refl, Cscale_1. reflexivity.
Qed.
End GaussianFacts.

(** * Further properties *)

(** Closed comparisons of integers, by computation. *)
Ltac compare_integers :=
  vm_compute; repeat split; first [ reflexivity | discriminate ].

(** ** Cropping and padding, entry by entry *)

Module EdgesMore.
Import Py Edges PyFacts EdgesFacts.
Local Open Scope Z_scope.

Section Windows.
Context {A : Type}.
Implicit Types (img : list (list A)) (fill : A).

Lemma rectangular_rows img (r : list A) :
  rectangular img -> In r img -> Z.of_nat (length r) = snd (shape2 img).
Proof.
  unfold rectangular, rect. rewrite Forall_forall. intros H Hr.
  simpl. now rewrite (H r Hr).
Qed.

Lemma entry_index2 img (y0 yn x0 xn : Z) (i j : nat) :
  rectangular img ->
  0 <= y0 <= yn -> yn <= fst (shape2 img) ->
  0 <= x0 <= xn -> xn <= snd (shape2 img) ->
  Z.of_nat i < yn - y0 -> Z.of_nat j < xn - x0 ->
  entry (index2 img y0 yn x0 xn) i j =
    entry img (Z.to_nat y0 + i) (Z.to_nat x0 + j).
Proof.
  intros Hrect Hy Hyn Hx Hxn Hi Hj. unfold entry, index2.
  rewrite nth_error_map, nth_error_slice by (simpl in Hyn; lia).
  replace (Z.of_nat i <? yn - y0) with true by (symmetry; apply Z.ltb_lt; lia).
  destruct (nth_error img (Z.to_nat y0 + i)) as [r|] eqn:Er; simpl;
    [ | reflexivity ].
  pose proof (rectangular_rows img r Hrect (nth_error_In _ _ Er)) as Hr.
  rewrite nth_error_slice by lia.
  now replace (Z.of_nat j <? xn - x0) with true by (symmetry; apply Z.ltb_lt; lia).
Qed.

Lemma has_shape_index2 img (y0 yn x0 xn : Z) :
  rectangular img ->
  0 <= y0 <= yn -> yn <= fst (shape2 img) ->
  0 <= x0 <= xn -> xn <= snd (shape2 img) ->
  has_shape (yn - y0) (xn - x0) (index2 img y0 yn x0 xn).
Proof.
  intros Hrect Hy Hyn Hx Hxn. unfold index2. split.
  - rewrite length_map. apply length_slice_inside; simpl in Hyn; lia.
  - rewrite Forall_forall. intros r Hr. apply in_map_iff in Hr.
    destruct Hr as (r0 & <- & Hr0). apply length_slice_inside; [ lia | ].
    rewrite (rectangular_rows img r0 Hrect (In_slice _ _ _ _ Hr0)). lia.
Qed.

(** The shape of the window that [crop_to_shape] cuts. *)
Lemma has_shape_crop_window img (h w : Z) :
  rectangular img ->
  0 <= h <= fst (shape2 img) -> 0 <= w <= snd (shape2 img) ->
  has_shape h w
    (index2 img
       (fst (shape2 img) / 2 - h / 2) (fst (shape2 img) / 2 + h / 2 + h mod 2)
       (snd (shape2 img) / 2 - w / 2) (snd (shape2 img) / 2 + w / 2 + w mod 2)).
Proof.
  intros Hrect Hh Hw.
  set (N1 := fst (shape2 img)) in *. set (N2 := snd (shape2 img)) in *.
  replace h with (N1 / 2 + h / 2 + h mod 2 - (N1 / 2 - h / 2)) at 1
    by (Z.div_mod_to_equations; lia).
  replace w with (N2 / 2 + w / 2 + w mod 2 - (N2 / 2 - w / 2)) at 1
    by (Z.div_mod_to_equations; lia).
  apply has_shape_index2; try assumption; fold N1 N2;
    Z.div_mod_to_equations; lia.
Qed.

(** The window of the size of the image is the image. *)
Lemma crop_window_of_own_shape img :
  rectangular img ->
  index2 img
    (fst (shape2 img) / 2 - fst (shape2 img) / 2)
    (fst (shape2 img) / 2 + fst (shape2 img) / 2 + fst (shape2 img) mod 2)
    (snd (shape2 img) / 2 - snd (shape2 img) / 2)
    (snd (shape2 img) / 2 + snd (shape2 img) / 2 + snd (shape2 img) mod 2)
  = img.
Proof.
  intros Hrect.
  set (N1 := fst (shape2 img)). set (N2 := snd (shape2 img)).
  unfold index2.
  rewrite (slice_all img) by (unfold N1; simpl; Z.div_mod_to_equations; lia).
  rewrite <- (map_id img) at 2. apply map_ext_in. intros r Hr.
  apply slice_all.
  - Z.div_mod_to_equations; lia.
  - rewrite (rectangular_rows img r Hrect Hr). fold N2.
    Z.div_mod_to_equations; lia.
Qed.

Lemma padded_rows img fill (y0 y1 : Z) (r : list A) :
  rectangular img ->
  In r (pad1 (repeat fill (length (hd [] img))) y0 y1 img) ->
  Z.of_nat (length r) = snd (shape2 img).
Proof.
  intros Hrect Hr. unfold pad1 in Hr.
  apply in_app_or in Hr. destruct Hr as [Hr | Hr].
  - apply repeat_spec in Hr. subst r. now rewrite repeat_length.
  - apply in_app_or in Hr. destruct Hr as [Hr | Hr].
    + now apply rectangular_rows.
    + apply repeat_spec in Hr. subst r. now rewrite repeat_length.
Qed.

(** The shape of what [pad_to_shape] builds. *)
Lemma has_shape_padded img fill (M1 M2 : Z) :
  rectangular img ->
  fst (shape2 img) <= M1 -> snd (shape2 img) <= M2 ->
  has_shape M1 M2
    (map (pad1 fill ((M2 - snd (shape2 img)) / 2)
                    ((M2 - snd (shape2 img)) / 2 + (M2 - snd (shape2 img)) mod 2))
         (pad1 (repeat fill (length (hd [] img)))
               ((M1 - fst (shape2 img)) / 2)
               ((M1 - fst (shape2 img)) / 2 + (M1 - fst (shape2 img)) mod 2)
               img)).
Proof.
  intros Hrect H1 H2.
  set (N1 := fst (shape2 img)) in *. set (N2 := snd (shape2 img)) in *.
  assert (HN1 : N1 = Z.of_nat (length img)) by reflexivity.
  set (y1 := (M1 - N1) / 2 + (M1 - N1) mod 2). set (y0 := (M1 - N1) / 2).
  set (x1 := (M2 - N2) / 2 + (M2 - N2) mod 2). set (x0 := (M2 - N2) / 2).
  assert (Hy : 0 <= y0 /\ 0 <= y1 /\ y0 + N1 + y1 = M1)
    by (unfold y0, y1; Z.div_mod_to_equations; lia).
  assert (Hx : 0 <= x0 /\ 0 <= x1 /\ x0 + N2 + x1 = M2)
    by (unfold x0, x1; Z.div_mod_to_equations; lia).
  split.
  - rewrite length_map, length_pad1 by lia. lia.
  - rewrite Forall_forall. intros r Hr. apply in_map_iff in Hr.
    destruct Hr as (r0 & <- & Hr0). rewrite length_pad1 by lia.
    rewrite (padded_rows img fill y0 y1 r0 Hrect Hr0). fold N2. lia.
Qed.
End Windows.

(** X1: cropping a rectangular image to a shape that fits gives an image of
    that shape, and its item [(i, j)] is the item of the image at
    [(N1 // 2 - h // 2 + i, N2 // 2 - w // 2 + j)]. *)
Theorem crop_to_shape_is_the_centre_window
  (A : Type) (img : list (list A)) (h w : Z) :
  rectangular img ->
  0 <= h <= fst (shape2 img) -> 0 <= w <= snd (shape2 img) ->
  exists cropped : list (list A),
    crop_to_shape (Image img) [h; w] = Ok (Image cropped)
    /\ has_shape h w cropped
    /\ forall i j : nat,
        Z.of_nat i < h -> Z.of_nat j < w ->
        entry cropped i j =
          entry img (Z.to_nat (fst (shape2 img) / 2 - h / 2) + i)
                    (Z.to_nat (snd (shape2 img) / 2 - w / 2) + j).
Proof.
  intros Hrect Hh Hw. eexists. split; [ apply crop_image | ].
  split; [ now apply has_shape_crop_window | ].
  set (N1 := fst (shape2 img)) in *. set (N2 := snd (shape2 img)) in *.
  intros i j Hi Hj. apply entry_index2; try assumption; fold N1 N2;
    Z.div_mod_to_equations; lia.
Qed.

(** The middle pixel of a 3x3 image. *)
Lemma crop_to_shape_is_the_centre_window_witness :
  exists cropped : list (list Z),
    crop_to_shape (Image Samples.image_3x3) [1; 1] = Ok (Image cropped)
    /\ has_shape 1 1 cropped
    /\ forall i j : nat,
        Z.of_nat i < 1 -> Z.of_nat j < 1 ->
        entry cropped i j =
          entry Samples.image_3x3
            (Z.to_nat (fst (shape2 Samples.image_3x3) / 2 - 1 / 2) + i)
            (Z.to_nat (snd (shape2 Samples.image_3x3) / 2 - 1 / 2) + j).
Proof.
  apply (crop_to_shape_is_the_centre_window Z Samples.image_3x3 1 1);
    [ repeat constructor | simpl; lia | simpl; lia ].
Defined.

(** X2: cropping a rectangular image to its own shape returns the image. *)
Theorem crop_to_own_shape_is_identity (A : Type) (img : list (list A)) :
  rectangular img ->
  crop_to_shape (Image img) (shape (Image img)) = Ok (Image img).
Proof.
  intros Hrect. unfold shape. rewrite crop_image. do 2 f_equal.
  now apply crop_window_of_own_shape.
Qed.

Lemma crop_to_own_shape_is_identity_witness :
  crop_to_shape (Image Samples.image_3x3) (shape (Image Samples.image_3x3))
  = Ok (Image Samples.image_3x3).
Proof.
  apply (crop_to_own_shape_is_identity Z Samples.image_3x3).
  repeat constructor.
Defined.

(** X3: [crop_to_shape] raises [ValueError] exactly when the requested shape
    has another number of axes than the array; whatever the sizes asked
    for, it raises for no other reason. *)
Theorem crop_to_shape_raises_on_rank_mismatch
  (A : Type) (a : ndarray A) (shp : list Z) :
  crop_to_shape a shp = Raise ValueError <-> length shp <> length (shape a).
Proof.
  unfold crop_to_shape.
  destruct (Z.eqb_spec (Z.of_nat (length shp)) (Z.of_nat (length (shape a))))
    as [He | He]; simpl negb; cbv iota.
  - split; [ | intros Hne; exfalso; apply Hne; lia ].
    apply Nat2Z.inj in He.
    destruct a as [img | vol]; simpl in He;
      destruct shp as [|s0 [|s1 [|s2 [|s3 shp]]]]; try discriminate He;
      simpl; discriminate.
  - split; [ intros _ Heq; apply He; now rewrite Heq | reflexivity ].
Qed.

Lemma nth_error_pad1 {B : Type} (c : B) (before after : Z) (l : list B) (k : nat) :
  0 <= before -> 0 <= after ->
  nth_error (pad1 c before after l) k =
    if Z.of_nat k <? before then Some c
    else if Z.of_nat k <? before + Z.of_nat (length l)
         then nth_error l (k - Z.to_nat before)
         else if Z.of_nat k <? before + Z.of_nat (length l) + after
              then Some c else None.
Proof.
  intros Hb Ha. unfold pad1.
  destruct (Z.ltb_spec (Z.of_nat k) before).
  - rewrite nth_error_app1 by (rewrite repeat_length; lia).
    apply nth_error_repeat. lia.
  - rewrite nth_error_app2 by (rewrite repeat_length; lia).
    rewrite repeat_length.
    destruct (Z.ltb_spec (Z.of_nat k) (before + Z.of_nat (length l))).
    + apply nth_error_app1. lia.
    + rewrite nth_error_app2 by lia.
      destruct (Z.ltb_spec (Z.of_nat k) (before + Z.of_nat (length l) + after)).
      * apply nth_error_repeat. lia.
      * apply nth_error_None. rewrite repeat_length. lia.
Qed.

(** X4: padding a rectangular image to a shape that is not smaller gives an
    image of that shape; the image sits from row [(M1 - N1) // 2] and column
    [(M2 - N2) // 2] on, and every item outside it is the constant. *)
Theorem pad_to_shape_places_the_image
  (A : Type) (fill : A) (img : list (list A)) (M1 M2 : Z) :
  rectangular img ->
  fst (shape2 img) <= M1 -> snd (shape2 img) <= M2 ->
  exists padded : list (list A),
    pad_to_shape (Image img) [M1; M2] fill = Ok (Image padded)
    /\ has_shape M1 M2 padded
    /\ forall i j : nat,
        Z.of_nat i < M1 -> Z.of_nat j < M2 ->
        entry padded i j =
          if ((M1 - fst (shape2 img)) / 2 <=? Z.of_nat i)
             && (Z.of_nat i <? (M1 - fst (shape2 img)) / 2 + fst (shape2 img))
             && ((M2 - snd (shape2 img)) / 2 <=? Z.of_nat j)
             && (Z.of_nat j <? (M2 - snd (shape2 img)) / 2 + snd (shape2 img))
          then entry img (i - Z.to_nat ((M1 - fst (shape2 img)) / 2))
                         (j - Z.to_nat ((M2 - snd (shape2 img)) / 2))
          else Some fill.
Proof.
  intros Hrect H1 H2. eexists. split; [ now apply pad_image | ].
  split; [ now apply has_shape_padded | ].
  set (N1 := fst (shape2 img)) in *. set (N2 := snd (shape2 img)) in *.
  assert (HN1 : N1 = Z.of_nat (length img)) by reflexivity.
  assert (HN2 : N2 = Z.of_nat (length (hd [] img))) by reflexivity.
  set (y1 := (M1 - N1) / 2 + (M1 - N1) mod 2). set (y0 := (M1 - N1) / 2).
  set (x1 := (M2 - N2) / 2 + (M2 - N2) mod 2). set (x0 := (M2 - N2) / 2).
  assert (Hy : 0 <= y0 /\ 0 <= y1 /\ y0 + N1 + y1 = M1)
    by (unfold y0, y1; Z.div_mod_to_equations; lia).
  assert (Hx : 0 <= x0 /\ 0 <= x1 /\ x0 + N2 + x1 = M2)
    by (unfold x0, x1; Z.div_mod_to_equations; lia).
  set (blank := repeat fill (length (hd [] img))).
  intros i j Hi Hj. unfold entry. rewrite nth_error_map.
  rewrite nth_error_pad1 by lia. rewrite <- HN1.
  destruct (Z.leb_spec y0 (Z.of_nat i)) as [Hi0 | Hi0];
    destruct (Z.ltb_spec (Z.of_nat i) y0) as [Hi1 | Hi1]; try lia.
  - destruct (Z.ltb_spec (Z.of_nat i) (y0 + N1)) as [Hi2 | Hi2].
    + destruct (nth_error img (i - Z.to_nat y0)) as [r|] eqn:Er;
        [ | apply nth_error_None in Er; lia ].
      simpl option_map. cbv iota beta.
      rewrite nth_error_pad1 by lia.
      rewrite (rectangular_rows img r Hrect (nth_error_In _ _ Er)). fold N2.
      destruct (Z.leb_spec x0 (Z.of_nat j)) as [Hj0 | Hj0];
        destruct (Z.ltb_spec (Z.of_nat j) x0) as [Hj1 | Hj1]; try lia.
      * destruct (Z.ltb_spec (Z.of_nat j) (x0 + N2)); simpl; [ reflexivity | ].
        now replace (Z.of_nat j <? x0 + N2 + x1) with true
          by (symmetry; apply Z.ltb_lt; lia).
      * reflexivity.
    + replace (Z.of_nat i <? y0 + N1 + y1) with true
        by (symmetry; apply Z.ltb_lt; lia).
      simpl. rewrite nth_error_pad1 by lia. unfold blank.
      rewrite repeat_length, <- HN2.
      destruct (Z.ltb_spec (Z.of_nat j) x0); [ reflexivity | ].
      destruct (Z.ltb_spec (Z.of_nat j) (x0 + N2)).
      * apply nth_error_repeat. lia.
      * now replace (Z.of_nat j <? x0 + N2 + x1) with true
          by (symmetry; apply Z.ltb_lt; lia).
  - simpl. rewrite nth_error_pad1 by lia. unfold blank.
    rewrite repeat_length, <- HN2.
    destruct (Z.ltb_spec (Z.of_nat j) x0); [ reflexivity | ].
    destruct (Z.ltb_spec (Z.of_nat j) (x0 + N2)).
    + apply nth_error_repeat. lia.
    + now replace (Z.of_nat j <? x0 + N2 + x1) with true
        by (symmetry; apply Z.ltb_lt; lia).
Qed.

(** A 3x3 image padded with zeros to 4x5. *)
Lemma pad_to_shape_places_the_image_witness :
  exists padded : list (list Z),
    pad_to_shape (Image Samples.image_3x3) [4; 5] 0 = Ok (Image padded)
    /\ has_shape 4 5 padded
    /\ forall i j : nat,
        Z.of_nat i < 4 -> Z.of_nat j < 5 ->
        entry padded i j =
          if ((4 - fst (shape2 Samples.image_3x3)) / 2 <=? Z.of_nat i)
             && (Z.of_nat i <? (4 - fst (shape2 Samples.image_3x3)) / 2
                               + fst (shape2 Samples.image_3x3))
             && ((5 - snd (shape2 Samples.image_3x3)) / 2 <=? Z.of_nat j)
             && (Z.of_nat j <? (5 - snd (shape2 Samples.image_3x3)) / 2
                               + snd (shape2 Samples.image_3x3))
          then entry Samples.image_3x3
                 (i - Z.to_nat ((4 - fst (shape2 Samples.image_3x3)) / 2))
                 (j - Z.to_nat ((5 - snd (shape2 Samples.image_3x3)) / 2))
          else Some 0.
Proof.
  apply (pad_to_shape_places_the_image Z 0 Samples.image_3x3 4 5);
    [ repeat constructor | simpl; lia | simpl; lia ].
Defined.

(** X5: [pad_to_shape] on an image raises [ValueError] exactly when the
    requested shape is smaller than the image on some axis. *)
Theorem pad_to_shape_raises_when_target_is_smaller
  (A : Type) (fill : A) (img : list (list A)) (M1 M2 : Z) :
  pad_to_shape (Image img) [M1; M2] fill = Raise ValueError
  <-> M1 < fst (shape2 img) \/ M2 < snd (shape2 img).
Proof.
  split.
  - intros Hraise.
    destruct (Z.lt_ge_cases M1 (fst (shape2 img))) as [H1 | H1]; [ now left | ].
    destruct (Z.lt_ge_cases M2 (snd (shape2 img))) as [H2 | H2]; [ now right | ].
    rewrite pad_image in Hraise by lia. discriminate.
  - intros Hsmall.
    unfold pad_to_shape, jnp_pad, jnp_pad2, negative_width.
    simpl negb. cbv iota. simpl fst. simpl snd.
    set (N1 := Z.of_nat (length img)) in *.
    set (N2 := Z.of_nat (length (hd [] img))) in *.
    simpl in Hsmall. fold N1 N2 in Hsmall.
    destruct Hsmall as [H | H].
    + replace ((M1 - N1) / 2 <? 0) with true
        by (symmetry; apply Z.ltb_lt; Z.div_mod_to_equations; lia).
      reflexivity.
    + replace ((M2 - N2) / 2 <? 0) with true
        by (symmetry; apply Z.ltb_lt; Z.div_mod_to_equations; lia).
      rewrite !orb_true_r. reflexivity.
Qed.

(** X6: padding an image to its own shape returns the image. *)
Theorem pad_to_own_shape_is_identity (A : Type) (fill : A) (img : list (list A)) :
  pad_to_shape (Image img) (shape (Image img)) fill = Ok (Image img).
Proof.
  unfold shape. rewrite pad_image by lia.
  rewrite !Z.sub_diag. change (0 / 2) with 0. change (0 / 2 + 0 mod 2) with 0.
  now rewrite pad1_nothing, map_pad1_nothing.
Qed.

Lemma has_shape_rectangular {A : Type} (n m : Z) (a : list (list A)) :
  has_shape n m a -> rectangular a /\ fst (shape2 a) = n
                     /\ (0 < n -> snd (shape2 a) = m).
Proof.
  intros [Hn Hm]. rewrite Forall_forall in Hm. repeat split.
  - unfold rectangular, rect. rewrite Forall_forall. intros r Hr.
    destruct a as [|r0 a]; [ contradiction | ]. simpl.
    pose proof (Hm r Hr). pose proof (Hm r0 (or_introl eq_refl)). lia.
  - exact Hn.
  - intros Hpos. destruct a as [|r0 a]; [ simpl in Hn; lia | ].
    simpl. apply Hm. now left.
Qed.

(** X7: resizing a rectangular image never raises and gives the requested
    shape, whichever axes have to shrink and whichever have to grow. *)
Theorem resize_with_crop_or_pad_has_requested_shape
  (A : Type) (fill : A) (img : list (list A)) (M1 M2 : Z) :
  rectangular img -> 0 <= M1 -> 0 <= M2 ->
  exists resized : list (list A),
    resize_with_crop_or_pad (Image img) [M1; M2] fill = Ok (Image resized)
    /\ has_shape M1 M2 resized.
Proof.
  intros Hrect HM1 HM2.
  unfold resize_with_crop_or_pad.
  destruct (shape2 img) as [N1 N2] eqn:Es.
  assert (HN : fst (shape2 img) = N1 /\ snd (shape2 img) = N2)
    by (now rewrite Es).
  destruct HN as [HN1 HN2].
  assert (Hpos : 0 <= N1 /\ 0 <= N2) by (unfold shape2 in Es; injection Es; lia).
  assert (Hcrop : forall h w, 0 <= h <= N1 -> 0 <= w <= N2 ->
            exists c, crop_to_shape (Image img) [h; w] = Ok (Image c)
                      /\ has_shape h w c).
  { intros h w Hh Hw. eexists. split; [ apply crop_image | ].
    apply has_shape_crop_window; [ assumption | lia | lia ]. }
  assert (Hpad : forall (a : list (list A)) (n m : Z),
            has_shape n m a -> (0 < n \/ a = []) -> n <= M1 -> m <= M2 -> 0 <= m ->
            exists p, pad_to_shape (Image a) [M1; M2] fill = Ok (Image p)
                      /\ has_shape M1 M2 p).
  { intros a n m Ha Hne Hn Hm Hm0.
    destruct (has_shape_rectangular n m a Ha) as (Hr & Hf & Hs).
    assert (Hcols : snd (shape2 a) <= M2)
      by (destruct Hne as [Hne | ->]; [ rewrite Hs; lia | simpl; lia ]).
    eexists. split; [ apply pad_image; lia | ].
    apply has_shape_padded; [ assumption | lia | assumption ]. }
  assert (Himg : has_shape N1 N2 img).
  { split; [ now rewrite <- HN1 | ].
    rewrite Forall_forall. intros r Hr.
    rewrite (rectangular_rows img r Hrect Hr). exact HN2. }
  assert (Hne : forall (a : list (list A)) (n m : Z),
            has_shape n m a -> 0 < n \/ a = []).
  { intros a n m [Hn _]. destruct a; [ now right | left; simpl in Hn; lia ]. }
  destruct (Z.leb_spec M1 N1) as [Ha | Ha]; destruct (Z.leb_spec M2 N2) as [Hb | Hb];
    destruct (Z.leb_spec N1 M1) as [Hc | Hc]; destruct (Z.leb_spec N2 M2) as [Hd | Hd];
    simpl andb; cbv iota; try lia;
    first
      [ (* both axes shrink or stay *)
        destruct (Hcrop M1 M2) as (c & Hc' & Hs); [ lia | lia | ]; now eauto
      | (* both axes grow or stay *)
        apply (Hpad img N1 N2 Himg (Hne _ _ _ Himg)); lia
      | (* rows grow, columns shrink *)
        destruct (Hcrop N1 M2) as (c & Hc' & Hs); [ lia | lia | ];
        rewrite Hc'; simpl bind;
        apply (Hpad c N1 M2 Hs (Hne _ _ _ Hs)); lia
      | (* rows shrink, columns grow *)
        destruct (Hcrop M1 N2) as (c & Hc' & Hs); [ lia | lia | ];
        rewrite Hc'; simpl bind;
        apply (Hpad c M1 N2 Hs (Hne _ _ _ Hs)); lia ].
Qed.

(** A 3x3 image resized to 2x5: rows are cropped, columns padded. *)
Lemma resize_with_crop_or_pad_has_requested_shape_witness :
  exists resized : list (list Z),
    resize_with_crop_or_pad (Image Samples.image_3x3) [2; 5] 0
      = Ok (Image resized)
    /\ has_shape 2 5 resized.
Proof.
  apply (resize_with_crop_or_pad_has_requested_shape Z 0 Samples.image_3x3 2 5);
    [ repeat constructor | lia | lia ].
Defined.

(** X8: resizing a rectangular image to its own shape returns the image. *)
Theorem resize_to_own_shape_is_identity
  (A : Type) (fill : A) (img : list (list A)) :
  rectangular img ->
  resize_with_crop_or_pad (Image img) (shape (Image img)) fill = Ok (Image img).
Proof.
  intros Hrect. unfold resize_with_crop_or_pad, shape.
  destruct (shape2 img) as [N1 N2] eqn:Es. simpl fst. simpl snd.
  rewrite !Z.leb_refl. simpl andb. cbv iota.
  rewrite crop_image, Es. simpl fst. simpl snd. do 2 f_equal.
  pose proof (crop_window_of_own_shape img Hrect) as Hown.
  rewrite Es in Hown. exact Hown.
Qed.

Lemma resize_to_own_shape_is_identity_witness :
  resize_with_crop_or_pad (Image Samples.image_3x3)
    (shape (Image Samples.image_3x3)) 0
  = Ok (Image Samples.image_3x3).
Proof.
  apply (resize_to_own_shape_is_identity Z 0 Samples.image_3x3).
  repeat constructor.
Defined.

Lemma slice_len_below (n a b : Z) :
  0 <= n -> 0 <= a -> b <= n - 1 -> slice_len n a b <= Z.max 0 (n - 1).
Proof.
  intros Hn Ha Hb. unfold slice_len, adjust_index.
  destruct (Z.ltb_spec a 0); destruct (Z.ltb_spec b 0); lia.
Qed.

(** X9: a crop around a centre never raises, and never returns a whole
    axis of the image: it has at most [N - 1] rows and columns (the upper
    bounds are clamped to [N - 1] and then excluded by the slice); so when
    the requested crop is as large as an axis that is not empty, the caller
    is warned. *)
Theorem crop_to_shape_with_center_never_spans_an_axis
  (A : Type) (image : list (list A)) (h w xc yc : Z) :
  rectangular image ->
  exists (cropped : list (list A)) (warnings : list warning),
    crop_to_shape_with_center (Image image) [h; w] (xc, yc) = Ok (cropped, warnings)
    /\ Z.of_nat (length cropped) <= Z.max 0 (fst (shape2 image) - 1)
    /\ Forall (fun r => Z.of_nat (length r) <= Z.max 0 (snd (shape2 image) - 1))
              cropped
    /\ (0 < fst (shape2 image) <= h \/ 0 < snd (shape2 image) <= w ->
        warnings = [UserWarning]).
Proof.
  intros Hrect.
  set (y0 := Z.max (yc - h / 2) 0).
  set (yn := Z.min (xc + w / 2 + w mod 2) (fst (shape2 image) - 1)).
  set (x0 := Z.max (xc - w / 2) 0).
  set (xn := Z.min (yc + h / 2 + h mod 2) (snd (shape2 image) - 1)).
  assert (Hb : center_bounds image h w xc yc = (y0, yn, x0, xn)) by reflexivity.
  destruct (index2_shape image y0 yn x0 xn Hrect) as [Hl Hr].
  assert (Hs1 : fst (cropped_shape image (y0, yn, x0, xn))
                <= Z.max 0 (fst (shape2 image) - 1)).
  { unfold cropped_shape. cbn [fst snd].
    apply slice_len_below; unfold y0, yn, shape2; cbn [fst snd]; lia. }
  assert (Hs2 : snd (cropped_shape image (y0, yn, x0, xn))
                <= Z.max 0 (snd (shape2 image) - 1)).
  { unfold cropped_shape. cbn [fst snd].
    apply slice_len_below; unfold x0, xn, shape2; cbn [fst snd]; lia. }
  unfold crop_to_shape_with_center. rewrite Hb.
  destruct (shape_eqb (cropped_shape image (y0, yn, x0, xn)) (h, w)) eqn:Eshape;
    simpl negb; cbv iota.
  - exists (index2 image y0 yn x0 xn), []. split; [ reflexivity | ].
    split; [ lia | ]. split.
    + rewrite Forall_forall in *. intros r Hin. rewrite (Hr r Hin). exact Hs2.
    + apply shape_eqb_eq in Eshape. rewrite Eshape in Hs1, Hs2.
      cbn [fst snd] in Hs1, Hs2. lia.
  - exists (index2 image y0 yn x0 xn), [UserWarning]. split; [ reflexivity | ].
    split; [ lia | ]. split; [ | reflexivity ].
    rewrite Forall_forall in *. intros r Hin. rewrite (Hr r Hin). exact Hs2.
Qed.

(** A crop of 3x3 around the middle of a 3x3 image. *)
Lemma crop_to_shape_with_center_never_spans_an_axis_witness :
  exists (cropped : list (list Z)) (warnings : list warning),
    crop_to_shape_with_center (Image Samples.image_3x3) [3; 3] (1, 1)
      = Ok (cropped, warnings)
    /\ Z.of_nat (length cropped) <= Z.max 0 (fst (shape2 Samples.image_3x3) - 1)
    /\ Forall (fun r => Z.of_nat (length r)
                        <= Z.max 0 (snd (shape2 Samples.image_3x3) - 1))
              cropped
    /\ (0 < fst (shape2 Samples.image_3x3) <= 3
        \/ 0 < snd (shape2 Samples.image_3x3) <= 3 ->
        warnings = [UserWarning]).
Proof.
  apply (crop_to_shape_with_center_never_spans_an_axis Z Samples.image_3x3 3 3 1 1).
  repeat constructor.
Defined.

(** X10: when no bound is clamped, a crop around [(xc, yc)] has
    [xc - yc + h // 2 + w // 2 + w % 2] rows and
    [yc - xc + w // 2 + h // 2 + h % 2] columns (the lower bounds take the
    centre of one axis and the upper bounds that of the other), and it
    comes without a warning exactly when these are [h] and [w]. *)
Theorem crop_to_shape_with_center_shape_away_from_edges
  (A : Type) (image : list (list A)) (h w xc yc : Z) :
  rectangular image ->
  0 <= yc - h / 2 <= xc + w / 2 + w mod 2 ->
  xc + w / 2 + w mod 2 <= fst (shape2 image) - 1 ->
  0 <= xc - w / 2 <= yc + h / 2 + h mod 2 ->
  yc + h / 2 + h mod 2 <= snd (shape2 image) - 1 ->
  exists (cropped : list (list A)) (warnings : list warning),
    crop_to_shape_with_center (Image image) [h; w] (xc, yc) = Ok (cropped, warnings)
    /\ has_shape (xc - yc + h / 2 + w / 2 + w mod 2)
                 (yc - xc + w / 2 + h / 2 + h mod 2) cropped
    /\ (warnings = [] <->
        xc - yc + h / 2 + w / 2 + w mod 2 = h
        /\ yc - xc + w / 2 + h / 2 + h mod 2 = w).
Proof.
  intros Hrect Hy Hyn Hx Hxn.
  assert (Hb : center_bounds image h w xc yc =
               (yc - h / 2, xc + w / 2 + w mod 2,
                xc - w / 2, yc + h / 2 + h mod 2)).
  { unfold center_bounds. now rewrite !Z.max_l, !Z.min_l by lia. }
  set (b := (yc - h / 2, xc + w / 2 + w mod 2,
             xc - w / 2, yc + h / 2 + h mod 2)) in *.
  assert (Hshape : cropped_shape image b =
                   (xc - yc + h / 2 + w / 2 + w mod 2,
                    yc - xc + w / 2 + h / 2 + h mod 2)).
  { unfold b, cropped_shape, slice_len.
    rewrite !adjust_index_inside by lia. f_equal; lia. }
  assert (Hhas : has_shape (xc - yc + h / 2 + w / 2 + w mod 2)
                           (yc - xc + w / 2 + h / 2 + h mod 2)
                           (index2 image (yc - h / 2) (xc + w / 2 + w mod 2)
                                   (xc - w / 2) (yc + h / 2 + h mod 2))).
  { replace (xc - yc + h / 2 + w / 2 + w mod 2)
      with (xc + w / 2 + w mod 2 - (yc - h / 2)) by lia.
    replace (yc - xc + w / 2 + h / 2 + h mod 2)
      with (yc + h / 2 + h mod 2 - (xc - w / 2)) by lia.
    apply has_shape_index2; try assumption; lia. }
  unfold crop_to_shape_with_center. rewrite Hb. unfold b at 1.
  fold b. rewrite Hshape.
  destruct (shape_eqb _ (h, w)) eqn:Eshape; simpl negb; cbv iota.
  - eexists _, []. split; [ reflexivity | ]. split; [ exact Hhas | ].
    apply shape_eqb_eq in Eshape. injection Eshape as E1 E2.
    split; [ intros _; split; assumption | reflexivity ].
  - eexists _, [UserWarning]. split; [ reflexivity | ]. split; [ exact Hhas | ].
    split; [ discriminate | ].
    intros [E1 E2]. rewrite E1, E2 in Eshape.
    assert (Ht : shape_eqb (h, w) (h, w) = true) by now apply shape_eqb_eq.
    congruence.
Qed.

(** A crop of 1x1 around [(xc, yc) = (1, 0)] in a 3x3 image has two rows
    and no column. *)
Lemma crop_to_shape_with_center_shape_away_from_edges_witness :
  exists (cropped : list (list Z)) (warnings : list warning),
    crop_to_shape_with_center (Image Samples.image_3x3) [1; 1] (1, 0)
      = Ok (cropped, warnings)
    /\ has_shape (1 - 0 + 1 / 2 + 1 / 2 + 1 mod 2)
                 (0 - 1 + 1 / 2 + 1 / 2 + 1 mod 2) cropped
    /\ (warnings = [] <->
        1 - 0 + 1 / 2 + 1 / 2 + 1 mod 2 = 1
        /\ 0 - 1 + 1 / 2 + 1 / 2 + 1 mod 2 = 1).
Proof.
  apply (crop_to_shape_with_center_shape_away_from_edges
           Z Samples.image_3x3 1 1 1 0);
    [ repeat constructor | compare_integers | compare_integers
    | compare_integers | compare_integers ].
Defined.

(** X11: on a square image, a crop to a square around the centre
    [(N // 2, N // 2)] that stays clear of the last row and column is the
    crop that [crop_to_shape] returns, and comes without a warning. *)
Theorem crop_to_shape_with_center_agrees_on_squares
  (A : Type) (image : list (list A)) (N s : Z) :
  rectangular image ->
  shape2 image = (N, N) ->
  0 <= s -> N / 2 + s / 2 + s mod 2 <= N - 1 ->
  exists cropped : list (list A),
    crop_to_shape (Image image) [s; s] = Ok (Image cropped)
    /\ crop_to_shape_with_center (Image image) [s; s] (N / 2, N / 2)
       = Ok (cropped, [])
    /\ has_shape s s cropped.
Proof.
  intros Hrect Hsq Hs Hfit.
  assert (HN : fst (shape2 image) = N /\ snd (shape2 image) = N)
    by (now rewrite Hsq).
  destruct HN as [HN1 HN2].
  exists (index2 image (N / 2 - s / 2) (N / 2 + s / 2 + s mod 2)
                 (N / 2 - s / 2) (N / 2 + s / 2 + s mod 2)).
  split; [ | split ].
  - rewrite crop_image, HN1, HN2. reflexivity.
  - unfold crop_to_shape_with_center, center_bounds. rewrite HN1, HN2.
    rewrite Z.max_l, Z.min_l by (Z.div_mod_to_equations; lia).
    unfold cropped_shape, slice_len. rewrite HN1, HN2.
    rewrite !adjust_index_inside by (Z.div_mod_to_equations; lia).
    replace (Z.max 0 (N / 2 + s / 2 + s mod 2 - (N / 2 - s / 2))) with s
      by (Z.div_mod_to_equations; lia).
    replace (shape_eqb (s, s) (s, s)) with true
      by (symmetry; now apply shape_eqb_eq).
    reflexivity.
  - replace s with (N / 2 + s / 2 + s mod 2 - (N / 2 - s / 2)) at 1 2
      by (Z.div_mod_to_equations; lia).
    apply has_shape_index2; try assumption; rewrite ?HN1, ?HN2;
      Z.div_mod_to_equations; lia.
Qed.

(** The middle pixel of a 3x3 image, cropped either way. *)
Lemma crop_to_shape_with_center_agrees_on_squares_witness :
  exists cropped : list (list Z),
    crop_to_shape (Image Samples.image_3x3) [1; 1] = Ok (Image cropped)
    /\ crop_to_shape_with_center (Image Samples.image_3x3) [1; 1] (3 / 2, 3 / 2)
       = Ok (cropped, [])
    /\ has_shape 1 1 cropped.
Proof.
  apply (crop_to_shape_with_center_agrees_on_squares Z Samples.image_3x3 3 1);
    [ repeat constructor | reflexivity | lia | compare_integers ].
Defined.

(** X12: cropping a volume whose planes have one shape keeps the planes of
    the centre window of the first axis and crops each of them as
    [crop_to_shape] crops an image. *)
Theorem crop_to_shape_of_volume_is_planewise
  (A : Type) (volume : list (list (list A))) (d h w : Z) :
  (forall p, In p volume -> shape2 p = shape2 (hd [] volume)) ->
  exists planes : list (list (list A)),
    crop_to_shape (Volume volume) [d; h; w] = Ok (Volume planes)
    /\ Z.of_nat (length planes) =
         slice_len (Z.of_nat (length volume))
           (Z.of_nat (length volume) / 2 - d / 2)
           (Z.of_nat (length volume) / 2 + d / 2 + d mod 2)
    /\ Forall2 (fun p q => crop_to_shape (Image p) [h; w] = Ok (Image q))
         (slice volume (Z.of_nat (length volume) / 2 - d / 2)
                       (Z.of_nat (length volume) / 2 + d / 2 + d mod 2))
         planes.
Proof.
  intros Hsame. eexists. split; [ reflexivity | ].
  unfold index3. split.
  - rewrite length_map. apply length_slice.
  - set (kept := slice volume _ _).
    assert (Hkept : forall p, In p kept -> shape2 p = shape2 (hd [] volume)).
    { intros p Hp. apply Hsame. apply (In_slice _ _ _ _ Hp). }
    clearbody kept. induction kept as [|p kept IH]; simpl; constructor.
    + rewrite crop_image, (Hkept p (or_introl eq_refl)). reflexivity.
    + apply IH. intros q Hq. apply Hkept. now right.
Qed.

(** A volume of two planes of 3x3, cropped to one plane of 1x1. *)
Lemma crop_to_shape_of_volume_is_planewise_witness :
  exists planes : list (list (list Z)),
    crop_to_shape (Volume [Samples.image_3x3; Samples.image_3x3]) [1; 1; 1]
      = Ok (Volume planes)
    /\ Z.of_nat (length planes) =
         slice_len (Z.of_nat (length [Samples.image_3x3; Samples.image_3x3]))
           (Z.of_nat (length [Samples.image_3x3; Samples.image_3x3]) / 2 - 1 / 2)
           (Z.of_nat (length [Samples.image_3x3; Samples.image_3x3]) / 2
            + 1 / 2 + 1 mod 2)
    /\ Forall2 (fun p q => crop_to_shape (Image p) [1; 1] = Ok (Image q))
         (slice [Samples.image_3x3; Samples.image_3x3]
            (Z.of_nat (length [Samples.image_3x3; Samples.image_3x3]) / 2 - 1 / 2)
            (Z.of_nat (length [Samples.image_3x3; Samples.image_3x3]) / 2
             + 1 / 2 + 1 mod 2))
         planes.
Proof.
  apply (crop_to_shape_of_volume_is_planewise
           Z [Samples.image_3x3; Samples.image_3x3] 1 1 1).
  intros p [<- | [<- | []]]; reflexivity.
Defined.

(** X13: padding a volume to its own shape returns the volume. *)
Theorem pad_volume_to_own_shape_is_identity
  (A : Type) (fill : A) (volume : list (list (list A))) :
  pad_to_shape (Volume volume) (shape (Volume volume)) fill = Ok (Volume volume).
Proof.
  unfold pad_to_shape, shape, jnp_pad, jnp_pad3, negative_width.
  simpl negb. cbv iota. rewrite !Z.sub_diag.
  change (0 / 2) with 0. change (0 / 2 + 0 mod 2) with 0.
  simpl. do 2 f_equal. rewrite pad1_nothing.
  rewrite <- (map_id volume) at 2. apply map_ext. intros p.
  now rewrite pad1_nothing, map_pad1_nothing.
Qed.
End EdgesMore.

(** ** The masks, value by value *)

Module MasksMore.
Import Py Scalar Masks MasksFacts MaskOperators.
Local Open Scope R_scope.

Lemma compute_edge_fn_range (x s w : R) : 0 <= compute_edge_fn x s w <= 1.
Proof.
  unfold compute_edge_fn.
  pose proof (COS_bound (PI * (x - s / 2) / w)) as [Hlo Hhi]. lra.
Qed.

Lemma square_mask_at_coordinate_range (s w : R) (c : R * R) :
  0 <= square_mask_at_coordinate s w c <= 1.
Proof.
  destruct c as [x y]. unfold square_mask_at_coordinate.
  pose proof (compute_edge_fn_range x s w) as Hx.
  pose proof (compute_edge_fn_range y s w) as Hy.
  destruct (is_in_square_fn x y s); [ lra | ].
  destruct (is_in_square_fn x y (s + 2 * w)); [ | lra ].
  destruct (is_in_edge_fn x s w); destruct (is_in_edge_fn y s w); simpl; try lra.
  split; [ apply Rmult_le_pos; lra | ].
  replace 1 with (1 * 1) by ring. apply Rmult_le_compat; lra.
Qed.

(** X14: every value of a square cosine mask lies between 0 and 1,
    whatever the grid, the side length and the rolloff width. *)
Theorem square_mask_values_are_weights
  (grid : grid2 (R * R)) (s w : R) :
  Forall (Forall (fun m => 0 <= m <= 1)) (_compute_square_mask grid s w).
Proof.
  unfold _compute_square_mask, vmap2.
  rewrite Forall_forall. intros row Hrow. apply in_map_iff in Hrow.
  destruct Hrow as (r0 & <- & _). rewrite Forall_forall. intros m Hm.
  apply in_map_iff in Hm. destruct Hm as (c & <- & _).
  apply square_mask_at_coordinate_range.
Qed.

Lemma Rabs_band_not_core (x s w : R) :
  s / 2 < Rabs x < s / 2 + w ->
  Rleb (Rabs x) (s / 2) = false /\ Rleb (Rabs x) (s / 2 + w) = true
  /\ is_in_edge_fn x s w = true.
Proof.
  intros H. unfold is_in_edge_fn, Rgtb.
  rewrite Rleb_false, Rleb_true, !Rltb_true by lra. auto.
Qed.

Lemma Rabs_core_not_band (y s w : R) :
  0 <= w -> Rabs y <= s / 2 ->
  Rleb (Rabs y) (s / 2) = true /\ Rleb (Rabs y) (s / 2 + w) = true
  /\ is_in_edge_fn y s w = false.
Proof.
  intros Hw H. unfold is_in_edge_fn, Rgtb.
  rewrite !Rleb_true, (Rltb_false (s / 2) (Rabs y)) by lra. auto.
Qed.

(** X15: at a point that lies in the soft band of one axis and in the core
    of the other, the square mask does not depend on which of the two axes
    is in the band.  On the positive side of the band it is the cosine
    taper of the band at the distance from the axis; on the negative side
    the taper is evaluated at the coordinate itself, which gives the value
    the taper has at that distance plus the side length. *)
Theorem square_mask_in_one_band (s w x y : R) :
  0 <= w ->
  s / 2 < Rabs x < s / 2 + w -> Rabs y <= s / 2 ->
  square_mask_at_coordinate s w (x, y) = square_mask_at_coordinate s w (y, x)
  /\ (0 <= x ->
      square_mask_at_coordinate s w (x, y) = cosine_taper (s / 2) w (Rabs x))
  /\ (x < 0 ->
      square_mask_at_coordinate s w (x, y) = cosine_taper (s / 2) w (Rabs x + s)).
Proof.
  intros Hw Hx Hy.
  destruct (Rabs_band_not_core x s w Hx) as (Hx1 & Hx2 & Hx3).
  destruct (Rabs_core_not_band y s w Hw Hy) as (Hy1 & Hy2 & Hy3).
  assert (Hxy : square_mask_at_coordinate s w (x, y) = compute_edge_fn x s w
                /\ square_mask_at_coordinate s w (y, x) = compute_edge_fn x s w).
  { unfold square_mask_at_coordinate, is_in_square_fn.
    replace ((s + 2 * w) / 2) with (s / 2 + w) by field.
    rewrite Hx1, Hx2, Hx3, Hy1, Hy2, Hy3. simpl. split; reflexivity. }
  destruct Hxy as [Hxy Hyx].
  split; [ congruence | split ].
  - intros Hpos. rewrite Hxy, Rabs_pos_eq by assumption. reflexivity.
  - intros Hneg. rewrite Hxy, Rabs_left by assumption.
    unfold compute_edge_fn, cosine_taper.
    replace (PI * (x - s / 2) / w) with (- (PI * (- x + s - s / 2) / w))
      by (field; lra).
    now rewrite cos_neg.
Qed.

(** A side length of 2 and a rolloff width of 3: the point [(-2, 0)] lies in
    the band of the first axis, on its negative side. *)
Lemma square_mask_in_one_band_witness :
  square_mask_at_coordinate 2 3 (-2, 0) = cosine_taper (2 / 2) 3 (Rabs (-2) + 2).
Proof.
  destruct (square_mask_in_one_band 2 3 (-2) 0) as (_ & _ & Hneg).
  - lra.
  - rewrite Rabs_left; lra.
  - rewrite Rabs_R0. lra.
  - apply Hneg. lra.
Defined.

(** There the mask is 0, where the taper of the band is 3/4, the value the
    mask has at the mirror image [(2, 0)]. *)
Example square_mask_in_the_negative_band :
  square_mask_at_coordinate 2 3 (-2, 0) = 0
  /\ square_mask_at_coordinate 2 3 (2, 0) = 3 / 4
  /\ cosine_taper (2 / 2) 3 (Rabs (-2)) = 3 / 4.
Proof.
  assert (Hp : cos (PI * (2 - 2 / 2) / 3) = 1 / 2).
  { replace (PI * (2 - 2 / 2) / 3) with (PI / 3) by field. apply cos_PI3. }
  assert (Hn : cos (PI * (-2 - 2 / 2) / 3) = -1).
  { replace (PI * (-2 - 2 / 2) / 3) with (- PI) by field.
    rewrite cos_neg. apply cos_PI. }
  assert (Hband : forall x : R, Rabs x = 2 ->
            square_mask_at_coordinate 2 3 (x, 0) = compute_edge_fn x 2 3).
  { intros x Hx.
    destruct (Rabs_band_not_core x 2 3) as (Hx1 & Hx2 & Hx3); [ lra | ].
    destruct (Rabs_core_not_band 0 2 3) as (Hy1 & Hy2 & Hy3);
      [ lra | rewrite Rabs_R0; lra | ].
    unfold square_mask_at_coordinate, is_in_square_fn.
    replace ((2 + 2 * 3) / 2) with (2 / 2 + 3) by field.
    rewrite Hx1, Hx2, Hx3, Hy1, Hy2, Hy3. reflexivity. }
  split; [ | split ].
  - rewrite Hband by (rewrite Rabs_left; lra).
    unfold compute_edge_fn. rewrite Hn. lra.
  - rewrite Hband by (rewrite Rabs_pos_eq; lra).
    unfold compute_edge_fn. rewrite Hp. lra.
  - rewrite Rabs_left by lra. unfold cosine_taper.
    replace (- -2 - 2 / 2) with (2 - 2 / 2) by lra. rewrite Hp. lra.
Qed.

Lemma nth_error_map2 {X Y W : Type} (f : X -> Y -> W)
  (l1 : list X) (l2 : list Y) (k : nat) :
  nth_error (map2 f l1 l2) k =
    match nth_error l1 k, nth_error l2 k with
    | Some x, Some y => Some (f x y)
    | _, _ => None
    end.
Proof.
  revert l2 k. induction l1 as [|x l1 IH]; intros [|y l2] [|k]; simpl; auto.
  now destruct (nth_error l1 k).
Qed.

Lemma entry_zip2 {X Y W : Type} (f : X -> Y -> W)
  (a : list (list X)) (b : list (list Y)) (i j : nat) (x : X) (y : Y) :
  entry a i j = Some x -> entry b i j = Some y ->
  entry (zip2 f a b) i j = Some (f x y).
Proof.
  unfold entry, zip2. rewrite nth_error_map2.
  destruct (nth_error a i) as [ra|]; [ | discriminate ].
  destruct (nth_error b i) as [rb|]; [ | discriminate ].
  intros Hx Hy. now rewrite nth_error_map2, Hx, Hy.
Qed.

Lemma entry_vmap2 {X Y : Type} (f : X -> Y) (g : grid2 X) (i j : nat) :
  entry (vmap2 _ _ f g) i j = option_map f (entry g i j).
Proof.
  unfold entry, vmap2. rewrite nth_error_map.
  destruct (nth_error g i) as [r|]; simpl; [ apply nth_error_map | reflexivity ].
Qed.

Lemma has_shape_zip2 {X Y W : Type} (f : X -> Y -> W) (n m : Z)
  (a : list (list X)) (b : list (list Y)) :
  has_shape n m a -> has_shape n m b -> has_shape n m (zip2 f a b).
Proof.
  intros [Han Ham] [Hbn Hbm]. unfold zip2. split.
  - rewrite (GaussianFacts.length_map2 (map2 f) a b) by lia. exact Han.
  - clear Han Hbn. revert b Hbm.
    induction Ham as [|r a Hr Ham IH]; intros [|q b] Hbm; simpl; constructor.
    + apply Forall_cons_iff in Hbm. destruct Hbm as [Hq Hb].
      rewrite (GaussianFacts.length_map2 f r q) by lia. exact Hr.
    + apply Forall_cons_iff in Hbm. destruct Hbm as [Hq Hb]. now apply IH.
Qed.

Lemma has_shape_vmap2 {X Y : Type} (f : X -> Y) (n m : Z) (g : grid2 X) :
  has_shape n m g -> has_shape n m (vmap2 _ _ f g).
Proof.
  intros [Hn Hm]. unfold vmap2. split.
  - now rewrite length_map.
  - rewrite Forall_forall in *. intros r Hr. apply in_map_iff in Hr.
    destruct Hr as (r0 & <- & Hr0). rewrite length_map. now apply Hm.
Qed.

(** X16: on an image of the shape of the coordinate grid, applying a square
    cosine mask gives an image of that shape, multiplies each pixel by the
    mask value at its coordinate, and never increases its magnitude. *)
Theorem square_cosine_mask_attenuates
  (grid : grid2 (R * R)) (s w : R) (image : grid2 R) (n m : Z)
  (i j : nat) (p : R) (c : R * R) :
  has_shape n m image -> has_shape n m grid ->
  entry image i j = Some p -> entry grid i j = Some c ->
  has_shape n m (call (SquareCosineMask grid s w) image)
  /\ entry (call (SquareCosineMask grid s w) image) i j =
       Some (p * square_mask_at_coordinate s w c)
  /\ Rabs (p * square_mask_at_coordinate s w c) <= Rabs p.
Proof.
  intros Himage Hgrid Hp Hc. split; [ | split ].
  - unfold call, stop_gradient, SquareCosineMask, _compute_square_mask.
    apply has_shape_zip2; [ exact Himage | now apply has_shape_vmap2 ].
  - unfold call, stop_gradient, SquareCosineMask, _compute_square_mask.
    apply entry_zip2; [ exact Hp | ]. now rewrite entry_vmap2, Hc.
  - pose proof (square_mask_at_coordinate_range s w c) as [Hlo Hhi].
    rewrite Rabs_mult, (Rabs_pos_eq _ Hlo).
    pose proof (Rabs_pos p).
    replace (Rabs p) with (Rabs p * 1) at 2 by ring.
    apply Rmult_le_compat_l; assumption.
Qed.

(** An image of 1x2 pixels on a grid with a point at the origin and a point
    outside the padded square. *)
Lemma square_cosine_mask_attenuates_witness :
  has_shape 1 2 (call (SquareCosineMask [[(0, 0); (5, 0)]] 2 1) [[3; 4]])
  /\ entry (call (SquareCosineMask [[(0, 0); (5, 0)]] 2 1) [[3; 4]]) 0 1 =
       Some (4 * square_mask_at_coordinate 2 1 (5, 0))
  /\ Rabs (4 * square_mask_at_coordinate 2 1 (5, 0)) <= Rabs 4.
Proof.
  apply (square_cosine_mask_attenuates [[(0, 0); (5, 0)]] 2 1 [[3; 4]] 1 2
           0 1 4 (5, 0));
    first [ reflexivity | split; [ reflexivity | repeat constructor ] ].
Defined.

(** X17: the buffer of a circular mask holds, at each grid point, a grid of
    as many rows as the coordinate grid, and the item of that grid at the
    same point is the value the mask should have there: 1 inside the
    radius, 0 beyond the rolloff band and the cosine taper between. *)
Theorem circular_mask_diagonal
  (g : grid2 (list R)) (radius rolloff_width : R) (i j : nat) (v : list R) :
  entry g i j = Some v ->
  exists at_point : grid2 R,
    entry (compute_circular_or_spherical grid2 vmap2 g radius rolloff_width) i j
      = Some at_point
    /\ length at_point = length g
    /\ entry at_point i j =
         Some (if Rleb (norm v) radius then 1
               else if Rgtb (norm v) (radius + rolloff_width) then 0
                    else cosine_taper radius rolloff_width (norm v)).
Proof.
  intros Hv. rewrite circular_mask_at_each_point, entry_vmap2, Hv. simpl.
  eexists. split; [ reflexivity | ].
  destruct (Rleb (norm v) radius);
    [ | destruct (Rgtb (norm v) (radius + rolloff_width)) ];
    (split; [ unfold vmap2; apply length_map | now rewrite entry_vmap2, Hv ]).
Qed.

(** A grid of one point, at the origin. *)
Lemma circular_mask_diagonal_witness :
  exists at_point : grid2 R,
    entry (compute_circular_or_spherical grid2 vmap2 [[[0; 0]]] 1 1) 0 0
      = Some at_point
    /\ length at_point = length [[[0; 0]]]
    /\ entry at_point 0 0 =
         Some (if Rleb (norm [0; 0]) 1 then 1
               else if Rgtb (norm [0; 0]) (1 + 1) then 0
                    else cosine_taper 1 1 (norm [0; 0])).
Proof.
  apply (circular_mask_diagonal [[[0; 0]]] 1 1 0 0 [0; 0]). reflexivity.
Defined.
End MasksMore.

(** ** The projection, item by item *)

Module NufftMore.
Import Py Scalar Nufft PyFacts NufftFacts.
Local Open Scope Z_scope.

Section Lookups.
Context {X : Type}.
Implicit Types (l : list X) (f : X -> X).

Lemma nth_error_update_nth_at (n k : nat) f l :
  nth_error (update_nth n f l) k =
    if (k =? n)%nat then option_map f (nth_error l k) else nth_error l k.
Proof.
  revert n k. induction l as [|x l IH]; intros [|n] [|k]; simpl; auto.
  now destruct (k =? n)%nat.
Qed.

Lemma nth_error_at_update_at l (i : Z) f (k : nat) :
  0 <= i < Z.of_nat (length l) ->
  nth_error (at_update l i f) k =
    if Z.of_nat k =? i then option_map f (nth_error l k) else nth_error l k.
Proof.
  intros Hi. unfold at_update.
  replace (i <? 0) with false by (symmetry; apply Z.ltb_ge; lia).
  replace ((0 <=? i) && (i <? Z.of_nat (length l))) with true
    by (symmetry; apply andb_true_iff; split;
        [ apply Z.leb_le | apply Z.ltb_lt ]; lia).
  rewrite nth_error_update_nth_at.
  destruct (Nat.eqb_spec k (Z.to_nat i)); destruct (Z.eqb_spec (Z.of_nat k) i);
    try lia; reflexivity.
Qed.

Lemma nth_error_at_update_last l (v : X) (k : nat) :
  (k < length l)%nat ->
  nth_error (at_update l (-1) (fun _ => v)) k =
    if (S k =? length l)%nat then Some v else nth_error l k.
Proof.
  intros Hk. unfold at_update.
  replace (-1 <? 0) with true by reflexivity.
  replace ((0 <=? -1 + Z.of_nat (length l))
           && (-1 + Z.of_nat (length l) <? Z.of_nat (length l))) with true
    by (symmetry; apply andb_true_iff; split;
        [ apply Z.leb_le | apply Z.ltb_lt ]; lia).
  rewrite nth_error_update_nth_at.
  destruct (Nat.eqb_spec k (Z.to_nat (-1 + Z.of_nat (length l))));
    destruct (Nat.eqb_spec (S k) (length l)); try lia; [ | reflexivity ].
  destruct (nth_error l k) eqn:E; [ reflexivity | ].
  apply nth_error_None in E. lia.
Qed.

(** After the shift, place [i] holds what was at [(i + k) mod n]. *)
Lemma nth_error_roll_left (k i : nat) l :
  (k <= length l)%nat -> (i < length l)%nat ->
  nth_error (roll_left k l) i = nth_error l ((i + k) mod length l).
Proof.
  intros Hk Hi. unfold roll_left.
  destruct (Nat.lt_ge_cases i (length l - k)) as [Hlt | Hge].
  - rewrite nth_error_app1 by (rewrite length_skipn; lia).
    rewrite nth_error_skipn, Nat.mod_small by lia. f_equal. lia.
  - rewrite nth_error_app2 by (rewrite length_skipn; lia).
    rewrite length_skipn, nth_error_firstn.
    replace (i - (length l - k) <? k)%nat with true
      by (symmetry; apply Nat.ltb_lt; lia).
    f_equal.
    replace (i + k)%nat with ((i + k - length l) + 1 * length l)%nat by lia.
    rewrite Nat.Div0.mod_add, Nat.mod_small by lia. lia.
Qed.
End Lookups.

Lemma entry_ifftshift {X : Type} (n m : Z) (a : list (list X)) (i j : nat) :
  has_shape n m a -> Z.of_nat i < n -> Z.of_nat j < m ->
  entry (ifftshift a) i j =
    entry a (Z.to_nat ((Z.of_nat i + n / 2) mod n))
            (Z.to_nat ((Z.of_nat j + m / 2) mod m)).
Proof.
  intros [Hn Hm] Hi Hj. unfold entry, ifftshift, ifftshift1 at 1.
  rewrite length_map.
  assert (Hhalf : (length a / 2 <= length a)%nat) by (apply Nat.Div0.div_le_upper_bound; lia).
  rewrite nth_error_roll_left by (rewrite ?length_map; lia).
  rewrite length_map, nth_error_map.
  replace ((i + length a / 2) mod length a)%nat
    with (Z.to_nat ((Z.of_nat i + n / 2) mod n)).
  2:{ subst n. rewrite <- (Nat2Z.id ((i + length a / 2) mod length a)).
      f_equal. rewrite Nat2Z.inj_mod, Nat2Z.inj_add, Nat2Z.inj_div. reflexivity. }
  destruct (nth_error a (Z.to_nat ((Z.of_nat i + n / 2) mod n))) as [r|] eqn:Er;
    simpl; [ | reflexivity ].
  rewrite Forall_forall in Hm. specialize (Hm r (nth_error_In _ _ Er)).
  unfold ifftshift1.
  assert (Hhalf' : (length r / 2 <= length r)%nat) by (apply Nat.Div0.div_le_upper_bound; lia).
  rewrite nth_error_roll_left by lia. f_equal.
  subst m. rewrite <- (Nat2Z.id ((j + length r / 2) mod length r)).
  f_equal. rewrite Nat2Z.inj_mod, Nat2Z.inj_add, Nat2Z.inj_div. reflexivity.
Qed.

Section Entries.
Variable nufft1 :
  Z * Z -> list C -> list R -> list R -> R -> Z -> list (list C).
Hypothesis nufft1_shape : returns_shape nufft1.
Variables (weights : list R) (coordinate_list : CloudCoords) (eps : R).
Variables M1 M2 : Z.
Hypothesis M1_pos : 0 < M1.
Hypothesis M2_pos : 0 < M2.

Let full :=
  nufft1 (M1, M2) (map RtoC weights)
    (map snd (coordinates_periodic coordinate_list (M1, M2)))
    (map fst (coordinates_periodic coordinate_list (M1, M2))) eps (-1).

Let half := map (fun r => slice_to r (M2 / 2 + 1)) (ifftshift full).

Lemma entry_of_half (i k : nat) :
  Z.of_nat i < M1 -> Z.of_nat k <= M2 / 2 ->
  entry half i k =
    entry full (Z.to_nat ((Z.of_nat i + M1 / 2) mod M1))
               (Z.to_nat ((Z.of_nat k + M2 / 2) mod M2)).
Proof.
  intros Hi Hk.
  assert (Hfull : has_shape M1 M2 full) by (apply nufft1_shape; assumption).
  rewrite <- (entry_ifftshift M1 M2 full i k Hfull Hi)
    by (Z.div_mod_to_equations; lia).
  apply has_shape_ifftshift in Hfull. destruct Hfull as [Hn Hm].
  unfold half, entry. rewrite nth_error_map.
  destruct (nth_error (ifftshift full) i) as [r|] eqn:Er; simpl; [ | reflexivity ].
  rewrite Forall_forall in Hm. specialize (Hm r (nth_error_In _ _ Er)).
  unfold slice_to. rewrite nth_error_slice by (Z.div_mod_to_equations; lia).
  now replace (Z.of_nat k <? M2 / 2 + 1 - 0) with true
    by (symmetry; apply Z.ltb_lt; lia).
Qed.

Lemma entry_of_at_col_set (a : list (list C)) (i k : nat) :
  has_shape M1 (M2 / 2 + 1) a ->
  Z.of_nat i < M1 -> Z.of_nat k <= M2 / 2 ->
  entry (at_col_set a (-1) C0) i k =
    if Z.of_nat k =? M2 / 2 then Some C0 else entry a i k.
Proof.
  intros [Hn Hm] Hi Hk. unfold entry, at_col_set. rewrite nth_error_map.
  destruct (nth_error a i) as [r|] eqn:Er;
    [ | apply nth_error_None in Er; lia ].
  simpl. rewrite Forall_forall in Hm. specialize (Hm r (nth_error_In _ _ Er)).
  rewrite nth_error_at_update_last by lia.
  destruct (Nat.eqb_spec (S k) (length r)); destruct (Z.eqb_spec (Z.of_nat k) (M2 / 2));
    try lia; reflexivity.
Qed.

Lemma entry_of_at_row_set (a : list (list C)) (i k : nat) :
  has_shape M1 (M2 / 2 + 1) a ->
  Z.of_nat i < M1 -> Z.of_nat k <= M2 / 2 ->
  entry (at_row_set a (M1 / 2) C0) i k =
    if Z.of_nat i =? M1 / 2 then Some C0 else entry a i k.
Proof.
  intros [Hn Hm] Hi Hk. unfold entry, at_row_set.
  rewrite nth_error_at_update_at by (Z.div_mod_to_equations; lia).
  destruct (Z.eqb_spec (Z.of_nat i) (M1 / 2)) as [He | He]; [ | reflexivity ].
  destruct (nth_error a i) as [r|] eqn:Er;
    [ | apply nth_error_None in Er; lia ].
  simpl. rewrite Forall_forall in Hm. specialize (Hm r (nth_error_In _ _ Er)).
  rewrite nth_error_map.
  destruct (nth_error r k) eqn:Ek; [ reflexivity | ].
  apply nth_error_None in Ek. lia.
Qed.

(** Every item of the projection. *)
Lemma project_with_nufft_entry (i k : nat) :
  Z.of_nat i < M1 -> Z.of_nat k <= M2 / 2 ->
  entry (project_with_nufft nufft1 weights coordinate_list (M1, M2) eps) i k =
    if ((M2 mod 2 =? 0) && (Z.of_nat k =? M2 / 2))
       || ((M1 mod 2 =? 0) && (Z.of_nat i =? M1 / 2))
    then Some C0
    else entry full (Z.to_nat ((Z.of_nat i + M1 / 2) mod M1))
                    (Z.to_nat ((Z.of_nat k + M2 / 2) mod M2)).
Proof.
  intros Hi Hk. unfold project_with_nufft. cbv zeta. fold full. fold half.
  assert (Hhalf : has_shape M1 (M2 / 2 + 1) half).
  { unfold half. apply has_shape_half; try assumption.
    apply nufft1_shape; assumption. }
  set (cols := if M2 mod 2 =? 0 then at_col_set half (-1) C0 else half).
  assert (Hcols : has_shape M1 (M2 / 2 + 1) cols).
  { unfold cols. destruct (M2 mod 2 =? 0);
      [ now apply has_shape_at_col_set | assumption ]. }
  assert (Ecols : entry cols i k =
                  if (M2 mod 2 =? 0) && (Z.of_nat k =? M2 / 2) then Some C0
                  else entry half i k).
  { unfold cols. destruct (M2 mod 2 =? 0); simpl andb;
      [ now apply entry_of_at_col_set | reflexivity ]. }
  rewrite <- (entry_of_half i k Hi Hk).
  destruct (M1 mod 2 =? 0); simpl andb.
  - rewrite (entry_of_at_row_set cols i k Hcols Hi Hk), Ecols.
    destruct (Z.of_nat i =? M1 / 2);
      destruct ((M2 mod 2 =? 0) && (Z.of_nat k =? M2 / 2)); reflexivity.
  - rewrite Ecols, orb_false_r. reflexivity.
Qed.
End Entries.

Lemma entry_defined {X : Type} (n m : Z) (a : list (list X)) (i j : nat) :
  has_shape n m a -> Z.of_nat i < n -> Z.of_nat j < m ->
  exists x : X, entry a i j = Some x.
Proof.
  intros [Hn Hm] Hi Hj. unfold entry.
  destruct (nth_error a i) as [r|] eqn:Er;
    [ | apply nth_error_None in Er; lia ].
  rewrite Forall_forall in Hm. specialize (Hm r (nth_error_In _ _ Er)).
  destruct (nth_error r j) as [x|] eqn:Ex; [ now exists x | ].
  apply nth_error_None in Ex. lia.
Qed.

Lemma entry_in_range {X : Type} (n m : Z) (a : list (list X)) (i j : nat) (x : X) :
  has_shape n m a -> entry a i j = Some x -> Z.of_nat i < n /\ Z.of_nat j < m.
Proof.
  intros [Hn Hm] Hx. unfold entry in Hx.
  destruct (nth_error a i) as [r|] eqn:Er; [ | discriminate ].
  rewrite Forall_forall in Hm. specialize (Hm r (nth_error_In _ _ Er)).
  assert (nth_error a i <> None) by congruence.
  assert (nth_error r j <> None) by congruence.
  rewrite nth_error_Some in *. lia.
Qed.

Lemma Cabs_C0 : Cabs C0 = 0%R.
Proof.
  unfold Cabs, C0. simpl. rewrite Rmult_0_l, Rplus_0_l. apply sqrt_0.
Qed.

(** C3: on a plane of [M1] by [M2] pixels the projection has [M1] rows of
    [M2 // 2 + 1] items: it keeps the columns 0 to [M2 // 2] of the full
    spectrum shifted to have the zero frequency at the corner, and no
    other.  Item [(i, k)] is item [(i, k)] of the shifted spectrum, except
    on the Nyquist column of an even [M2] and on the Nyquist row of an even
    [M1], which are zero; so no item is larger in magnitude than the items
    of the spectrum are.  Hence [NufftProject] on a cloud of ten unit
    weights, with a configuration whose padded shape is 64x64 and whose
    rescaling keeps the shape, returns 64 rows of 33 items, with a complex
    number at each of these places. *)
Theorem project_with_nufft_keeps_the_half_spectrum_columns
  (nufft1 : Z * Z -> list C -> list R -> list R -> R -> Z -> list (list C))
  (weights : list R) (coordinate_list : CloudCoords) (eps : R) (M1 M2 : Z) :
  returns_shape nufft1 -> 0 < M1 -> 0 < M2 ->
  has_shape M1 (M2 / 2 + 1)
    (project_with_nufft nufft1 weights coordinate_list (M1, M2) eps)
  /\ (forall i k : nat,
        Z.of_nat i < M1 -> Z.of_nat k <= M2 / 2 ->
        entry (project_with_nufft nufft1 weights coordinate_list (M1, M2) eps) i k =
          if ((M2 mod 2 =? 0) && (Z.of_nat k =? M2 / 2))
             || ((M1 mod 2 =? 0) && (Z.of_nat i =? M1 / 2))
          then Some C0
          else entry (ifftshift
                        (nufft1 (M1, M2) (map RtoC weights)
                           (map snd (coordinates_periodic coordinate_list (M1, M2)))
                           (map fst (coordinates_periodic coordinate_list (M1, M2)))
                           eps (-1))) i k)
  /\ (forall B : R,
        (0 <= B)%R ->
        (forall (i k : nat) (z : C),
           entry (nufft1 (M1, M2) (map RtoC weights)
                    (map snd (coordinates_periodic coordinate_list (M1, M2)))
                    (map fst (coordinates_periodic coordinate_list (M1, M2)))
                    eps (-1)) i k = Some z ->
           (Cabs z <= B)%R) ->
        forall (i k : nat) (z : C),
          entry (project_with_nufft nufft1 weights coordinate_list (M1, M2) eps) i k
            = Some z ->
          (Cabs z <= B)%R)
  /\ (forall (cfg : ImageConfig) (coordinates : CloudCoords) (voxel_size : R),
        padded_shape cfg = (64, 64) -> keeps_shape cfg ->
        exists image : list (list C),
          call nufft1 {| config := cfg; eps := eps |}
            (RealVoxelCloudPotential (repeat 1%R 10) coordinates voxel_size)
            = Ok image
          /\ has_shape 64 33 image
          /\ forall i k : nat,
               Z.of_nat i < 64 -> Z.of_nat k < 33 ->
               exists z : C, entry image i k = Some z).
Proof.
  intros Hn H1 H2.
  set (full := nufft1 (M1, M2) (map RtoC weights)
                 (map snd (coordinates_periodic coordinate_list (M1, M2)))
                 (map fst (coordinates_periodic coordinate_list (M1, M2)))
                 eps (-1)).
  assert (Hfull : has_shape M1 M2 full) by (apply Hn; assumption).
  assert (Hshifted : forall i k : nat,
            Z.of_nat i < M1 -> Z.of_nat k < M2 ->
            entry (ifftshift full) i k =
              entry full (Z.to_nat ((Z.of_nat i + M1 / 2) mod M1))
                         (Z.to_nat ((Z.of_nat k + M2 / 2) mod M2))).
  { intros i k Hi Hk. now apply entry_ifftshift. }
  split; [ | split; [ | split ] ].
  - apply (project_with_nufft_spec nufft1 Hn); assumption.
  - intros i k Hi Hk.
    rewrite (project_with_nufft_entry nufft1 Hn weights coordinate_list eps
               M1 M2 H1 H2 i k Hi Hk).
    fold full. rewrite Hshifted by (Z.div_mod_to_equations; lia). reflexivity.
  - intros B HB Hbound i k z Hz.
    destruct (project_with_nufft_entries nufft1 Hn weights coordinate_list eps
                M1 M2 H1 H2 i k z Hz) as [-> | [Hk Hshift]].
    + now rewrite Cabs_C0.
    + fold full in Hshift.
      destruct (entry_in_range M1 M2 (ifftshift full) i k z
                  (has_shape_ifftshift M1 M2 full Hfull) Hshift) as [Hi Hk'].
      rewrite (Hshifted i k Hi Hk') in Hshift.
      exact (Hbound _ _ z Hshift).
  - intros cfg coordinates voxel_size Hshape Hkeep.
    assert (Himage : has_shape 64 33
              (rescale_to_pixel_size cfg
                 (project_with_nufft nufft1 (repeat 1%R 10) coordinates
                    (64, 64) eps) voxel_size false)).
    { apply Hkeep. apply (project_with_nufft_spec nufft1 Hn _ _ _ 64 64); lia. }
    eexists. split; [ simpl; rewrite Hshape; reflexivity | ].
    split; [ exact Himage | ].
    intros i k Hi Hk. now apply (entry_defined 64 33).
Qed.

(** Two unit weights projected onto a plane of 4x4 pixels. *)
Lemma project_with_nufft_keeps_the_half_spectrum_columns_witness :
  has_shape 4 (4 / 2 + 1)
    (project_with_nufft direct_nufft1 [1%R; 1%R]
       (CloudCoords2D [(0%R, 0%R); (1%R, 0%R)]) (4, 4) 0%R).
Proof.
  apply (project_with_nufft_keeps_the_half_spectrum_columns direct_nufft1
           [1%R; 1%R] (CloudCoords2D [(0%R, 0%R); (1%R, 0%R)]) 0%R 4 4
           has_shape_direct_nufft1); lia.
Defined.

(** X18: on a plane of [M1] by [M2] pixels, item [(i, k)] of the projection,
    for [k] up to [M2 // 2], is zero on the Nyquist column of an even [M2]
    and on the Nyquist row of an even [M1], and elsewhere it is item
    [((i + M1 // 2) mod M1, (k + M2 // 2) mod M2)] of the full spectrum that
    [nufft1] returns. *)
Theorem project_with_nufft_is_the_shifted_half_spectrum
  (nufft1 : Z * Z -> list C -> list R -> list R -> R -> Z -> list (list C))
  (weights : list R) (coordinate_list : CloudCoords) (eps : R) (M1 M2 : Z)
  (i k : nat) :
  returns_shape nufft1 -> 0 < M1 -> 0 < M2 ->
  Z.of_nat i < M1 -> Z.of_nat k <= M2 / 2 ->
  entry (project_with_nufft nufft1 weights coordinate_list (M1, M2) eps) i k =
    if ((M2 mod 2 =? 0) && (Z.of_nat k =? M2 / 2))
       || ((M1 mod 2 =? 0) && (Z.of_nat i =? M1 / 2))
    then Some C0
    else entry (nufft1 (M1, M2) (map RtoC weights)
                  (map snd (coordinates_periodic coordinate_list (M1, M2)))
                  (map fst (coordinates_periodic coordinate_list (M1, M2)))
                  eps (-1))
               (Z.to_nat ((Z.of_nat i + M1 / 2) mod M1))
               (Z.to_nat ((Z.of_nat k + M2 / 2) mod M2)).
Proof.
  intros Hn H1 H2. now apply project_with_nufft_entry.
Qed.

(** Two unit weights on a plane of 4x4 pixels: the first item of the
    projection. *)
Lemma project_with_nufft_is_the_shifted_half_spectrum_witness :
  entry (project_with_nufft direct_nufft1 [1%R; 1%R]
           (CloudCoords2D [(0%R, 0%R); (1%R, 0%R)]) (4, 4) 0%R) 0 0 =
    if ((4 mod 2 =? 0) && (Z.of_nat 0 =? 4 / 2))
       || ((4 mod 2 =? 0) && (Z.of_nat 0 =? 4 / 2))
    then Some C0
    else entry (direct_nufft1 (4, 4) (map RtoC [1%R; 1%R])
                  (map snd (coordinates_periodic
                              (CloudCoords2D [(0%R, 0%R); (1%R, 0%R)]) (4, 4)))
                  (map fst (coordinates_periodic
                              (CloudCoords2D [(0%R, 0%R); (1%R, 0%R)]) (4, 4)))
                  0%R (-1))
               (Z.to_nat ((Z.of_nat 0 + 4 / 2) mod 4))
               (Z.to_nat ((Z.of_nat 0 + 4 / 2) mod 4)).
Proof.
  apply (project_with_nufft_is_the_shifted_half_spectrum direct_nufft1
           [1%R; 1%R] (CloudCoords2D [(0%R, 0%R); (1%R, 0%R)]) 0%R 4 4 0 0
           has_shape_direct_nufft1);
    compare_integers.
Defined.

(** X19: the first item of the projection is never zeroed: it is the item
    of the full spectrum at [(M1 // 2, M2 // 2)], the zero frequency. *)
Theorem project_with_nufft_keeps_the_zero_frequency
  (nufft1 : Z * Z -> list C -> list R -> list R -> R -> Z -> list (list C))
  (weights : list R) (coordinate_list : CloudCoords) (eps : R) (M1 M2 : Z) :
  returns_shape nufft1 -> 0 < M1 -> 0 < M2 ->
  exists z : C,
    entry (project_with_nufft nufft1 weights coordinate_list (M1, M2) eps) 0 0
      = Some z
    /\ entry (nufft1 (M1, M2) (map RtoC weights)
                (map snd (coordinates_periodic coordinate_list (M1, M2)))
                (map fst (coordinates_periodic coordinate_list (M1, M2)))
                eps (-1))
             (Z.to_nat (M1 / 2)) (Z.to_nat (M2 / 2)) = Some z.
Proof.
  intros Hn H1 H2.
  rewrite (project_with_nufft_entry nufft1 Hn weights coordinate_list eps M1 M2 H1 H2 0 0)
    by (simpl; Z.div_mod_to_equations; lia).
  change (Z.of_nat 0) with 0. rewrite !Z.add_0_l.
  rewrite (Z.mod_small (M1 / 2) M1), (Z.mod_small (M2 / 2) M2)
    by (Z.div_mod_to_equations; lia).
  replace ((M2 mod 2 =? 0) && (0 =? M2 / 2)) with false.
  2:{ symmetry. apply andb_false_iff.
      destruct (Z.eqb_spec (M2 mod 2) 0); [ right | now left ].
      apply Z.eqb_neq. Z.div_mod_to_equations; lia. }
  replace ((M1 mod 2 =? 0) && (0 =? M1 / 2)) with false.
  2:{ symmetry. apply andb_false_iff.
      destruct (Z.eqb_spec (M1 mod 2) 0); [ right | now left ].
      apply Z.eqb_neq. Z.div_mod_to_equations; lia. }
  simpl orb. cbv iota.
  pose proof (Hn M1 M2 (map RtoC weights)
                (map snd (coordinates_periodic coordinate_list (M1, M2)))
                (map fst (coordinates_periodic coordinate_list (M1, M2)))
                eps (-1) H1 H2) as [Hrows Hcols].
  unfold entry.
  destruct (nth_error _ (Z.to_nat (M1 / 2))) as [r|] eqn:Er.
  - rewrite Forall_forall in Hcols. specialize (Hcols r (nth_error_In _ _ Er)).
    destruct (nth_error r (Z.to_nat (M2 / 2))) as [z|] eqn:Ez.
    + now exists z.
    + apply nth_error_None in Ez. Z.div_mod_to_equations; lia.
  - apply nth_error_None in Er. Z.div_mod_to_equations; lia.
Qed.

Lemma project_with_nufft_keeps_the_zero_frequency_witness :
  exists z : C,
    entry (project_with_nufft direct_nufft1 [1%R; 1%R]
             (CloudCoords2D [(0%R, 0%R); (1%R, 0%R)]) (4, 4) 0%R) 0 0
      = Some z
    /\ entry (direct_nufft1 (4, 4) (map RtoC [1%R; 1%R])
                (map snd (coordinates_periodic
                            (CloudCoords2D [(0%R, 0%R); (1%R, 0%R)]) (4, 4)))
                (map fst (coordinates_periodic
                            (CloudCoords2D [(0%R, 0%R); (1%R, 0%R)]) (4, 4)))
                0%R (-1))
             (Z.to_nat (4 / 2)) (Z.to_nat (4 / 2)) = Some z.
Proof.
  apply (project_with_nufft_keeps_the_zero_frequency direct_nufft1
           [1%R; 1%R] (CloudCoords2D [(0%R, 0%R); (1%R, 0%R)]) 0%R 4 4
           has_shape_direct_nufft1);
    compare_integers.
Defined.

(** X20: the projection is along z: two clouds of three-dimensional points
    with the same x and y coordinates have the same projection. *)
Theorem project_with_nufft_ignores_z
  (nufft1 : Z * Z -> list C -> list R -> list R -> R -> Z -> list (list C))
  (weights : list R) (c c' : list (R * R * R)) (shape : Z * Z) (eps : R) :
  map fst c = map fst c' ->
  project_with_nufft nufft1 weights (CloudCoords3D c) shape eps =
    project_with_nufft nufft1 weights (CloudCoords3D c') shape eps.
Proof.
  intros Hxy.
  assert (Hsame : xy (CloudCoords3D c) = xy (CloudCoords3D c')).
  { simpl. rewrite <- !(map_map fst (fun q => (fst q, snd q))). now rewrite Hxy. }
  unfold project_with_nufft, coordinates_periodic. now rewrite Hsame.
Qed.

Lemma project_with_nufft_ignores_z_witness :
  project_with_nufft direct_nufft1 [1%R]
    (CloudCoords3D [(0%R, 0%R, 1%R)]) (2, 2) 0%R =
  project_with_nufft direct_nufft1 [1%R]
    (CloudCoords3D [(0%R, 0%R, 2%R)]) (2, 2) 0%R.
Proof.
  apply (project_with_nufft_ignores_z direct_nufft1 [1%R]
           [(0%R, 0%R, 1%R)] [(0%R, 0%R, 2%R)] (2, 2) 0%R).
  reflexivity.
Defined.

(** X21: with a transform and a rescaling that keep shapes, [NufftProject]
    on a padded plane of [M1] by [M2] pixels returns [M1] rows of
    [M2 // 2 + 1] items for a voxel grid and for a voxel cloud, and raises
    [ValueError] for any other potential and for nothing else. *)
Theorem nufft_project_returns_the_half_spectrum_shape
  (nufft1 : Z * Z -> list C -> list R -> list R -> R -> Z -> list (list C))
  (self : NufftProject) (potential : Potential) (M1 M2 : Z) :
  returns_shape nufft1 -> keeps_shape (config self) ->
  padded_shape (config self) = (M1, M2) -> 0 < M1 -> 0 < M2 ->
  (call nufft1 self potential = Raise ValueError <-> potential = OtherPotential)
  /\ (potential <> OtherPotential ->
      exists image : list (list C),
        call nufft1 self potential = Ok image
        /\ has_shape M1 (M2 / 2 + 1) image).
Proof.
  intros Hn Hkeep Hshape H1 H2.
  destruct potential as [grid coords voxel_size | weights coords voxel_size | ];
    simpl; rewrite ?Hshape.
  - split; [ split; discriminate | ].
    intros _. eexists. split; [ reflexivity | ]. apply Hkeep.
    apply (project_with_nufft_spec nufft1 Hn); assumption.
  - split; [ split; discriminate | ].
    intros _. eexists. split; [ reflexivity | ]. apply Hkeep.
    apply (project_with_nufft_spec nufft1 Hn); assumption.
  - split; [ split; reflexivity | ]. intros Hne. now elim Hne.
Qed.

(** A cloud of two unit weights on a plane of 4x4 pixels, with a rescaling
    that changes nothing. *)
Lemma nufft_project_returns_the_half_spectrum_shape_witness :
  exists image : list (list C),
    call direct_nufft1
      {| config := {| padded_shape := (4, 4); pixel_size := 1%R;
                      rescale_to_pixel_size := fun a _ _ => a |};
         eps := 0%R |}
      (RealVoxelCloudPotential [1%R; 1%R]
         (CloudCoords2D [(0%R, 0%R); (1%R, 0%R)]) 1%R) = Ok image
    /\ has_shape 4 (4 / 2 + 1) image.
Proof.
  apply (nufft_project_returns_the_half_spectrum_shape direct_nufft1
           {| config := {| padded_shape := (4, 4); pixel_size := 1%R;
                           rescale_to_pixel_size := fun a _ _ => a |};
              eps := 0%R |}
           (RealVoxelCloudPotential [1%R; 1%R]
              (CloudCoords2D [(0%R, 0%R); (1%R, 0%R)]) 1%R) 4 4
           has_shape_direct_nufft1);
    [ intros n m a voxel_size is_real Ha; exact Ha | reflexivity
    | lia | lia | discriminate ].
Defined.
End NufftMore.

(** ** The likelihood and the noise, mode by mode *)

Module GaussianMore.
Import Py Scalar Gaussian PyFacts GaussianFacts.
Local Open Scope R_scope.

Lemma weighted_mode_sum_ext (n m : nat) (s t : nat -> nat -> R) :
  (forall i j, (i < n)%nat -> (j < m)%nat ->
               hermitian_weight i j * s i j = hermitian_weight i j * t i j) ->
  weighted_mode_sum n m s = weighted_mode_sum n m t.
Proof.
  intros H. unfold weighted_mode_sum. f_equal. apply map_ext_in.
  intros i Hi. apply in_seq in Hi. f_equal. apply map_ext_in.
  intros j Hj. apply in_seq in Hj. apply H; lia.
Qed.

Lemma sum_map_le {X : Type} (f g : X -> R) (l : list X) :
  (forall x, In x l -> f x <= g x) -> sum (map f l) <= sum (map g l).
Proof.
  intros H. induction l as [|x l IH]; simpl; [ lra | ].
  pose proof (H x (or_introl eq_refl)).
  assert (sum (map f l) <= sum (map g l)) by (apply IH; intros; apply H; now right).
  unfold sum in *. lra.
Qed.

Lemma weighted_mode_sum_le (n m : nat) (s t : nat -> nat -> R) :
  (forall i j, (i < n)%nat -> (j < m)%nat -> s i j <= t i j) ->
  weighted_mode_sum n m s <= weighted_mode_sum n m t.
Proof.
  intros H. unfold weighted_mode_sum. apply sum_map_le.
  intros i Hi. apply in_seq in Hi. apply sum_map_le.
  intros j Hj. apply in_seq in Hj.
  apply Rmult_le_compat_l; [ | apply H; lia ].
  unfold hermitian_weight. destruct j, i; lra.
Qed.

Lemma sum_map_opp {X : Type} (f : X -> R) (l : list X) :
  sum (map (fun x => - f x) l) = - sum (map f l).
Proof.
  induction l as [|x l IH]; simpl; [ ring | ]. unfold sum in *. rewrite IH. ring.
Qed.

Lemma weighted_mode_sum_opp (n m : nat) (t : nat -> nat -> R) :
  weighted_mode_sum n m (fun i j => - t i j) = - weighted_mode_sum n m t.
Proof.
  unfold weighted_mode_sum. rewrite <- sum_map_opp. f_equal.
  apply map_ext. intros i. rewrite <- sum_map_opp. f_equal.
  apply map_ext. intros j. ring.
Qed.

Section Likelihood.
Variable self : IndependentFourierGaussian.
Variables n m : nat.
Hypothesis simulated_rows : length (render self false) = n.
Hypothesis simulated_cols : rect m (render self false).
Hypothesis freqs_rows :
  length (frequency_grid_in_angstroms (pipeline self)) = n.
Hypothesis freqs_cols : rect m (frequency_grid_in_angstroms (pipeline self)).

Let N_pix := IZR (prod_shape (padded_shape (pipeline self))).
Let var (i j : nat) :=
  N_pix * variance self (at2 (0, 0) (frequency_grid_in_angstroms (pipeline self)) i j).

(** The likelihood as a sum over modes, for observed data of the shape of
    the rendered image. *)
Lemma log_likelihood_over_modes (observed : list (list C)) :
  length observed = n -> rect m observed ->
  log_likelihood self observed =
    - weighted_mode_sum n m
        (fun i j => mode_term N_pix (at2 C0 (render self false) i j)
                              (at2 C0 observed i j) (var i j)).
Proof.
  intros Ho1 Ho2.
  destruct (per_mode_shape self observed n m Ho1 Ho2 simulated_rows simulated_cols
                           freqs_rows freqs_cols) as [Hl1 Hl2].
  unfold log_likelihood.
  rewrite (sliced_sums_are_weighted _ n m Hl1 Hl2).
  rewrite (weighted_mode_sum_ext n m
             (at2 0 (log_likelihood_per_mode self observed))
             (fun i j => mode_term N_pix (at2 C0 (render self false) i j)
                                   (at2 C0 observed i j) (var i j))).
  - ring.
  - intros i j Hi Hj. f_equal.
    now apply (per_mode_entry self observed n m).
Qed.

Lemma Cabs_Csub_diag (z : C) : Cabs (Csub z z) = 0.
Proof.
  unfold Cabs, Csub. simpl.
  replace ((fst z - fst z) * (fst z - fst z) + (snd z - snd z) * (snd z - snd z))
    with 0 by ring.
  apply sqrt_0.
Qed.

Lemma log_likelihood_of_own_render :
  log_likelihood self (render self false) =
    weighted_mode_sum n m (fun i j => ln (2 * PI * var i j) / 2 / N_pix).
Proof.
  rewrite (log_likelihood_over_modes _ simulated_rows simulated_cols).
  rewrite <- weighted_mode_sum_opp. apply weighted_mode_sum_ext.
  intros i j Hi Hj. f_equal. unfold mode_term. rewrite Cabs_Csub_diag.
  unfold Rdiv. ring.
Qed.

Lemma log_likelihood_ignores_zero_mode (observed observed' : list (list C)) :
  length observed = n -> rect m observed ->
  length observed' = n -> rect m observed' ->
  (forall i j, (i, j) <> (0%nat, 0%nat) ->
               at2 C0 observed' i j = at2 C0 observed i j) ->
  log_likelihood self observed' = log_likelihood self observed.
Proof.
  intros Ho1 Ho2 Ho1' Ho2' Hsame.
  rewrite !log_likelihood_over_modes by assumption. f_equal.
  apply weighted_mode_sum_ext. intros i j Hi Hj.
  destruct i as [|i]; destruct j as [|j];
    [ unfold hermitian_weight; ring | | | ];
    rewrite Hsame by discriminate; reflexivity.
Qed.

Lemma Cabs_nonneg (z : C) : 0 <= Cabs z.
Proof. unfold Cabs. apply sqrt_pos. Qed.

Lemma log_likelihood_monotone (observed observed' : list (list C)) :
  length observed = n -> rect m observed ->
  length observed' = n -> rect m observed' ->
  0 < N_pix ->
  (forall f, 0 < variance self f) ->
  (forall i j, (i < n)%nat -> (j < m)%nat ->
               Cabs (Csub (at2 C0 (render self false) i j) (at2 C0 observed i j))
               <= Cabs (Csub (at2 C0 (render self false) i j) (at2 C0 observed' i j))) ->
  log_likelihood self observed' <= log_likelihood self observed.
Proof.
  intros Ho1 Ho2 Ho1' Ho2' HN Hvar Hres.
  rewrite !log_likelihood_over_modes by assumption.
  apply Ropp_le_contravar. apply weighted_mode_sum_le.
  intros i j Hi Hj. unfold mode_term.
  assert (Hv : 0 < var i j) by (unfold var; apply Rmult_lt_0_compat; auto).
  set (a := Cabs (Csub (at2 C0 (render self false) i j) (at2 C0 observed i j))).
  set (b := Cabs (Csub (at2 C0 (render self false) i j) (at2 C0 observed' i j))).
  assert (Hab : a <= b) by (now apply Hres).
  assert (Ha : 0 <= a) by apply Cabs_nonneg.
  assert (Hsq : a ^ 2 <= b ^ 2) by (apply pow_incr; lra).
  apply Rmult_le_compat_r; [ left; now apply Rinv_0_lt_compat | ].
  apply Rplus_le_compat_r.
  apply Rmult_le_compat_r; [ left; apply Rinv_0_lt_compat; lra | exact Hsq ].
Qed.
End Likelihood.

(** X22: with a positive number of pixels and a variance that is positive
    at every frequency, at data equal to the rendered image the residuals
    vanish, and the value that [log_likelihood] returns is the
    Hermitian-weighted sum over the modes of
    [log(2 pi variance) / 2 / N_pix], with the sign it has in the code. *)
Theorem log_likelihood_of_exact_fit_is_the_log_term
  (self : IndependentFourierGaussian) (n m : nat) :
  length (render self false) = n -> rect m (render self false) ->
  length (frequency_grid_in_angstroms (pipeline self)) = n ->
  rect m (frequency_grid_in_angstroms (pipeline self)) ->
  0 < IZR (prod_shape (padded_shape (pipeline self))) ->
  (forall f, 0 < variance self f) ->
  log_likelihood self (render self false) =
    weighted_mode_sum n m
      (fun i j =>
         ln (2 * PI
             * (IZR (prod_shape (padded_shape (pipeline self)))
                * variance self
                    (at2 (0, 0) (frequency_grid_in_angstroms (pipeline self)) i j)))
         / 2 / IZR (prod_shape (padded_shape (pipeline self)))).
Proof.
  intros Hs1 Hs2 Hf1 Hf2 _ _. now apply log_likelihood_of_own_render.
Qed.

(** X23: the value of the observed data at the zero mode never enters the
    likelihood: data that differ only there have the same likelihood. *)
Theorem log_likelihood_ignores_observed_zero_mode
  (self : IndependentFourierGaussian) (n m : nat)
  (observed observed' : list (list C)) :
  length (render self false) = n -> rect m (render self false) ->
  length (frequency_grid_in_angstroms (pipeline self)) = n ->
  rect m (frequency_grid_in_angstroms (pipeline self)) ->
  length observed = n -> rect m observed ->
  length observed' = n -> rect m observed' ->
  (forall i j, (i, j) <> (0%nat, 0%nat) ->
               at2 C0 observed' i j = at2 C0 observed i j) ->
  log_likelihood self observed' = log_likelihood self observed.
Proof.
  intros Hs1 Hs2 Hf1 Hf2. now apply log_likelihood_ignores_zero_mode.
Qed.

(** X24: with a positive variance, data whose residual is at least as
    large in magnitude at every mode are at most as likely. *)
Theorem log_likelihood_decreases_with_residuals
  (self : IndependentFourierGaussian) (n m : nat)
  (observed observed' : list (list C)) :
  length (render self false) = n -> rect m (render self false) ->
  length (frequency_grid_in_angstroms (pipeline self)) = n ->
  rect m (frequency_grid_in_angstroms (pipeline self)) ->
  length observed = n -> rect m observed ->
  length observed' = n -> rect m observed' ->
  0 < IZR (prod_shape (padded_shape (pipeline self))) ->
  (forall f, 0 < variance self f) ->
  (forall i j, (i < n)%nat -> (j < m)%nat ->
               Cabs (Csub (at2 C0 (render self false) i j) (at2 C0 observed i j))
               <= Cabs (Csub (at2 C0 (render self false) i j) (at2 C0 observed' i j))) ->
  log_likelihood self observed' <= log_likelihood self observed.
Proof.
  intros Hs1 Hs2 Hf1 Hf2. now apply log_likelihood_monotone.
Qed.

Lemma log_likelihood_of_exact_fit_is_the_log_term_witness :
  log_likelihood Samples.plane_2x2 (render Samples.plane_2x2 false) =
    weighted_mode_sum 2 2
      (fun i j =>
         ln (2 * PI
             * (IZR (prod_shape (padded_shape (pipeline Samples.plane_2x2)))
                * variance Samples.plane_2x2
                    (at2 (0, 0)
                       (frequency_grid_in_angstroms (pipeline Samples.plane_2x2)) i j)))
         / 2 / IZR (prod_shape (padded_shape (pipeline Samples.plane_2x2)))).
Proof.
  apply log_likelihood_of_exact_fit_is_the_log_term;
    [ reflexivity | repeat constructor | reflexivity | repeat constructor
    | | ].
  - unfold Samples.plane_2x2, prod_shape. simpl. lra.
  - intros f. unfold Samples.plane_2x2. simpl. unfold Constant. lra.
Defined.

Lemma log_likelihood_ignores_observed_zero_mode_witness :
  log_likelihood Samples.plane_2x2 [[(7, 7); C0]; [C0; C0]] =
    log_likelihood Samples.plane_2x2 [[C0; C0]; [C0; C0]].
Proof.
  apply (log_likelihood_ignores_observed_zero_mode Samples.plane_2x2 2 2);
    [ reflexivity | repeat constructor | reflexivity | repeat constructor
    | reflexivity | repeat constructor | reflexivity | repeat constructor | ].
  intros i j Hij.
  destruct i as [|[|[|i]]], j as [|[|[|j]]]; try reflexivity; now elim Hij.
Defined.

Lemma log_likelihood_decreases_with_residuals_witness :
  log_likelihood Samples.plane_2x2 [[C0; C0]; [C0; C0]] <=
    log_likelihood Samples.plane_2x2 (render Samples.plane_2x2 false).
Proof.
  apply (log_likelihood_decreases_with_residuals Samples.plane_2x2 2 2);
    [ reflexivity | repeat constructor | reflexivity | repeat constructor
    | reflexivity | repeat constructor | reflexivity | repeat constructor
    | | | ].
  - unfold Samples.plane_2x2, prod_shape. simpl. lra.
  - intros f. unfold Samples.plane_2x2. simpl. unfold Constant. lra.
  - intros i j Hi Hj. rewrite Cabs_Csub_diag. apply Cabs_nonneg.
Defined.
End GaussianMore.

Module SamplingFacts.
Import Py Scalar Nufft Gaussian GaussianSampling PyFacts NufftFacts.
Import MasksMore NufftMore.
Local Open Scope R_scope.

Lemma entry_at_set2 (a : list (list R)) (i j : nat) (v : R) (n m : Z) :
  has_shape n m a -> (0 < n)%Z -> (0 < m)%Z ->
  (Z.of_nat i < n)%Z -> (Z.of_nat j < m)%Z ->
  entry (at_set2 a 0 0 v) i j =
    if (i =? 0)%nat && (j =? 0)%nat then Some v else entry a i j.
Proof.
  intros [Hn Hm] Hn0 Hm0 Hi Hj. unfold entry, at_set2.
  rewrite nth_error_at_update_at by lia.
  destruct (nth_error a i) as [r|] eqn:Er;
    [ | apply nth_error_None in Er; lia ].
  rewrite Forall_forall in Hm. specialize (Hm r (nth_error_In _ _ Er)).
  destruct i as [|i].
  - change (Z.of_nat 0 =? 0)%Z with true. cbn [option_map andb Nat.eqb].
    rewrite nth_error_at_update_at by lia.
    destruct j as [|j].
    + change (Z.of_nat 0 =? 0)%Z with true. cbv iota.
      destruct r as [|x r]; [ simpl in Hm; lia | reflexivity ].
    + replace (Z.of_nat (S j) =? 0)%Z with false
        by (symmetry; apply Z.eqb_neq; lia).
      reflexivity.
  - replace (Z.of_nat (S i) =? 0)%Z with false
      by (symmetry; apply Z.eqb_neq; lia).
    reflexivity.
Qed.

(** X25: the noise that [sample] adds has no zero mode: item [(0, 0)] of
    the scaled draw is zero whatever was drawn there, and every other item
    is the draw times the square root of [N_pix] times the variance. *)
Theorem sampled_noise_has_no_zero_mode
  (PRNGKeyArray : Type) (jr_normal : PRNGKeyArray -> Z * Z -> list (list R))
  (padded_frequency_grid_in_angstroms : AbstractPipeline -> list (list (R * R)))
  (self : IndependentFourierGaussian) (key : PRNGKeyArray) (n m : Z) :
  (0 < n)%Z -> (0 < m)%Z ->
  has_shape n m (padded_frequency_grid_in_angstroms (pipeline self)) ->
  has_shape n m
    (jr_normal key (shape2 (padded_frequency_grid_in_angstroms (pipeline self)))) ->
  entry (scaled_normal PRNGKeyArray jr_normal padded_frequency_grid_in_angstroms
           self key) 0 0 = Some 0
  /\ forall (i j : nat) (f : R * R) (d : R),
      (i, j) <> (0%nat, 0%nat) ->
      entry (padded_frequency_grid_in_angstroms (pipeline self)) i j = Some f ->
      entry (jr_normal key
               (shape2 (padded_frequency_grid_in_angstroms (pipeline self)))) i j
        = Some d ->
      entry (scaled_normal PRNGKeyArray jr_normal padded_frequency_grid_in_angstroms
               self key) i j
        = Some (sqrt (IZR (prod_shape (padded_shape (pipeline self)))
                      * variance self f) * d).
Proof.
  intros Hn Hm Hfreqs Hdraw. unfold scaled_normal.
  set (freqs := padded_frequency_grid_in_angstroms (pipeline self)) in *.
  set (draw := jr_normal key (shape2 freqs)) in *.
  set (N_pix := IZR (prod_shape (padded_shape (pipeline self)))).
  assert (Hin : forall (i j : nat) (x : R), entry draw i j = Some x ->
                  (Z.of_nat i < n)%Z /\ (Z.of_nat j < m)%Z).
  { intros i j x Hx. destruct Hdraw as [Hdn Hdm]. unfold entry in Hx.
    destruct (nth_error draw i) as [r|] eqn:Er; [ | discriminate ].
    rewrite Forall_forall in Hdm. specialize (Hdm r (nth_error_In _ _ Er)).
    assert (nth_error draw i <> None) by congruence.
    assert (nth_error r j <> None) by congruence.
    rewrite nth_error_Some in *. lia. }
  assert (Hstd : forall i j f, entry freqs i j = Some f ->
             entry (map (map (fun f => sqrt (N_pix * variance self f))) freqs) i j
             = Some (sqrt (N_pix * variance self f))).
  { intros i j f Hf. unfold entry in *. rewrite nth_error_map.
    destruct (nth_error freqs i); [ | discriminate ]. simpl.
    now rewrite nth_error_map, Hf. }
  split.
  - destruct Hfreqs as [Hfn Hfm].
    destruct (entry freqs 0 0) as [f|] eqn:Ef.
    + rewrite (entry_zip2 Rmult _ _ 0 0 _ 0 (Hstd 0%nat 0%nat f Ef)).
      * f_equal. ring.
      * rewrite (entry_at_set2 draw 0 0 0 n m Hdraw) by (simpl; lia). reflexivity.
    + exfalso. unfold entry in Ef.
      destruct (nth_error freqs 0) as [r|] eqn:Er.
      * rewrite Forall_forall in Hfm. specialize (Hfm r (nth_error_In _ _ Er)).
        apply nth_error_None in Ef. lia.
      * apply nth_error_None in Er. lia.
  - intros i j f d Hij Hf Hd.
    destruct (Hin i j d Hd) as [Hi Hj].
    apply entry_zip2; [ now apply Hstd | ].
    rewrite (entry_at_set2 draw i j 0 n m Hdraw) by lia.
    destruct i as [|i], j as [|j]; simpl; try exact Hd. now elim Hij.
Qed.

Lemma entries_ext {X : Type} (n m : Z) (a b : list (list X)) :
  has_shape n m a -> has_shape n m b ->
  (forall i j : nat, (Z.of_nat i < n)%Z -> (Z.of_nat j < m)%Z ->
                     entry a i j = entry b i j) ->
  a = b.
Proof.
  intros [Han Ham] [Hbn Hbm] Hsame. rewrite Forall_forall in Ham, Hbm.
  apply nth_error_ext. intros i.
  destruct (nth_error a i) as [ra|] eqn:Era; destruct (nth_error b i) as [rb|] eqn:Erb.
  - f_equal. apply nth_error_ext. intros j.
    pose proof (Ham ra (nth_error_In _ _ Era)) as Hla.
    pose proof (Hbm rb (nth_error_In _ _ Erb)) as Hlb.
    assert (Hi : (Z.of_nat i < n)%Z).
    { assert (nth_error a i <> None) by congruence.
      rewrite nth_error_Some in *. lia. }
    destruct (Z.lt_ge_cases (Z.of_nat j) m) as [Hj | Hj].
    + specialize (Hsame i j Hi Hj). unfold entry in Hsame.
      now rewrite Era, Erb in Hsame.
    + assert (E1 : nth_error ra j = None) by (apply nth_error_None; lia).
      assert (E2 : nth_error rb j = None) by (apply nth_error_None; lia).
      congruence.
  - apply nth_error_None in Erb.
    assert (nth_error a i <> None) by congruence.
    rewrite nth_error_Some in *. lia.
  - apply nth_error_None in Era.
    assert (nth_error b i <> None) by congruence.
    rewrite nth_error_Some in *. lia.
  - reflexivity.
Qed.

Lemma has_shape_at_set2 (a : list (list R)) (i j : Z) (v : R) (n m : Z) :
  has_shape n m a -> has_shape n m (at_set2 a i j v).
Proof.
  intros [Hn Hm]. unfold at_set2. split.
  - now rewrite length_at_update.
  - apply Forall_at_update; [ | assumption ].
    intros r Hr. now rewrite length_at_update.
Qed.

(** X26: the draw at the zero mode never reaches the sample: two normal
    draws that differ only there give the same sample. *)
Theorem sample_ignores_the_zero_mode_draw
  (PRNGKeyArray : Type) (jr_normal jr_normal' : PRNGKeyArray -> Z * Z -> list (list R))
  (padded_frequency_grid_in_angstroms : AbstractPipeline -> list (list (R * R)))
  (crop_and_apply_operators : AbstractPipeline -> list (list R) -> bool -> list (list C))
  (self : IndependentFourierGaussian) (key : PRNGKeyArray) (get_real : bool)
  (n m : Z) :
  (0 < n)%Z -> (0 < m)%Z ->
  has_shape n m
    (jr_normal key (shape2 (padded_frequency_grid_in_angstroms (pipeline self)))) ->
  has_shape n m
    (jr_normal' key (shape2 (padded_frequency_grid_in_angstroms (pipeline self)))) ->
  (forall i j : nat, (i, j) <> (0%nat, 0%nat) ->
     entry (jr_normal' key
              (shape2 (padded_frequency_grid_in_angstroms (pipeline self)))) i j
     = entry (jr_normal key
                (shape2 (padded_frequency_grid_in_angstroms (pipeline self)))) i j) ->
  sample PRNGKeyArray jr_normal' padded_frequency_grid_in_angstroms
         crop_and_apply_operators self key get_real
  = sample PRNGKeyArray jr_normal padded_frequency_grid_in_angstroms
           crop_and_apply_operators self key get_real.
Proof.
  intros Hn Hm Hd Hd' Hsame. unfold sample, scaled_normal.
  set (freqs := padded_frequency_grid_in_angstroms (pipeline self)) in *.
  replace (at_set2 (jr_normal' key (shape2 freqs)) 0 0 0)
    with (at_set2 (jr_normal key (shape2 freqs)) 0 0 0); [ reflexivity | ].
  apply (entries_ext n m); try (apply has_shape_at_set2; assumption).
  intros i j Hi Hj.
  rewrite (entry_at_set2 _ i j 0 n m Hd), (entry_at_set2 _ i j 0 n m Hd') by lia.
  destruct i as [|i], j as [|j]; simpl; try reflexivity;
    symmetry; apply Hsame; discriminate.
Qed.

Lemma sampled_noise_has_no_zero_mode_witness :
  entry (scaled_normal unit Samples.draw_2x2
           Samples.padded_grid_2x2
           Samples.plane_2x2 tt) 0 0 = Some 0.
Proof.
  apply (sampled_noise_has_no_zero_mode unit Samples.draw_2x2
           Samples.padded_grid_2x2
           Samples.plane_2x2 tt 2 2);
    [ lia | lia | split; [ reflexivity | repeat constructor ]
    | split; [ reflexivity | repeat constructor ] ].
Defined.

Lemma sample_ignores_the_zero_mode_draw_witness :
  sample unit Samples.other_draw_2x2
         Samples.padded_grid_2x2
         (fun _ noise _ => map (map RtoC) noise) Samples.plane_2x2 tt false
  = sample unit Samples.draw_2x2
           Samples.padded_grid_2x2
           (fun _ noise _ => map (map RtoC) noise) Samples.plane_2x2 tt false.
Proof.
  apply (sample_ignores_the_zero_mode_draw unit
           Samples.draw_2x2 Samples.other_draw_2x2
           Samples.padded_grid_2x2
           (fun _ noise _ => map (map RtoC) noise) Samples.plane_2x2 tt false 2 2);
    [ lia | lia | split; [ reflexivity | repeat constructor ]
    | split; [ reflexivity | repeat constructor ] | ].
  intros i j Hij.
  destruct i as [|[|[|i]]], j as [|[|[|j]]]; try reflexivity; now elim Hij.
Defined.
End SamplingFacts.

(** ** Parameter transforms *)

Module TransformsFacts.
Import Transforms.
Local Open Scope R_scope.
Local Set Warnings "-register-all".

Lemma PyTree_nested_ind (P : PyTree -> Prop) :
  (forall x, P (Array x)) -> (forall t, P (Transformed t)) -> P PyNone ->
  (forall children, Forall P children -> P (Node children)) ->
  forall pytree, P pytree.
Proof.
  intros HA HT HN HC. fix IH 1. intros [x | t | | children].
  - apply HA.
  - apply HT.
  - exact HN.
  - apply HC. induction children as [|c children IHc]; constructor.
    + apply IH.
    + exact IHc.
Qed.


(** X27: an [ExpTransform] built from a positive parameter gives that
    parameter back. *)
Theorem exp_transform_gets_the_parameter_back (parameter : R) :
  0 < parameter -> get (ExpTransform parameter) = parameter.
Proof. intros Hpos. simpl. now apply exp_ln. Qed.

Lemma exp_transform_gets_the_parameter_back_witness : get (ExpTransform 2) = 2.
Proof. apply exp_transform_gets_the_parameter_back. lra. Defined.

(** X28: a [RescalingTransform] built with a scale factor that is not zero
    gives its parameter back. *)
Theorem rescaling_transform_gets_the_parameter_back (parameter rescaling : R) :
  rescaling <> 0 -> get (RescalingTransform parameter rescaling) = parameter.
Proof. intros Hr. simpl. now field. Qed.

Lemma rescaling_transform_gets_the_parameter_back_witness : get (RescalingTransform 3 2) = 3.
Proof. apply rescaling_transform_gets_the_parameter_back. lra. Defined.

(** A rescaling by zero loses the parameter. *)
Example rescaling_by_zero_loses_the_parameter (p q : R) :
  RescalingTransform p 0 = RescalingTransform q 0.
Proof. unfold RescalingTransform. now rewrite !Rmult_0_l. Qed.

(** X29: [apply_inverse_transforms] leaves no transformed parameter in a
    pytree, so applying it a second time changes nothing. *)
Theorem apply_inverse_transforms_is_idempotent (pytree : PyTree) :
  apply_inverse_transforms (apply_inverse_transforms pytree)
  = apply_inverse_transforms pytree.
Proof.
  induction pytree as [x | t | | children IH] using PyTree_nested_ind;
    try reflexivity.
  simpl. f_equal. rewrite map_map. apply map_ext_in.
  rewrite Forall_forall in IH. exact IH.
Qed.




End TransformsFacts.
